(** * File Finder: the search engine of [main.py]

    A shallow embedding of [FileSearchThread] (the concurrent directory
    walk), of [FileFinderApp.parse_extensions] and of
    [FileFinderApp.start_search], with the properties the specification
    states about them.

    Conventions of the embedding.
    - A Python [str] is a [string]; the model covers ASCII text, on which
      [str.lower], [str.strip] and the regular expression [[A-Za-z0-9]+]
      are the functions below.
    - A Python [set] of strings is a [gset string].
    - The threads of one search (the pool's workers and the thread that
      executes [run]) are a transition system: every access to the shared
      queue, to the stop event or to a signal is one atomic step, and a
      schedule names which thread moves next. Sleeps and time-outs take no
      step of their own: they are the points at which the other threads
      may move. *)

From Stdlib Require Import ZArith Ascii String.
From stdpp Require Import base tactics option list strings gmap.

Local Open Scope Z_scope.

(** ** Python strings *)

Module Str.

(** The truth value of a [str]: the empty string is false. *)
Definition truthy (s : string) : bool :=
  match s with "" => false | String _ _ => true end.

Definition code (c : ascii) : Z := Z.of_N (N_of_ascii c).

Definition between (lo hi : Z) (c : ascii) : bool :=
  (lo <=? code c) && (code c <=? hi).

Definition is_upper (c : ascii) : bool := between 65 90 c.
Definition is_lower (c : ascii) : bool := between 97 122 c.
Definition is_digit (c : ascii) : bool := between 48 57 c.

(** The character class [[A-Za-z0-9]]. *)
Definition is_alnum (c : ascii) : bool :=
  is_upper c || is_lower c || is_digit c.

(** [str.isspace] on ASCII: TAB, LF, VT, FF, CR, FS, GS, RS, US, SPACE. *)
Definition is_space (c : ascii) : bool :=
  between 9 13 c || between 28 32 c.

Definition lower_char (c : ascii) : ascii :=
  if is_upper c then ascii_of_N (Z.to_N (code c + 32)) else c.

(** [s.lower()] *)
Fixpoint lower (s : string) : string :=
  match s with
  | "" => ""
  | String c s' => String (lower_char c) (lower s')
  end.

(** [s.lstrip()] *)
Fixpoint lstrip (s : string) : string :=
  match s with
  | "" => ""
  | String c s' => if is_space c then lstrip s' else s
  end.

(** [s.rstrip()] *)
Fixpoint rstrip (s : string) : string :=
  match s with
  | "" => ""
  | String c s' =>
      let r := rstrip s' in
      if is_space c && negb (truthy r) then "" else String c r
  end.

(** [s.strip()] *)
Definition strip (s : string) : string := rstrip (lstrip s).

(** [s.lstrip(c)] for a single character [c]. *)
Fixpoint lstrip_char (c : ascii) (s : string) : string :=
  match s with
  | "" => ""
  | String a s' => if Ascii.eqb a c then lstrip_char c s' else s
  end.

(** [s.split(c)] for a single character [c]. *)
Fixpoint split (c : ascii) (s : string) : list string :=
  match s with
  | "" => [""]
  | String a s' =>
      if Ascii.eqb a c then "" :: split c s'
      else match split c s' with
           | w :: ws => String a w :: ws
           | [] => [String a ""]
           end
  end.

(** [sep.join(l)] *)
Fixpoint join (sep : string) (l : list string) : string :=
  match l with
  | [] => ""
  | [w] => w
  | w :: ws => w +:+ sep +:+ join sep ws
  end.

(** [s.startswith(sub)] *)
Fixpoint startswith (sub s : string) : bool :=
  match sub, s with
  | "", _ => true
  | String _ _, "" => false
  | String a sub', String b s' => Ascii.eqb a b && startswith sub' s'
  end.

(** [sub in s] *)
Fixpoint contains (sub s : string) : bool :=
  startswith sub s ||
  match s with
  | "" => false
  | String _ s' => contains sub s'
  end.

(** [s.rfind(c)] for a single character [c]: the highest index of [c]
    in [s], or [-1]. *)
Fixpoint rfind (c : ascii) (s : string) : Z :=
  match s with
  | "" => -1
  | String a s' =>
      let r := rfind c s' in
      if 0 <=? r then 1 + r else if Ascii.eqb a c then 0 else -1
  end.

(** [s[:n]] and [s[n:]] for [0 <= n]. *)
Fixpoint take (n : nat) (s : string) : string :=
  match n, s with
  | S n', String a s' => String a (take n' s')
  | _, _ => ""
  end.

Fixpoint drop (n : nat) (s : string) : string :=
  match n, s with
  | S n', String _ s' => drop n' s'
  | _, _ => s
  end.

(** [s[i:i+1]] for [0 <= i]: the character at [i] as a string, or the
    empty string past the end. *)
Definition at_index (i : nat) (s : string) : string := take 1 (drop i s).

(** [re.fullmatch(r'[A-Za-z0-9]+', s)] as a truth value. *)
Definition all_alnum (s : string) : bool :=
  forallb is_alnum (list_ascii_of_string s).

Definition fullmatch_alnum (s : string) : bool := truthy s && all_alnum s.

(** [s] consists of dots only. *)
Fixpoint all_dots (s : string) : bool :=
  match s with
  | "" => true
  | String c s' => Ascii.eqb c "." && all_dots s'
  end.

(** [c in s] for a single character [c], as a proposition. *)
Definition has_char (c : ascii) (s : string) : Prop :=
  c ∈ list_ascii_of_string s.

(** [sub] occurs in [s]. *)
Definition substring_of (sub s : string) : Prop :=
  ∃ a b, s = a +:+ sub +:+ b.

End Str.

(** ** [os.path.splitext]

    [os.path] is [posixpath] or [ntpath]; both delegate [splitext] to
    [genericpath._splitext] with their own separators. *)

Module OsPath.

Record flavour := { sep : ascii; altsep : option ascii }.

Definition posixpath : flavour := {| sep := "/"; altsep := None |}.
Definition ntpath : flavour := {| sep := "\"; altsep := Some "/"%char |}.

Definition extsep : ascii := ".".

(** The [while] loop of [_splitext]: it skips the leading dots of the
    file name and splits at [dotIndex] as soon as it meets another
    character. [n] bounds the iterations by [dotIndex - filenameIndex]. *)
Fixpoint skip_leading_dots (p : string) (dotIndex : Z) (n : nat)
    (filenameIndex : Z) : option (string * string) :=
  match n with
  | O => None
  | S n' =>
      if filenameIndex <? dotIndex then
        if negb (String.eqb (Str.at_index (Z.to_nat filenameIndex) p)
                            (String extsep ""))
        then Some (Str.take (Z.to_nat dotIndex) p,
                   Str.drop (Z.to_nat dotIndex) p)
        else skip_leading_dots p dotIndex n' (filenameIndex + 1)
      else None
  end.

Definition _splitext (p : string) (sep : ascii) (altsep : option ascii)
    (extsep : ascii) : string * string :=
  let sepIndex := Str.rfind sep p in
  let sepIndex :=
    match altsep with
    | Some a => Z.max sepIndex (Str.rfind a p)
    | None => sepIndex
    end in
  let dotIndex := Str.rfind extsep p in
  if sepIndex <? dotIndex then
    match skip_leading_dots p dotIndex
            (Z.to_nat (dotIndex - (sepIndex + 1))) (sepIndex + 1) with
    | Some r => r
    | None => (p, "")
    end
  else (p, "").

Definition splitext (f : flavour) (p : string) : string * string :=
  _splitext p (sep f) (altsep f) extsep.

End OsPath.

(** ** The operating system seen by a search *)

(** The exceptions the worker tells apart: the two it names in its
    [except] clauses, and every other exception. *)
Inductive exn := PermissionError | FileNotFoundError | OtherException.

Inductive link_target := ToFile | ToDirectory | Dangling.

(** What a directory entry is, without following a symbolic link. *)
Inductive file_type :=
| Regular
| Directory
| Symlink (target : link_target)
| Special.

(** An [os.DirEntry]. [probe] is the outcome of finding out the entry's
    type, which fails when the entry cannot be examined. *)
Record DirEntry := {
  name : string;
  path : string;
  probe : exn + file_type;
}.

(** [entry.is_dir(follow_symlinks=False)] and
    [entry.is_file(follow_symlinks=False)]: a symbolic link is neither, and
    [FileNotFoundError] is caught by the method, which then answers
    [False]. *)
Definition is_dir (e : DirEntry) : exn + bool :=
  match probe e with
  | inr Directory => inr true
  | inr _ => inr false
  | inl FileNotFoundError => inr false
  | inl x => inl x
  end.

Definition is_file (e : DirEntry) : exn + bool :=
  match probe e with
  | inr Regular => inr true
  | inr _ => inr false
  | inl FileNotFoundError => inr false
  | inl x => inl x
  end.

(** The outcome of [os.scandir(dirpath)] followed by the iteration. *)
Inductive scan_result :=
| Listing (entries : list DirEntry)
| ScanRaises (x : exn).

Record OS := {
  path_mod : OsPath.flavour;
  scandir : string → scan_result;
  (** [os.cpu_count()] *)
  cpu_count : option nat;
  (** [Some (k, msg)]: the pool starts [k] threads and the next
      [executor.submit] raises an exception whose text is [msg]. *)
  thread_limit : option (nat * string);
  (** [os.path.exists] *)
  path_exists : string → bool;
}.

(** ** [FileSearchThread] *)

(** [search_path] is one path or a list of paths. *)
Inductive path_arg := OnePath (p : string) | Paths (ps : list string).

Record FileSearchThread := {
  search_path : path_arg;
  filename : string;
  case_sensitive : bool;
  allowed_exts : option (gset string);
}.

(** One extension of the filter as [__init__] stores it. *)
Definition normalize_ext (e : string) : string :=
  Str.lower (Str.lstrip_char "." (Str.strip e)).

(** [FileSearchThread.__init__] *)
Definition init (search_path : path_arg) (filename : string)
    (case_sensitive : bool) (exts : option (list string)) : FileSearchThread :=
  {| search_path := search_path;
     filename := filename;
     case_sensitive := case_sensitive;
     allowed_exts :=
       match exts with
       | None | Some [] => None
       | Some l =>
           Some (list_to_set
                   (normalize_ext <$>
                    filter (λ e, Str.truthy e && Str.truthy (Str.strip e)) l))
       end |}.

(** The truth value of [self.allowed_exts]: [None] and the empty set are
    false. *)
Definition filter_active (self : FileSearchThread) : bool :=
  match allowed_exts self with
  | Some X => bool_decide (X ≠ ∅)
  | None => false
  end.

Definition ext_allowed (self : FileSearchThread) (ext : string) : bool :=
  match allowed_exts self with
  | Some X => bool_decide (ext ∈ X)
  | None => false
  end.

(** [target] of [run]. *)
Definition target (self : FileSearchThread) : string :=
  if case_sensitive self then filename self else Str.lower (filename self).

(** [name_to_check] of [worker]. *)
Definition name_to_check (self : FileSearchThread) (e : DirEntry) : string :=
  if case_sensitive self then name e else Str.lower (name e).

(** [ext] of [worker]. *)
Definition ext_of (os : OS) (e : DirEntry) : string :=
  Str.lstrip_char "." (Str.lower (OsPath.splitext (path_mod os) (name e)).2).

(** What the body of the worker's [for] loop does with one entry. *)
Inductive entry_result :=
| Enqueue (p : string)     (* [dir_queue.put(entry.path)] *)
| Emit (p : string)        (* [self.found_file.emit(entry.path)] *)
| Next                     (* on to the next entry *)
| Propagate (x : exn).     (* an exception leaves the loop *)

(** The [except PermissionError: continue] around the body. *)
Definition guard_entry (x : exn) : entry_result :=
  match x with
  | PermissionError => Next
  | _ => Propagate x
  end.

Definition scan_entry (os : OS) (self : FileSearchThread) (e : DirEntry)
    : entry_result :=
  match is_dir e with
  | inl x => guard_entry x
  | inr true => Enqueue (path e)
  | inr false =>
      match is_file e with
      | inl x => guard_entry x
      | inr true =>
          if Str.truthy (target self)
             && Str.contains (target self) (name_to_check self e)
          then
            if filter_active self then
              if negb (ext_allowed self (ext_of os e)) then Next
              else Emit (path e)
            else Emit (path e)
          else Next
      | inr false => Next
      end
  end.

(** ** The threads of one search *)

(** The two signals of [FileSearchThread]: [found_file = Signal(str)] and
    [finished = Signal()]. *)
Inductive event := FoundFile (text : string) | Finished.

Inductive thread_id := RunThread | WorkerThread (i : nat).

#[global] Instance thread_id_eq_dec : EqDecision thread_id.
Proof. solve_decision. Defined.

(** Where a worker stands in its [while True] loop. *)
Inductive wstate :=
| AtCheck                                   (* about to test the stop event *)
| AtGet                                     (* about to [dir_queue.get] *)
| Scanning (dirpath : string) (rest : list DirEntry)  (* in the [for] loop *)
| Exited.                                   (* left the loop *)

(** Where the thread that executes [run] stands. *)
Inductive rstate :=
| Polling                 (* top of the waiting loop: tests the stop event *)
| Looking                 (* first [dir_queue.empty()] *)
| Grace                   (* slept 0.5 s, second [dir_queue.empty()] *)
| Stopping (k : nat)      (* [k] sentinels still to put *)
| Joining                 (* [concurrent.futures.wait(futures)] *)
| Failing (msg : string)  (* an exception unwinds the [with] block, which
                             joins the threads that were started *)
| Finishing               (* the [finally] clause *)
| Done.

Record state := {
  stop_event : bool;
  (** the items of [dir_queue], oldest first; [None] is the sentinel *)
  dir_queue : list (option string);
  (** [dir_queue.unfinished_tasks] *)
  unfinished_tasks : nat;
  workers : list wstate;
  runner : rstate;
  (** the signals emitted so far, oldest first, each with its emitter *)
  signals : list (thread_id * event);
  (** history: every item ever put on [dir_queue], oldest first *)
  enqueued : list (option string);
}.

Definition set_stop (s : state) : state :=
  {| stop_event := true; dir_queue := dir_queue s;
     unfinished_tasks := unfinished_tasks s; workers := workers s;
     runner := runner s; signals := signals s; enqueued := enqueued s |}.

Definition set_queue (q : list (option string)) (s : state) : state :=
  {| stop_event := stop_event s; dir_queue := q;
     unfinished_tasks := unfinished_tasks s; workers := workers s;
     runner := runner s; signals := signals s; enqueued := enqueued s |}.

Definition set_worker (i : nat) (w : wstate) (s : state) : state :=
  {| stop_event := stop_event s; dir_queue := dir_queue s;
     unfinished_tasks := unfinished_tasks s; workers := <[i:=w]> (workers s);
     runner := runner s; signals := signals s; enqueued := enqueued s |}.

Definition set_runner (r : rstate) (s : state) : state :=
  {| stop_event := stop_event s; dir_queue := dir_queue s;
     unfinished_tasks := unfinished_tasks s; workers := workers s;
     runner := r; signals := signals s; enqueued := enqueued s |}.

(** [signal.emit(...)] by thread [who]. *)
Definition emit (who : thread_id) (ev : event) (s : state) : state :=
  {| stop_event := stop_event s; dir_queue := dir_queue s;
     unfinished_tasks := unfinished_tasks s; workers := workers s;
     runner := runner s; signals := signals s ++ [(who, ev)];
     enqueued := enqueued s |}.

(** [dir_queue.put(x)]: never blocks, the queue is unbounded. *)
Definition put (x : option string) (s : state) : state :=
  {| stop_event := stop_event s; dir_queue := dir_queue s ++ [x];
     unfinished_tasks := S (unfinished_tasks s); workers := workers s;
     runner := runner s; signals := signals s;
     enqueued := enqueued s ++ [x] |}.

(** [dir_queue.task_done()]: [None] when it raises [ValueError] (called
    more often than items were put). *)
Definition task_done (s : state) : option state :=
  match unfinished_tasks s with
  | O => None
  | S n =>
      Some {| stop_event := stop_event s; dir_queue := dir_queue s;
              unfinished_tasks := n; workers := workers s;
              runner := runner s; signals := signals s;
              enqueued := enqueued s |}
  end.

(** [try: dir_queue.task_done() except Exception: pass] *)
Definition try_task_done (s : state) : state := default s (task_done s).

(** Leaving the [try] around [os.scandir], normally or with exception [x]:
    [PermissionError] and [FileNotFoundError] are passed over, the [finally]
    clause calls [task_done], and any other exception reaches the outer
    [except Exception], which calls [task_done] once more. *)
Definition leave_scan (x : option exn) (s : state) : state :=
  let s := try_task_done s in
  match x with
  | Some OtherException => try_task_done s
  | _ => s
  end.

(** The roots [run] puts on the queue. *)
Definition roots (self : FileSearchThread) : list string :=
  match search_path self with
  | OnePath p => [p]
  | Paths ps => ps
  end.

(** [min(32, (os.cpu_count() or 1) * 2)] *)
Definition max_workers (os : OS) : nat :=
  Nat.min 32 (match cpu_count os with Some (S n) => S n | _ => 1%nat end * 2).

(** The number of workers the pool gets started, and how [run] goes on. *)
Definition started_workers (os : OS) : nat :=
  match thread_limit os with
  | Some (k, _) => Nat.min k (max_workers os)
  | None => max_workers os
  end.

Definition after_submit (os : OS) : rstate :=
  match thread_limit os with
  | Some (k, msg) => if (k <? max_workers os)%nat then Failing msg else Polling
  | None => Polling
  end.

(** The state once [run] has queued the roots and submitted the workers. *)
Definition start (os : OS) (self : FileSearchThread) : state :=
  {| stop_event := false;
     dir_queue := Some <$> roots self;
     unfinished_tasks := length (roots self);
     workers := replicate (started_workers os) AtCheck;
     runner := after_submit os;
     signals := [];
     enqueued := Some <$> roots self |}.

(** One step of worker [i]. *)
Definition worker_step (os : OS) (self : FileSearchThread) (i : nat)
    (s : state) : state :=
  match workers s !! i with
  | None | Some Exited => s
  | Some AtCheck =>
      set_worker i (if stop_event s then Exited else AtGet) s
  | Some AtGet =>
      match dir_queue s with
      | [] => set_worker i AtCheck s       (* [queue.Empty]: [continue] *)
      | None :: q =>
          match task_done (set_queue q s) with
          | Some s' => set_worker i Exited s'                (* [break] *)
          | None =>
              (* [ValueError] reaches [except Exception]; no [break] *)
              set_worker i AtCheck (try_task_done (set_queue q s))
          end
      | Some dirpath :: q =>
          match scandir os dirpath with
          | Listing es => set_worker i (Scanning dirpath es) (set_queue q s)
          | ScanRaises x =>
              set_worker i AtCheck (leave_scan (Some x) (set_queue q s))
          end
      end
  | Some (Scanning dirpath []) =>
      set_worker i AtCheck (leave_scan None s)
  | Some (Scanning dirpath (e :: es)) =>
      match scan_entry os self e with
      | Enqueue p => set_worker i (Scanning dirpath es) (put (Some p) s)
      | Emit p =>
          set_worker i (Scanning dirpath es)
            (emit (WorkerThread i) (FoundFile p) s)
      | Next => set_worker i (Scanning dirpath es) s
      | Propagate x => set_worker i AtCheck (leave_scan (Some x) s)
      end
  end.

Definition all_exited (s : state) : bool :=
  forallb (λ w, match w with Exited => true | _ => false end) (workers s).

Definition queue_empty (s : state) : bool :=
  match dir_queue s with [] => true | _ => false end.

(** One step of the thread that executes [run]. *)
Definition run_step (os : OS) (s : state) : state :=
  match runner s with
  | Polling =>
      set_runner (if stop_event s then Stopping (max_workers os) else Looking) s
  | Looking => set_runner (if queue_empty s then Grace else Polling) s
  | Grace =>
      set_runner (if queue_empty s then Stopping (max_workers os) else Polling) s
  | Stopping (S k) => set_runner (Stopping k) (put None s)
  | Stopping O => set_runner Joining s
  | Joining => if all_exited s then set_runner Finishing s else s
  | Failing msg =>
      if all_exited s
      then set_runner Finishing (emit RunThread (FoundFile ("Error: " +:+ msg)) s)
      else s
  | Finishing => set_runner Done (emit RunThread Finished s)
  | Done => s
  end.

Inductive action :=
| Work (i : nat)      (* worker [i] moves *)
| Run                 (* the thread of [run] moves *)
| Cancel.             (* [request_cancel] is called *)

Definition step (os : OS) (self : FileSearchThread) (a : action)
    (s : state) : state :=
  match a with
  | Work i => worker_step os self i s
  | Run => run_step os s
  | Cancel => set_stop s
  end.

(** The state after the steps of a schedule, taken from left to right. *)
Definition exec (os : OS) (self : FileSearchThread) (sched : list action)
    (s : state) : state :=
  foldl (λ s a, step os self a s) s sched.

Definition reachable (os : OS) (self : FileSearchThread) (s : state) : Prop :=
  ∃ sched, s = exec os self sched (start os self).

(** The emitter is a worker. *)
Definition is_worker (t : thread_id) : bool :=
  match t with WorkerThread _ => true | RunThread => false end.

(** The events thread [t] has emitted, oldest first. *)
Definition emitted_by (t : thread_id) (s : state) : list event :=
  omap (λ x, match x.1, t with
             | RunThread, RunThread => Some x.2
             | WorkerThread i, WorkerThread j =>
                 if (i =? j)%nat then Some x.2 else None
             | _, _ => None
             end) (signals s).

(** The events as the receiver sees them, without their emitters. *)
Definition stream (s : state) : list event := snd <$> signals s.

(** ** [FileFinderApp]: the request *)

(** The result of a call that may raise [ValueError]. *)
Inductive outcome (A : Type) :=
| Returns (a : A)
| Raises (msg : string).
Arguments Returns {A} a.
Arguments Raises {A} msg.

Definition newline : string := String "010" "".

(** The stripped, non-blank tokens of the extensions field. *)
Definition ext_parts (text : string) : list string :=
  (λ p, Str.lstrip_char "." (Str.strip p)) <$>
  filter (λ p, Str.truthy (Str.strip p)) (Str.split "," text).

Definition invalid_parts (parts : list string) : list string :=
  filter (λ p, negb (Str.fullmatch_alnum p)) parts.

Definition invalid_message (invalid : list string) : string :=
  "Invalid extension(s): " +:+ Str.join ", " invalid +:+ newline +:+
  "Use comma-separated alphanumeric extensions, e.g. 'py,txt'".

(** [FileFinderApp.parse_extensions] *)
Definition parse_extensions (text : string) : outcome (option (list string)) :=
  if negb (Str.truthy text) then Returns None
  else
    let parts := ext_parts text in
    match parts with
    | [] => Returns None
    | _ =>
        match invalid_parts parts with
        | [] => Returns (Some parts)
        | invalid => Raises (invalid_message invalid)
        end
    end.

(** The widgets [start_search] reads. *)
Record form := {
  search_input : string;
  ext_input : string;
  entire_pc_checkbox : bool;
  path_input : string;
  case_sensitive_checkbox : bool;
}.

Inductive launch :=
| NotStarted                          (* [return]: blank file name *)
| Warned (title text : string)        (* [QMessageBox.warning], [return] *)
| Started (thread : FileSearchThread).

Definition drive_letters : list ascii :=
  ["A"; "B"; "C"; "D"; "E"; "F"; "G"; "H"; "I"; "J"; "K"; "L"; "M"; "N"; "O";
   "P"; "Q"; "R"; "S"; "T"; "U"; "V"; "W"; "X"; "Y"; "Z"]%char.

Definition drive_root (letter : ascii) : string := String letter ":\".

(** [FileFinderApp.start_search] up to [self.search_thread.start()]. *)
Definition start_search (os : OS) (ui : form) : launch :=
  let filename := Str.strip (search_input ui) in
  if negb (Str.truthy filename) then NotStarted
  else
    let ext_text := Str.strip (ext_input ui) in
    match (if Str.truthy ext_text then parse_extensions ext_text
           else Returns None) with
    | Raises msg => Warned "Invalid extensions" msg
    | Returns allowed_exts =>
        let case_sensitive := case_sensitive_checkbox ui in
        if entire_pc_checkbox ui then
          let roots :=
            filter (λ root, path_exists os root) (drive_root <$> drive_letters) in
          let roots := match roots with [] => ["C:\"] | _ => roots end in
          Started (init (Paths roots) filename case_sensitive allowed_exts)
        else
          let path_text := Str.strip (path_input ui) in
          let root := if Str.truthy path_text then path_text else "C:\" in
          Started (init (OnePath root) filename case_sensitive allowed_exts)
    end.

(** The specification's wording of the normal form of a token: "an
    optional leading dot" is stripped, one at most. *)
Definition spec_strip_optional_dot (token : string) : string :=
  match token with
  | String "." rest => rest
  | _ => token
  end.

(** ** [FileFinderApp]: the receiver of the signals

    [add_result] is connected to [found_file] and counts in
    [_result_count]; [on_search_finished] is connected to [finished] and
    shows that count. The elapsed time it shows next to it is measured by
    the window's own clock and is not part of the model. *)
Record window := {
  _result_count : nat;
  (** the count in the status line "Search finished: ..." *)
  finished_with : option nat;
}.

Definition add_result (filepath : string) (w : window) : window :=
  {| _result_count := S (_result_count w); finished_with := finished_with w |}.

Definition on_search_finished (w : window) : window :=
  {| _result_count := _result_count w;
     finished_with := Some (_result_count w) |}.

Definition deliver (w : window) (ev : event) : window :=
  match ev with
  | FoundFile p => add_result p w
  | Finished => on_search_finished w
  end.

(** The window after the events of a search, which [start_search] began
    with [_result_count = 0]. *)
Definition receive (evs : list event) : window :=
  foldl deliver {| _result_count := 0; finished_with := None |} evs.

(** ** Vocabulary of the properties *)

(** [e] is an entry of a directory that can be listed. *)
Definition listed (os : OS) (e : DirEntry) : Prop :=
  ∃ d es, scandir os d = Listing es ∧ e ∈ es.

(** The number of sentinels put on the queue so far. *)
Definition sentinels (s : state) : nat :=
  length (filter (λ x, x = None) (enqueued s)).

(** The texts of the [found_file] signals among [evs]. *)
Definition found_texts (evs : list event) : list string :=
  omap (λ ev, match ev with FoundFile text => Some text | Finished => None end)
       evs.

(** No root of the search can be listed. *)
Definition no_valid_root (os : OS) (self : FileSearchThread) : Prop :=
  ∀ r, r ∈ roots self → ∃ x, scandir os r = ScanRaises x.

(** The invariant of a search without a valid root: no worker is in a
    listing, the queue holds roots and sentinels only, and no worker has
    emitted. *)
Definition barren_inv (self : FileSearchThread) (s : state) : Prop :=
  (∀ i d rest, workers s !! i ≠ Some (Scanning d rest)) ∧
  (∀ x, x ∈ dir_queue s → x = None ∨ ∃ r, x = Some r ∧ r ∈ roots self) ∧
  Forall (λ x, is_worker x.1 = false) (signals s).

(** How far a worker is from leaving its loop once the stop event is set:
    the steps it still takes, at most, when it is not about to take an item
    from the queue. *)
Definition worker_rank (w : wstate) : nat :=
  match w with
  | Exited | AtGet => 0
  | AtCheck => 1
  | Scanning _ rest => 2 + length rest
  end.

(** How far the thread of [run] is from [Done] once the stop event is set
    and the workers have left their loops. *)
Definition run_rank (os : OS) (r : rstate) : nat :=
  match r with
  | Done => 0
  | Finishing => 1
  | Joining | Failing _ => 2
  | Stopping k => 3 + k
  | Polling => 4 + max_workers os
  | Grace => 5 + max_workers os
  | Looking => 6 + max_workers os
  end.

(** [1] for a worker that is about to take an item from the queue. *)
Definition waits (w : wstate) : nat :=
  match w with AtGet => 1 | _ => 0 end.

(** The workers that are about to take an item from the queue. *)
Definition waiting (s : state) : nat := sum_list (waits <$> workers s).

(** The steps the threads still take, at most, once the stop event is set
    and no worker is about to take an item from the queue. *)
Definition distance (os : OS) (s : state) : nat :=
  sum_list (worker_rank <$> workers s) + run_rank os (runner s).

(** [s'] is closer to the end of a cancelled search than [s]: fewer workers
    are about to take an item, or as many and fewer steps remain. *)
Definition closer (os : OS) (s' s : state) : Prop :=
  (waiting s' < waiting s)%nat ∨
  (waiting s' = waiting s ∧ distance os s' < distance os s)%nat.

(** The state after the first [n] steps of an endless schedule. *)
Fixpoint run_to (os : OS) (self : FileSearchThread) (sched : nat → action)
    (n : nat) (s : state) : state :=
  match n with
  | O => s
  | S n' => run_to os self (sched ∘ S) n' (step os self (sched O) s)
  end.

(** An endless schedule in which the thread of [run] and each of the
    [pool] workers move again and again. *)
Definition fair (pool : nat) (sched : nat → action) : Prop :=
  ∀ a n, (a = Run ∨ ∃ i, (i < pool)%nat ∧ a = Work i) →
         ∃ m, (n ≤ m)%nat ∧ sched m = a.

(** The workers and the thread of [run] take turns. *)
Definition round_robin (pool : nat) (k : nat) : action :=
  if (k mod S pool =? pool)%nat then Run else Work (k mod S pool).

(** A schedule in which only workers move. *)
Definition workers_only (sched : list action) : Prop :=
  Forall (λ a, ∃ i, a = Work i) sched.

(** The terminal error event of the specification: a last event that is
    neither [finished] nor a [found_file]. *)
Definition ends_with_error_event (evs : list event) : Prop :=
  ∃ ev, last evs = Some ev ∧ ev ≠ Finished ∧ ∀ text, ev ≠ FoundFile text.

(** What the thread of [run] emits before [finished] when the pool could
    not be started. *)
Definition error_report (os : OS) : list event :=
  match after_submit os with
  | Failing msg => [FoundFile ("Error: " +:+ msg)]
  | _ => []
  end.

(** The signals of the thread of [run] once it stands at [r]. *)
Definition run_signals (os : OS) (r : rstate) : list event :=
  match r with
  | Finishing => error_report os
  | Done => error_report os ++ [Finished]
  | _ => []
  end.

(** The sentinels the thread of [run] has put once it stands at [r]. *)
Definition sentinels_due (os : OS) (r : rstate) : nat :=
  match r with
  | Stopping k => max_workers os - k
  | Joining => max_workers os
  | Finishing | Done =>
      match after_submit os with Polling => max_workers os | _ => 0%nat end
  | _ => 0%nat
  end.

(** The invariant of the thread of [run]: the pool keeps its size, the
    sentinels put are those due, the thread is on the path [after_submit]
    chose and stands in the [finally] clause or after it only when all
    workers have left their loops, and the signals are those of the
    workers followed by those of the thread of [run]. *)
Definition run_inv (os : OS) (s : state) : Prop :=
  length (workers s) = started_workers os ∧
  sentinels s = sentinels_due os (runner s) ∧
  match runner s with
  | Stopping k => (k ≤ max_workers os)%nat ∧ after_submit os = Polling
  | Polling | Looking | Grace | Joining => after_submit os = Polling
  | Failing msg => after_submit os = Failing msg
  | Finishing | Done => all_exited s = true
  end ∧
  ∃ l, signals s = l ++ ((RunThread,.) <$> run_signals os (runner s)) ∧
       Forall (λ x, is_worker x.1 = true) l.

(** What one step of a worker can be: the cases of [worker_step]. *)
Inductive worker_move (os : OS) (self : FileSearchThread) (i : nat)
    (s : state) : state → Prop :=
| move_none : worker_move os self i s s
| move_check :
    workers s !! i = Some AtCheck →
    worker_move os self i s (set_worker i (if stop_event s then Exited else AtGet) s)
| move_timeout :
    workers s !! i = Some AtGet → dir_queue s = [] →
    worker_move os self i s (set_worker i AtCheck s)
| move_sentinel q s' :
    workers s !! i = Some AtGet → dir_queue s = None :: q →
    task_done (set_queue q s) = Some s' →
    worker_move os self i s (set_worker i Exited s')
| move_sentinel_error q :
    workers s !! i = Some AtGet → dir_queue s = None :: q →
    task_done (set_queue q s) = None →
    worker_move os self i s (set_worker i AtCheck (try_task_done (set_queue q s)))
| move_list d q es :
    workers s !! i = Some AtGet → dir_queue s = Some d :: q →
    scandir os d = Listing es →
    worker_move os self i s (set_worker i (Scanning d es) (set_queue q s))
| move_skip d q x :
    workers s !! i = Some AtGet → dir_queue s = Some d :: q →
    scandir os d = ScanRaises x →
    worker_move os self i s (set_worker i AtCheck (leave_scan (Some x) (set_queue q s)))
| move_end d :
    workers s !! i = Some (Scanning d []) →
    worker_move os self i s (set_worker i AtCheck (leave_scan None s))
| move_enqueue d e es p :
    workers s !! i = Some (Scanning d (e :: es)) →
    scan_entry os self e = Enqueue p →
    worker_move os self i s (set_worker i (Scanning d es) (put (Some p) s))
| move_emit d e es p :
    workers s !! i = Some (Scanning d (e :: es)) →
    scan_entry os self e = Emit p →
    worker_move os self i s
      (set_worker i (Scanning d es) (emit (WorkerThread i) (FoundFile p) s))
| move_next d e es :
    workers s !! i = Some (Scanning d (e :: es)) →
    scan_entry os self e = Next →
    worker_move os self i s (set_worker i (Scanning d es) s)
| move_abort d e es x :
    workers s !! i = Some (Scanning d (e :: es)) →
    scan_entry os self e = Propagate x →
    worker_move os self i s (set_worker i AtCheck (leave_scan (Some x) s)).

(** The entries a worker still has to look at were listed; every signal
    of a worker is the path of a listed entry for which the loop body
    emits; every directory put on the queue is a root or the path of a
    listed entry for which the loop body enqueues. *)
Definition walk_inv (os : OS) (self : FileSearchThread) (s : state) : Prop :=
  (∀ i d rest e,
     workers s !! i = Some (Scanning d rest) → e ∈ rest → listed os e) ∧
  (∀ i ev,
     (WorkerThread i, ev) ∈ signals s →
     ∃ e, listed os e ∧ scan_entry os self e = Emit (path e) ∧
          ev = FoundFile (path e)) ∧
  (∀ p,
     Some p ∈ enqueued s →
     p ∈ roots self ∨
     ∃ e, listed os e ∧ scan_entry os self e = Enqueue (path e) ∧ p = path e).

(** ** Concrete trees and runs *)

Module Scenario.

Definition dir (d n : string) : DirEntry :=
  {| name := n; path := d +:+ "/" +:+ n; probe := inr Directory |}.

Definition file (d n : string) : DirEntry :=
  {| name := n; path := d +:+ "/" +:+ n; probe := inr Regular |}.

Definition link (d n : string) (to : link_target) : DirEntry :=
  {| name := n; path := d +:+ "/" +:+ n; probe := inr (Symlink to) |}.

Definition broken (d n : string) (x : exn) : DirEntry :=
  {| name := n; path := d +:+ "/" +:+ n; probe := inl x |}.

(** A POSIX machine with one core (a pool of two workers) whose
    directories are listed by [ls]. *)
Definition posix (ls : string → scan_result) : OS :=
  {| path_mod := OsPath.posixpath; scandir := ls; cpu_count := Some 1%nat;
     thread_limit := None; path_exists := λ _, true |}.

(** The same machine when the pool gets [k] threads started and the next
    one fails with [msg]. *)
Definition posix_limited (ls : string → scan_result) (k : nat) (msg : string)
    : OS :=
  {| path_mod := OsPath.posixpath; scandir := ls; cpu_count := Some 1%nat;
     thread_limit := Some (k, msg); path_exists := λ _, true |}.

(** [/tmp/a] holds [x/report.TXT] and [y/report.md]. *)
Definition tmp_a (d : string) : scan_result :=
  if String.eqb d "/tmp/a" then Listing [dir "/tmp/a" "x"; dir "/tmp/a" "y"]
  else if String.eqb d "/tmp/a/x" then Listing [file "/tmp/a/x" "report.TXT"]
  else if String.eqb d "/tmp/a/y" then Listing [file "/tmp/a/y" "report.md"]
  else ScanRaises FileNotFoundError.

Definition report_txt : FileSearchThread :=
  init (OnePath "/tmp/a") "report" false (Some ["txt"]).

(** Worker 0 lists [/tmp/a] and [/tmp/a/x], worker 1 lists [/tmp/a/y]; the
    thread of [run] then finds the queue empty twice, puts the two
    sentinels and joins. *)
Definition natural_run : list action :=
  [Work 0; Work 0; Work 0; Work 0; Work 0;
   Work 0; Work 0; Work 1; Work 1; Work 0; Work 0; Work 1; Work 1;
   Run; Run; Run; Run; Run; Run;
   Work 0; Work 0; Work 1; Work 1;
   Run; Run; Run]%nat.

(** No directory can be listed. *)
Definition nothing (d : string) : scan_result := ScanRaises FileNotFoundError.

(** [/locked] cannot be listed, [/open] holds [notes.txt]. *)
Definition two_roots (d : string) : scan_result :=
  if String.eqb d "/locked" then ScanRaises PermissionError
  else if String.eqb d "/open" then Listing [file "/open" "notes.txt"]
  else ScanRaises FileNotFoundError.

Definition notes_search : FileSearchThread :=
  init (Paths ["/locked"; "/open"]) "notes" false None.

(** Worker 0 takes [/locked], which cannot be listed, then [/open]; the
    thread of [run] then stops the pool. *)
Definition two_roots_run : list action :=
  [Work 0; Work 0; Work 0; Work 0; Work 0; Work 0;
   Run; Run; Run; Run; Run; Run;
   Work 0; Work 0; Work 1; Work 1;
   Run; Run]%nat.

(** A root that does not exist. *)
Definition missing_search : FileSearchThread :=
  init (OnePath "/missing") "report" false None.

(** Worker 0 takes the root, which cannot be listed; the thread of [run]
    then stops the pool. *)
Definition missing_run : list action :=
  [Work 0; Work 0;
   Run; Run; Run; Run; Run; Run;
   Work 0; Work 0; Work 1; Work 1;
   Run; Run]%nat.

(** The machine cannot start a single thread. *)
Definition no_threads : OS :=
  posix_limited tmp_a 0 "can't start new thread".

(** [/d] holds one entry whose type cannot be found out, for a reason
    other than a missing permission. *)
Definition faulty (d : string) : scan_result :=
  if String.eqb d "/d" then Listing [broken "/d" "x" OtherException]
  else ScanRaises FileNotFoundError.

Definition faulty_search : FileSearchThread :=
  init (OnePath "/d") "report" false None.

(** Worker 0 is in the listing of [/d] when the thread of [run] finds the
    queue empty twice and puts the two sentinels; worker 1 takes one and
    leaves; worker 0 then meets the faulty entry and takes the other
    sentinel. *)
Definition faulty_run : list action :=
  [Work 0; Work 0;
   Run; Run; Run; Run; Run; Run;
   Work 1; Work 1;
   Work 0; Work 0; Work 0]%nat.

(** The states in which worker 0 waits for an item that never comes. *)
Definition stuck (s : state) : Prop :=
  stop_event s = false ∧ dir_queue s = [] ∧ runner s = Joining ∧
  (workers s = [AtCheck; Exited] ∨ workers s = [AtGet; Exited]).

(** A schedule without [request_cancel]. *)
Definition uncancelled (sched : list action) : Prop :=
  Forall (λ a, a ≠ Cancel) sched.

End Scenario.

(** ** [FileFinderApp.on_preset_changed] *)

(** The items of [preset_combo]. *)
Definition presets : list string := ["All"; "Images"; "Documents"; "Code"].

Definition set_ext_input (text : string) (ui : form) : form :=
  {| search_input := search_input ui; ext_input := text;
     entire_pc_checkbox := entire_pc_checkbox ui;
     path_input := path_input ui;
     case_sensitive_checkbox := case_sensitive_checkbox ui |}.

(** [preset] is [self.preset_combo.currentText()]. *)
Definition on_preset_changed (preset : string) (ui : form) : form :=
  if String.eqb preset "All" then set_ext_input "" ui
  else if String.eqb preset "Images" then
    set_ext_input "png,jpg,jpeg,gif,bmp,webp" ui
  else if String.eqb preset "Documents" then
    set_ext_input "pdf,doc,docx,xls,xlsx,txt,odt" ui
  else if String.eqb preset "Code" then
    set_ext_input "py,js,java,cpp,c,h,cs,ts,rb,go,rs,html,css" ui
  else ui.

(** ** The loop over a listing, read as a whole *)

#[global] Instance action_eq_dec : EqDecision action.
Proof. solve_decision. Defined.

(** The paths the [for] loop of [worker] emits over the entries [es], in
    order: the loop ends at the first entry at which an exception other
    than [PermissionError] leaves it. *)
Fixpoint loop_emits (os : OS) (self : FileSearchThread) (es : list DirEntry)
    : list string :=
  match es with
  | [] => []
  | e :: es' =>
      match scan_entry os self e with
      | Emit p => p :: loop_emits os self es'
      | Propagate _ => []
      | _ => loop_emits os self es'
      end
  end.

(** The paths the same loop puts on the queue. *)
Fixpoint loop_puts (os : OS) (self : FileSearchThread) (es : list DirEntry)
    : list string :=
  match es with
  | [] => []
  | e :: es' =>
      match scan_entry os self e with
      | Enqueue p => p :: loop_puts os self es'
      | Propagate _ => []
      | _ => loop_puts os self es'
      end
  end.

(** The steps a worker takes from the head of the loop over [es] until it
    stands at the test of the stop event again. *)
Fixpoint loop_steps (os : OS) (self : FileSearchThread) (es : list DirEntry)
    : nat :=
  match es with
  | [] => 1
  | e :: es' =>
      match scan_entry os self e with
      | Propagate _ => 1
      | _ => S (loop_steps os self es')
      end
  end.

(** The number of steps of worker [i] in a schedule. *)
Definition moves (i : nat) (sched : list action) : nat :=
  length (filter (λ a, a = Work i) sched).

(** ** Searches without an unexpected exception *)

(** Neither a listing nor the examination of a listed entry raises an
    exception other than [PermissionError] and [FileNotFoundError]. *)
Definition no_unexpected_exception (os : OS) : Prop :=
  (∀ d, scandir os d ≠ ScanRaises OtherException) ∧
  (∀ e, listed os e → probe e ≠ inl OtherException).

(** [1] for a worker inside the loop over a listing. *)
Definition in_listing (w : wstate) : nat :=
  match w with Scanning _ _ => 1 | _ => 0 end.

(** The workers inside the loop over a listing. *)
Definition scanning (s : state) : nat := sum_list (in_listing <$> workers s).

(** ** [html.escape] *)

Module Html.

(** The double quote. *)
Definition quot : ascii := "034".

(** [s.replace(c, r)] for a single character [c]. *)
Fixpoint replace_char (c : ascii) (r : string) (s : string) : string :=
  match s with
  | "" => ""
  | String a s' =>
      (if Ascii.eqb a c then r else String a "") +:+ replace_char c r s'
  end.

(** [html.escape(s)], with [quote=True]: the ampersand is replaced
    first. *)
Definition escape (s : string) : string :=
  let s := replace_char "&" "&amp;" s in
  let s := replace_char "<" "&lt;" s in
  let s := replace_char ">" "&gt;" s in
  let s := replace_char quot "&quot;" s in
  replace_char "'" "&#x27;" s.

End Html.

(** ** [re.finditer] for an escaped pattern *)

Module Re.

(** Two ASCII characters are the same under the flags: with
    [re.IGNORECASE], up to the case of the letters. Outside ASCII the
    comparison of [re] is another one, and the properties that depend on
    it are stated for ASCII strings, see [is_ascii]. *)
Definition char_matches (ignorecase : bool) (a b : ascii) : bool :=
  if ignorecase then Ascii.eqb (Str.lower_char a) (Str.lower_char b)
  else Ascii.eqb a b.

(** The pattern [re.escape(text)], which matches the characters of
    [text] one by one, matches at the start of [s]. *)
Fixpoint match_at (ignorecase : bool) (text s : string) : bool :=
  match text, s with
  | "", _ => true
  | String _ _, "" => false
  | String a text', String b s' =>
      char_matches ignorecase a b && match_at ignorecase text' s'
  end.

(** The spans [(m.start(), m.end())] of the matches in the rest [s] of a
    string from index [pos] on, when the next [skip] characters belong to
    the match before: the scan goes from left to right and goes on
    behind a match. *)
Fixpoint finditer_from (ignorecase : bool) (text s : string) (pos skip : nat)
    : list (nat * nat) :=
  match s with
  | "" => []
  | String _ s' =>
      match skip with
      | S k => finditer_from ignorecase text s' (S pos) k
      | O =>
          if match_at ignorecase text s
          then (pos, (pos + String.length text)%nat)
               :: finditer_from ignorecase text s' (S pos)
                    (String.length text - 1)
          else finditer_from ignorecase text s' (S pos) 0
      end
  end.

(** [re.finditer(re.escape(text), s, flags)] for a [text] that is not
    empty. *)
Definition finditer (ignorecase : bool) (text s : string)
    : list (nat * nat) :=
  finditer_from ignorecase text s 0 0.

End Re.

(** ** [FileFinderApp.add_result]: the text of the label *)

Definition span_open : string :=
  "<span class=" +:+ String Html.quot ("match" +:+ String Html.quot ">").

Definition span_close : string := "</span>".

(** [s[a:b]] for [0 <= a] and [0 <= b]. *)
Definition slice (a b : nat) (s : string) : string :=
  Str.take (b - a) (Str.drop a s).

(** The list [parts] that the loop over the matches builds, from
    [last] on. *)
Fixpoint mark_matches (orig : string) (last : nat) (matches : list (nat * nat))
    : list string :=
  match matches with
  | [] => [Html.escape (Str.drop last orig)]
  | (s, e) :: ms =>
      Html.escape (slice last s orig)
      :: (span_open +:+ Html.escape (slice s e orig) +:+ span_close)
      :: mark_matches orig e ms
  end.

(** [html_text] of [add_result], for the text of the name field and the
    state of the "Case sensitive" box at the time of the call. *)
Definition html_text (search_text : string) (case_sensitive_checked : bool)
    (filepath : string) : string :=
  let esc := Html.escape filepath in
  if Str.truthy search_text then
    match Re.finditer (negb case_sensitive_checked) search_text filepath with
    | [] => esc
    | matches => Str.join "" (mark_matches filepath 0 matches)
    end
  else esc.

(** A label read as its pieces: stretches of plain text, each followed by
    a highlighted stretch, and the plain text after the last of them. *)
Fixpoint plain_text (segs : list (string * string)) (tail : string) : string :=
  match segs with
  | [] => tail
  | (a, m) :: segs' => a +:+ m +:+ plain_text segs' tail
  end.

Fixpoint render (segs : list (string * string)) (tail : string) : string :=
  match segs with
  | [] => Html.escape tail
  | (a, m) :: segs' =>
      Html.escape a +:+ span_open +:+ Html.escape m +:+ span_close +:+
      render segs' tail
  end.

(** A text as the comparison sees it. *)
Definition fold_case (case_sensitive : bool) (s : string) : string :=
  if case_sensitive then s else Str.lower s.

(** ** [LoadingOverlay.update_angle] *)

(** [self.angle = (self.angle + 6) % 360] *)
Definition update_angle (angle : Z) : Z := (angle + 6) mod 360.

(** ** Searches that end by themselves *)

(** An endless schedule without [request_cancel]. *)
Definition never_cancelled (sched : nat → action) : Prop :=
  ∀ n, sched n ≠ Cancel.

(** What an entry of a listing costs the search: one step, and for a
    directory the work below it. *)
Definition entry_cost (size : string → nat) (e : DirEntry) : nat :=
  match probe e with
  | inr Directory => 3 + size (path e)
  | _ => 1
  end.

(** The tree is finite: [size] bounds the work below every directory that
    can be listed by more than the work below its entries. *)
Definition bounded_by (os : OS) (size : string → nat) : Prop :=
  ∀ d es, scandir os d = Listing es →
          (sum_list (entry_cost size <$> es) ≤ size d)%nat.

Definition item_cost (size : string → nat) (x : option string) : nat :=
  match x with
  | Some d => 2 + size d
  | None => 0
  end.

Definition worker_cost (size : string → nat) (w : wstate) : nat :=
  match w with
  | Scanning _ rest => 1 + sum_list (entry_cost size <$> rest)
  | _ => 0
  end.

(** The work that is left: the directories on the queue and the listings
    the workers are in. *)
Definition work_left (size : string → nat) (s : state) : nat :=
  sum_list (item_cost size <$> dir_queue s) +
  sum_list (worker_cost size <$> workers s).

(** [1] for a worker that has not left its loop. *)
Definition live (w : wstate) : nat :=
  match w with Exited => 0 | _ => 1 end.

Definition living (s : state) : nat := sum_list (live <$> workers s).

(** The thread of [run] is in its waiting loop. *)
Definition waiting_loop (r : rstate) : bool :=
  match r with Polling | Looking | Grace => true | _ => false end.

(** How far the thread of [run] is from [Done], its waiting loop counted
    as one place. *)
Definition phase_rank (os : OS) (r : rstate) : nat :=
  match r with
  | Done => 0
  | Finishing => 1
  | Joining | Failing _ => 2
  | Stopping k => 3 + k
  | Polling | Looking | Grace => 4 + max_workers os
  end.

(** [s'] is nearer to the end of an uncancelled search than [s]: less
    work is left, or as much and fewer workers are in their loops, or as
    many and the thread of [run] is further on. *)
Definition nearer (os : OS) (size : string → nat) (s' s : state) : Prop :=
  (work_left size s' < work_left size s)%nat ∨
  (work_left size s' = work_left size s ∧
   ((living s' < living s)%nat ∨
    (living s' = living s ∧
     (phase_rank os (runner s') < phase_rank os (runner s))%nat))).

(** [s'] is as near to the end as [s], and differs from it only by a
    worker that went from the test of the stop event to the queue, or
    back from an empty queue, or by a turn of the waiting loop. *)
Definition calm (os : OS) (size : string → nat) (s s' : state) : Prop :=
  work_left size s' = work_left size s ∧ living s' = living s ∧
  phase_rank os (runner s') = phase_rank os (runner s) ∧
  dir_queue s' = dir_queue s ∧
  (∀ j, workers s' !! j = workers s !! j ∨
        (workers s !! j = Some AtCheck ∧ workers s' !! j = Some AtGet) ∨
        (workers s !! j = Some AtGet ∧ workers s' !! j = Some AtCheck ∧
         dir_queue s = [])) ∧
  (runner s' = runner s ∨
   (runner s = Polling ∧ runner s' = Looking) ∨
   (runner s = Looking ∧ runner s' = Grace ∧ dir_queue s = []) ∨
   (waiting_loop (runner s) = true ∧ runner s' = Polling ∧ dir_queue s ≠ [])).

(** The sentinels the thread of [run] has still to put. *)
Definition pending (os : OS) (r : rstate) : nat :=
  match r with
  | Polling | Looking | Grace => max_workers os
  | Stopping k => k
  | _ => 0
  end.

(** The sentinels on the queue. *)
Definition sentinels_queued (s : state) : nat :=
  length (filter (λ x, x = None) (dir_queue s)).

(** The invariant of an uncancelled search: the stop event is not set,
    and there is a sentinel, on the queue or still to be put, for each
    worker that has not left its loop. *)
Definition natural_inv (os : OS) (self : FileSearchThread) (s : state)
    : Prop :=
  reachable os self s ∧ stop_event s = false ∧
  (sentinels_queued s + pending os (runner s) = living s)%nat.

(** The work below the directories of [Scenario.tmp_a]. *)
Definition tmp_a_size (d : string) : nat :=
  if String.eqb d "/tmp/a" then 8 else 1.

(** ** The tree below the roots *)

(** [d] is a root of the search, or a directory, not a symbolic link, that
    is listed in a directory below the roots. *)
Inductive below (os : OS) (self : FileSearchThread) : string → Prop :=
| below_root r : r ∈ roots self → below os self r
| below_entry d es e :
    below os self d → scandir os d = Listing es → e ∈ es →
    probe e = inr Directory → below os self (path e).

(** The directories on the queue and those being listed are below the
    roots, and every signal of a worker is the path of a regular file
    listed in such a directory. *)
Definition tree_inv (os : OS) (self : FileSearchThread) (s : state) : Prop :=
  (∀ p, Some p ∈ dir_queue s → below os self p) ∧
  (∀ i d rest,
     workers s !! i = Some (Scanning d rest) →
     below os self d ∧
     ∃ es, scandir os d = Listing es ∧ ∀ e, e ∈ rest → e ∈ es) ∧
  (∀ i ev,
     (WorkerThread i, ev) ∈ signals s →
     ∃ d es e, below os self d ∧ scandir os d = Listing es ∧ e ∈ es ∧
               probe e = inr Regular ∧ ev = FoundFile (path e)).

(** ** A search without a valid root *)

(** The machine on which nothing but the roots of the search is there to
    be listed: a search without a valid root runs on it as on [os]. *)
Definition roots_only (os : OS) (self : FileSearchThread) : OS :=
  {| path_mod := path_mod os;
     scandir := λ d, if bool_decide (d ∈ roots self) then scandir os d
                     else ScanRaises FileNotFoundError;
     cpu_count := cpu_count os;
     thread_limit := thread_limit os;
     path_exists := path_exists os |}.

(** ** ASCII *)

(** The strings of ASCII characters: on them [Str.lower] is [str.lower]
    and [Re.char_matches] is the comparison of [re.IGNORECASE]. *)
Definition is_ascii (s : string) : bool :=
  forallb (λ c, Str.code c <? 128) (list_ascii_of_string s).

(** * Properties *)

(** ** Facts on strings *)

Module StrFacts.
Import Str.

Lemma app_nil_l s : "" +:+ s = s.
Proof. reflexivity. Qed.

Lemma app_cons a s t : String a s +:+ t = String a (s +:+ t).
Proof. reflexivity. Qed.

Lemma app_nil_r s : s +:+ "" = s.
Proof. induction s as [|a s IH]; [done|]. by rewrite app_cons, IH. Qed.

Lemma app_assoc s t u : (s +:+ t) +:+ u = s +:+ t +:+ u.
Proof. induction s as [|a s IH]; [done|]. by rewrite !app_cons, IH. Qed.

Lemma length_app s t :
  String.length (s +:+ t) = (String.length s + String.length t)%nat.
Proof. induction s as [|a s IH]; [done|]. rewrite app_cons. simpl. by rewrite IH. Qed.

Lemma truthy_true s : truthy s = true ↔ s ≠ "".
Proof. by destruct s. Qed.

Lemma truthy_false s : truthy s = false ↔ s = "".
Proof. by destruct s. Qed.

(** [startswith] and [in] are prefix and substring. *)
Lemma startswith_spec sub s :
  startswith sub s = true ↔ ∃ b, s = sub +:+ b.
Proof.
  revert s. induction sub as [|a sub IH]; intros s.
  - split; [by exists s|]. by destruct s.
  - destruct s as [|c s]; simpl.
    + split; [done|]. by intros [b ?].
    + rewrite andb_true_iff, Ascii.eqb_eq, IH. split.
      * intros [-> [b ->]]. by exists b.
      * intros [b [= -> ->]]. eauto.
Qed.

Lemma contains_spec sub s : contains sub s = true ↔ substring_of sub s.
Proof.
  unfold substring_of.
  induction s as [|c s IH].
  - simpl. rewrite orb_false_r, startswith_spec. split.
    + intros [b ->]. by exists "", b.
    + intros ([|??] & b & Hb); [by exists b|discriminate].
  - cbn [contains]. rewrite orb_true_iff, startswith_spec, IH. split.
    + intros [[b ->]|(a & b & ->)]; [by exists "", b|].
      by exists (String c a), b.
    + intros ([|c' a] & b & Hb); [left; by exists b|].
      right. injection Hb as -> ->. by exists a, b.
Qed.

Lemma contains_refl s : contains s s = true.
Proof. apply contains_spec. exists "", "". by rewrite app_nil_r. Qed.

Lemma contains_app sub a b :
  contains sub (a +:+ sub +:+ b) = true.
Proof. apply contains_spec. by exists a, b. Qed.

Lemma contains_app_l sub s t : contains sub s = true → contains sub (s +:+ t) = true.
Proof.
  rewrite !contains_spec. intros (a & b & ->). exists a, (b +:+ t).
  by rewrite !app_assoc.
Qed.

Lemma contains_app_r sub s t : contains sub t = true → contains sub (s +:+ t) = true.
Proof.
  rewrite !contains_spec. intros (a & b & ->). exists (s +:+ a), b.
  by rewrite !app_assoc.
Qed.

(** Every element of a list occurs in the joined string. *)
Lemma contains_join sep l w : w ∈ l → contains w (join sep l) = true.
Proof.
  induction l as [|v l IH]; [by intros ?%elem_of_nil|].
  intros [->|Hw]%elem_of_cons.
  - destruct l; [apply contains_refl|].
    cbn [join]. apply contains_app_l, contains_refl.
  - destruct l as [|v' l]; [by apply elem_of_nil in Hw|].
    cbn [join]. by apply contains_app_r, contains_app_r, IH.
Qed.

(** Lower-casing. *)
Lemma lower_char_idemp c : lower_char (lower_char c) = lower_char c.
Proof. by destruct c as [[] [] [] [] [] [] [] []]. Qed.

Lemma lower_idemp s : lower (lower s) = lower s.
Proof.
  induction s as [|c s IH]; [done|]. cbn [lower].
  by rewrite lower_char_idemp, IH.
Qed.

Lemma lower_char_dot c : lower_char c = "."%char ↔ c = "."%char.
Proof. destruct c as [[] [] [] [] [] [] [] []]; by split. Qed.

Lemma lower_app s t : lower (s +:+ t) = lower s +:+ lower t.
Proof.
  induction s as [|c s IH]; [done|]. rewrite app_cons. cbn [lower].
  by rewrite IH, app_cons.
Qed.

Lemma has_char_cons c a s : has_char c (String a s) ↔ c = a ∨ has_char c s.
Proof. unfold has_char. simpl. by rewrite elem_of_cons. Qed.

Lemma has_char_nil c : ¬ has_char c "".
Proof. unfold has_char. simpl. apply not_elem_of_nil. Qed.

Lemma has_char_lower_dot s : has_char "." (lower s) ↔ has_char "." s.
Proof.
  induction s as [|c s IH]; [done|]. cbn [lower].
  rewrite !has_char_cons, IH.
  split; (intros [E|?]; [left|by right]); symmetry in E.
  - apply (proj1 (lower_char_dot c)) in E. by rewrite E.
  - by rewrite E.
Qed.

(** [lstrip('.')] leaves no leading dot and is the identity on a string
    that has none. *)
Lemma lstrip_char_head c s : startswith (String c "") (lstrip_char c s) = false.
Proof.
  induction s as [|a s IH]; [done|]. simpl.
  destruct (Ascii.eqb a c) eqn:E; [done|]. simpl.
  by rewrite Ascii.eqb_sym, E.
Qed.

Lemma lstrip_char_id c s : ¬ has_char c s → lstrip_char c s = s.
Proof.
  destruct s as [|a s]; [done|]. rewrite has_char_cons. intros H. simpl.
  destruct (Ascii.eqb_spec a c); [|done]. naive_solver.
Qed.

Lemma startswith_lower_dot s :
  startswith "." (lower s) = startswith "." s.
Proof.
  destruct s as [|c s]; [done|]. cbn [lower startswith].
  destruct (Ascii.eqb_spec "." c) as [<-|Hc]; [done|].
  destruct (Ascii.eqb_spec "." (lower_char c)) as [E|]; [|done].
  symmetry in E. apply (proj1 (lower_char_dot c)) in E. congruence.
Qed.

End StrFacts.

(** ** The string functions on examples *)

Example lower_report : Str.lower "report.TXT" = "report.txt".
Proof. reflexivity. Qed.

Example strip_token : Str.strip "  .py " = ".py".
Proof. reflexivity. Qed.

Example split_field :
  Str.split "," "py, txt,,.md" = ["py"; " txt"; ""; ".md"].
Proof. reflexivity. Qed.

Example rfind_dot : Str.rfind "." "a.tar.gz" = 5.
Proof. reflexivity. Qed.

Example splitext_tar_gz :
  OsPath.splitext OsPath.ntpath "archive.tar.gz" = ("archive.tar", ".gz").
Proof. reflexivity. Qed.

Example splitext_dotfile :
  OsPath.splitext OsPath.posixpath ".bashrc" = (".bashrc", "").
Proof. reflexivity. Qed.

Example splitext_dots_then_suffix :
  OsPath.splitext OsPath.posixpath "..a.b" = ("..a", ".b").
Proof. reflexivity. Qed.

Example parse_presets :
  parse_extensions "png,jpg,jpeg,gif,bmp,webp" =
    Returns (Some ["png"; "jpg"; "jpeg"; "gif"; "bmp"; "webp"]).
Proof. reflexivity. Qed.

Example parse_blank : parse_extensions " , ," = Returns None.
Proof. reflexivity. Qed.
(** ** Projections of the state after the elementary updates *)

Create Rewrite HintDb frame.

Section Frame.
Context (s : state).

Lemma try_task_done_stop : stop_event (try_task_done s) = stop_event s.
Proof. unfold try_task_done, task_done. by destruct (unfinished_tasks s). Qed.

Lemma try_task_done_queue : dir_queue (try_task_done s) = dir_queue s.
Proof. unfold try_task_done, task_done. by destruct (unfinished_tasks s). Qed.

Lemma try_task_done_workers : workers (try_task_done s) = workers s.
Proof. unfold try_task_done, task_done. by destruct (unfinished_tasks s). Qed.

Lemma try_task_done_runner : runner (try_task_done s) = runner s.
Proof. unfold try_task_done, task_done. by destruct (unfinished_tasks s). Qed.

Lemma try_task_done_signals : signals (try_task_done s) = signals s.
Proof. unfold try_task_done, task_done. by destruct (unfinished_tasks s). Qed.

Lemma try_task_done_enqueued : enqueued (try_task_done s) = enqueued s.
Proof. unfold try_task_done, task_done. by destruct (unfinished_tasks s). Qed.

Lemma task_done_frame s' :
  task_done s = Some s' →
  stop_event s' = stop_event s ∧ dir_queue s' = dir_queue s ∧
  workers s' = workers s ∧ runner s' = runner s ∧
  signals s' = signals s ∧ enqueued s' = enqueued s.
Proof.
  unfold task_done. destruct (unfinished_tasks s); [done|].
  by intros [= <-].
Qed.

End Frame.

#[local] Hint Rewrite try_task_done_stop try_task_done_queue
  try_task_done_workers try_task_done_runner try_task_done_signals
  try_task_done_enqueued : frame.

Section FrameScan.
Context (x : option exn) (s : state).

Lemma leave_scan_stop : stop_event (leave_scan x s) = stop_event s.
Proof. unfold leave_scan. destruct x as [[]|]; by autorewrite with frame. Qed.

Lemma leave_scan_queue : dir_queue (leave_scan x s) = dir_queue s.
Proof. unfold leave_scan. destruct x as [[]|]; by autorewrite with frame. Qed.

Lemma leave_scan_workers : workers (leave_scan x s) = workers s.
Proof. unfold leave_scan. destruct x as [[]|]; by autorewrite with frame. Qed.

Lemma leave_scan_runner : runner (leave_scan x s) = runner s.
Proof. unfold leave_scan. destruct x as [[]|]; by autorewrite with frame. Qed.

Lemma leave_scan_signals : signals (leave_scan x s) = signals s.
Proof. unfold leave_scan. destruct x as [[]|]; by autorewrite with frame. Qed.

Lemma leave_scan_enqueued : enqueued (leave_scan x s) = enqueued s.
Proof. unfold leave_scan. destruct x as [[]|]; by autorewrite with frame. Qed.

Lemma leave_scan_unfinished :
  x ≠ Some OtherException →
  unfinished_tasks (leave_scan x s) = Nat.pred (unfinished_tasks s).
Proof.
  unfold leave_scan, try_task_done, task_done. intros Hx.
  destruct x as [[]|]; try done;
    by destruct (unfinished_tasks s) eqn:E; simpl; rewrite ?E.
Qed.

End FrameScan.

#[local] Hint Rewrite leave_scan_stop leave_scan_queue leave_scan_workers
  leave_scan_runner leave_scan_signals leave_scan_enqueued : frame.

(** Rewrites the projections of an updated state to those of the state
    before the update. *)
Ltac frame :=
  repeat match goal with
  | H : task_done ?s = Some ?s' |- _ =>
      let H1 := fresh in
      pose proof (task_done_frame s s' H) as H1; clear H;
      destruct H1 as (?&?&?&?&?&?)
  end;
  cbn [stop_event dir_queue workers runner signals enqueued
       set_stop set_queue set_worker set_runner emit put] in *;
  autorewrite with frame in *;
  cbn [stop_event dir_queue workers runner signals enqueued
       set_stop set_queue set_worker set_runner emit put] in *.

(** ** Runs *)

Section Search.
Context (os : OS) (self : FileSearchThread).

Lemma exec_app sched1 sched2 s :
  exec os self (sched1 ++ sched2) s = exec os self sched2 (exec os self sched1 s).
Proof. apply foldl_app. Qed.

Lemma exec_snoc sched a s :
  exec os self (sched ++ [a]) s = step os self a (exec os self sched s).
Proof. unfold exec. by rewrite foldl_snoc. Qed.

Lemma reachable_start : reachable os self (start os self).
Proof. by exists []. Qed.

Lemma reachable_step a s :
  reachable os self s → reachable os self (step os self a s).
Proof. intros [sched ->]. exists (sched ++ [a]). by rewrite exec_snoc. Qed.

Lemma reachable_exec sched s :
  reachable os self s → reachable os self (exec os self sched s).
Proof. intros [sched0 ->]. exists (sched0 ++ sched). by rewrite exec_app. Qed.

(** Induction over the runs of a search. *)
Lemma reachable_ind (P : state → Prop) :
  P (start os self) →
  (∀ a s, reachable os self s → P s → P (step os self a s)) →
  ∀ s, reachable os self s → P s.
Proof.
  intros Hstart Hstep s [sched ->].
  induction sched as [|a sched IH] using rev_ind; [done|].
  rewrite exec_snoc. apply Hstep; [by eexists|done].
Qed.

Lemma worker_step_move i s :
  worker_move os self i s (worker_step os self i s).
Proof.
  unfold worker_step.
  destruct (workers s !! i) as [[| |d [|e es]|]|] eqn:Hw;
    try by constructor.
  - destruct (dir_queue s) as [|[d|] q] eqn:Hq.
    + by constructor.
    + destruct (scandir os d) eqn:Hd; by econstructor.
    + destruct (task_done (set_queue q s)) eqn:Ht; by econstructor.
  - by econstructor.
  - destruct (scan_entry os self e) eqn:He; by econstructor.
Qed.

End Search.

(** ** What the loop body does with an entry *)

Section Entry.
Context (os : OS) (self : FileSearchThread) (e : DirEntry).

Lemma scan_entry_Emit p :
  scan_entry os self e = Emit p →
  p = path e ∧ probe e = inr Regular ∧
  Str.truthy (target self) = true ∧
  Str.contains (target self) (name_to_check self e) = true ∧
  (filter_active self = true → ext_allowed self (ext_of os e) = true).
Proof.
  unfold scan_entry, is_dir, is_file, guard_entry.
  destruct (probe e) as [[]|[]]; try discriminate.
  destruct (Str.truthy (target self)); [|discriminate].
  destruct (Str.contains _ _); [|discriminate]. simpl.
  destruct (filter_active self).
  - destruct (ext_allowed self (ext_of os e)); [|discriminate].
    by intros [= <-].
  - by intros [= <-].
Qed.

Lemma scan_entry_Enqueue p :
  scan_entry os self e = Enqueue p → p = path e ∧ probe e = inr Directory.
Proof.
  unfold scan_entry, is_dir, is_file, guard_entry.
  destruct (probe e) as [[]|[]]; try discriminate; try by intros [= <-].
  by repeat case_match.
Qed.

Lemma scan_entry_Propagate x :
  scan_entry os self e = Propagate x → probe e = inl OtherException.
Proof.
  unfold scan_entry, is_dir, is_file, guard_entry.
  destruct (probe e) as [[]|[]]; try discriminate; try done.
  by repeat case_match.
Qed.

(** A symbolic link, whatever it points at, and a special file are
    passed over. *)
Lemma scan_entry_not_regular t :
  probe e = inr t → t ≠ Regular → t ≠ Directory →
  scan_entry os self e = Next.
Proof.
  unfold scan_entry, is_dir, is_file. intros -> ??. by destruct t.
Qed.

End Entry.

(** ** Where the emitted paths and the queued directories come from *)

Section Walk.
Context (os : OS) (self : FileSearchThread).

Lemma walk_inv_start : walk_inv os self (start os self).
Proof.
  split_and!; simpl.
  - by intros i d rest e [? _]%lookup_replicate.
  - intros i ev []%elem_of_nil.
  - intros p (q & [= ->] & Hq)%list_elem_of_fmap. by left.
Qed.

Lemma walk_inv_set_worker i w s s' :
  walk_inv os self s →
  workers s' = workers s → signals s' = signals s →
  enqueued s' = enqueued s →
  (∀ d rest e, w = Scanning d rest → e ∈ rest → listed os e) →
  walk_inv os self (set_worker i w s').
Proof.
  intros (Hw & Hs & Hq) Ew Es Eq Hnew. split_and!; simpl.
  - intros j d rest e [(-> & Hj & _)|[_ Hj]]%list_lookup_insert_Some He.
    + by eapply Hnew.
    + rewrite Ew in Hj. by eapply Hw.
  - rewrite Es. apply Hs.
  - rewrite Eq. apply Hq.
Qed.

Lemma walk_inv_worker_step i s :
  walk_inv os self s → walk_inv os self (worker_step os self i s).
Proof.
  intros Hinv. pose proof Hinv as (Hw & Hs & Hq).
  destruct (worker_step_move os self i s) as
    [ | | | | | d q es ? ? Hd | | | d e es p Hi He | d e es p Hi He
    | d e es Hi He | ];
    try done;
    try (apply (walk_inv_set_worker _ _ s); frame; try done; try congruence;
         by destruct (stop_event s)).
  - (* a directory is listed *)
    apply (walk_inv_set_worker _ _ s); frame; try done.
    intros ? ? e' [= <- <-] He'. by exists d, es.
  - (* a subdirectory is put on the queue *)
    destruct (scan_entry_Enqueue _ _ _ _ He) as [-> _].
    split_and!; frame.
    + intros j d' rest e' [(-> & [= <- <-] & _)|[_ Hj]]%list_lookup_insert_Some He'.
      * eapply Hw; [done|]. by right.
      * by eapply Hw.
    + done.
    + intros p [?|[= ->]%list_elem_of_singleton]%elem_of_app; [by auto|].
      right. exists e. split_and!; [|done..].
      eapply Hw; [done|]. by left.
  - (* a match is emitted *)
    destruct (scan_entry_Emit _ _ _ _ He) as [-> _].
    split_and!; frame.
    + intros j d' rest e' [(-> & [= <- <-] & _)|[_ Hj]]%list_lookup_insert_Some He'.
      * eapply Hw; [done|]. by right.
      * by eapply Hw.
    + intros j ev [?|[= -> ->]%list_elem_of_singleton]%elem_of_app;
        [by eauto|].
      exists e. split_and!; [|done..]. eapply Hw; [done|]. by left.
    + done.
  - (* the entry is passed over *)
    apply (walk_inv_set_worker _ _ s); try done.
    intros ? ? e' [= <- <-] He'. eapply Hw; [done|]. by right.
Qed.

Lemma walk_inv_run_step s : walk_inv os self s → walk_inv os self (run_step os s).
Proof.
  intros (Hw & Hs & Hq). unfold run_step.
  destruct (runner s) as [| | |[|k]| | | |]; try done;
    repeat case_match; try done; split_and!; frame; try done.
  - intros p [?|[=]%list_elem_of_singleton]%elem_of_app. auto.
  - intros j ev [?|[=]%list_elem_of_singleton]%elem_of_app. eauto.
  - intros j ev [?|[=]%list_elem_of_singleton]%elem_of_app. eauto.
Qed.

Lemma walk_inv_reachable s : reachable os self s → walk_inv os self s.
Proof.
  apply reachable_ind; [apply walk_inv_start|].
  intros [i| |] s' _ Hinv; simpl.
  - by apply walk_inv_worker_step.
  - by apply walk_inv_run_step.
  - done.
Qed.

End Walk.

(** ** The matches *)

(** C1. Every match a worker emits is the path of a listed file whose name
    contains the query: compared in lower case when [case_sensitive] is
    false, as they are when it is true. *)
Theorem C1_match_name_contains_query (os : OS) (self : FileSearchThread)
    (s : state) (i : nat) (text : string) :
  reachable os self s →
  (WorkerThread i, FoundFile text) ∈ signals s →
  ∃ e, listed os e ∧ text = path e ∧
       (case_sensitive self = false →
        Str.substring_of (Str.lower (filename self)) (Str.lower (name e))) ∧
       (case_sensitive self = true →
        Str.substring_of (filename self) (name e)).
Proof.
  intros Hs Hin.
  destruct (walk_inv_reachable _ _ _ Hs) as (_ & Hsig & _).
  destruct (Hsig _ _ Hin) as (e & He & Hemit & [= ->]).
  destruct (scan_entry_Emit _ _ _ _ Hemit) as (_ & _ & _ & Hc & _).
  apply StrFacts.contains_spec in Hc. unfold target, name_to_check in Hc.
  exists e. split_and!; [done..| |]; intros Hcs; by rewrite Hcs in Hc.
Qed.

Lemma C1_witness :
  let os := Scenario.posix Scenario.tmp_a in
  let s := exec os Scenario.report_txt Scenario.natural_run
             (start os Scenario.report_txt) in
  ∃ e, listed os e ∧ "/tmp/a/x/report.TXT" = path e ∧
       (case_sensitive Scenario.report_txt = false →
        Str.substring_of (Str.lower (filename Scenario.report_txt))
          (Str.lower (name e))) ∧
       (case_sensitive Scenario.report_txt = true →
        Str.substring_of (filename Scenario.report_txt) (name e)).
Proof.
  intros os s.
  apply (C1_match_name_contains_query os Scenario.report_txt s 0
           "/tmp/a/x/report.TXT").
  - by exists Scenario.natural_run.
  - vm_compute. left.
Defined.

(** ** The extension filter *)

Section Normal.
Import Str StrFacts.

Lemma lower_lstrip_char c t :
  lower t = t → lower (lstrip_char c t) = lstrip_char c t.
Proof.
  induction t as [|a t IH]; [done|]. cbn [lower lstrip_char].
  intros [= Ha Ht]. destruct (Ascii.eqb a c); [by apply IH|].
  cbn [lower]. by rewrite Ha, Ht.
Qed.

(** The extension the worker compares is in lower case and has no
    leading dot. *)
Lemma ext_of_normal os e :
  lower (ext_of os e) = ext_of os e ∧ startswith "." (ext_of os e) = false.
Proof.
  unfold ext_of. split.
  - apply lower_lstrip_char, lower_idemp.
  - apply lstrip_char_head.
Qed.

Lemma normalize_ext_normal e :
  lower (normalize_ext e) = normalize_ext e ∧
  startswith "." (normalize_ext e) = false.
Proof.
  unfold normalize_ext. split; [apply lower_idemp|].
  rewrite startswith_lower_dot. apply lstrip_char_head.
Qed.

(** The set [__init__] stores holds normalized extensions of the list it
    was given. *)
Lemma init_allowed_exts sp fn cs exts X x :
  allowed_exts (init sp fn cs exts) = Some X → x ∈ X →
  ∃ l e, exts = Some l ∧ e ∈ l ∧ x = normalize_ext e.
Proof.
  destruct exts as [[|e0 l]|]; simpl; try done.
  intros [= <-] Hx. apply elem_of_list_to_set in Hx.
  apply list_elem_of_fmap in Hx as (e & -> & He).
  apply list_elem_of_filter in He as [_ He]. eauto.
Qed.

End Normal.

(** C2. With a filter stored and not empty, every match a worker emits
    has its extension, in lower case and without leading dot, in the stored
    set, whose members are in lower case and without leading dot too;
    without a filter a file whose name contains the query is emitted
    whatever its extension. With query "report", no case sensitivity and
    filter {"txt"}, [report.TXT] is emitted and [report.md] is not. *)
Theorem C2_extension_filter :
  (∀ os self s i text X,
     reachable os self s →
     (WorkerThread i, FoundFile text) ∈ signals s →
     allowed_exts self = Some X → X ≠ ∅ →
     ∃ e, listed os e ∧ text = path e ∧ ext_of os e ∈ X ∧
          Str.lower (ext_of os e) = ext_of os e ∧
          Str.startswith "." (ext_of os e) = false) ∧
  (∀ sp fn cs exts X x,
     allowed_exts (init sp fn cs exts) = Some X → x ∈ X →
     Str.lower x = x ∧ Str.startswith "." x = false) ∧
  (∀ os self e,
     filter_active self = false →
     probe e = inr Regular →
     Str.truthy (target self) = true →
     Str.contains (target self) (name_to_check self e) = true →
     scan_entry os self e = Emit (path e)) ∧
  (∀ ls,
     scan_entry (Scenario.posix ls) Scenario.report_txt
       (Scenario.file "/tmp/a/x" "report.TXT") = Emit "/tmp/a/x/report.TXT" ∧
     scan_entry (Scenario.posix ls) Scenario.report_txt
       (Scenario.file "/tmp/a/y" "report.md") = Next).
Proof.
  split_and!.
  - intros os self s i text X Hs Hin HX Hne.
    destruct (walk_inv_reachable _ _ _ Hs) as (_ & Hsig & _).
    destruct (Hsig _ _ Hin) as (e & He & Hemit & [= ->]).
    destruct (scan_entry_Emit _ _ _ _ Hemit) as (_ & _ & _ & _ & Hf).
    exists e. split_and!; [done..| |apply ext_of_normal|apply ext_of_normal].
    unfold filter_active, ext_allowed in Hf. rewrite HX in Hf.
    rewrite !bool_decide_eq_true in Hf. by apply Hf.
  - intros sp fn cs exts X x HX Hx.
    destruct (init_allowed_exts _ _ _ _ _ _ HX Hx) as (l & e & _ & _ & ->).
    apply normalize_ext_normal.
  - intros os self e Hf He Ht Hc. unfold scan_entry, is_dir, is_file.
    by rewrite He, Ht, Hc, Hf.
  - intros ls. split; by vm_compute.
Qed.

Lemma C2_witness :
  let os := Scenario.posix Scenario.tmp_a in
  let s := exec os Scenario.report_txt Scenario.natural_run
             (start os Scenario.report_txt) in
  ∃ e, listed os e ∧ "/tmp/a/x/report.TXT" = path e ∧
       ext_of os e ∈ ({["txt"]} : gset string) ∧
       Str.lower (ext_of os e) = ext_of os e ∧
       Str.startswith "." (ext_of os e) = false.
Proof.
  intros os s.
  apply (proj1 C2_extension_filter os Scenario.report_txt s 0%nat
           "/tmp/a/x/report.TXT" {["txt"]}).
  - by exists Scenario.natural_run.
  - vm_compute. left.
  - reflexivity.
  - apply (non_empty_inhabited_L "txt"). set_solver.
Defined.

(** ** Symbolic links *)

(** C9. Every match a worker emits is the path of a listed entry that is a
    regular file itself; for an entry that is a symbolic link, whatever it
    points at, or a special file, the loop body neither emits nor
    enqueues; and every directory ever put on the queue is a root or the
    path of a listed entry that is a directory itself. *)
Theorem C9_no_symlink_followed :
  (∀ os self s i text,
     reachable os self s →
     (WorkerThread i, FoundFile text) ∈ signals s →
     ∃ e, listed os e ∧ text = path e ∧ probe e = inr Regular) ∧
  (∀ os self e to,
     probe e = inr (Symlink to) → scan_entry os self e = Next) ∧
  (∀ os self e, probe e = inr Special → scan_entry os self e = Next) ∧
  (∀ os self s p,
     reachable os self s →
     Some p ∈ enqueued s →
     p ∈ roots self ∨
     ∃ e, listed os e ∧ p = path e ∧ probe e = inr Directory).
Proof.
  split_and!.
  - intros os self s i text Hs Hin.
    destruct (walk_inv_reachable _ _ _ Hs) as (_ & Hsig & _).
    destruct (Hsig _ _ Hin) as (e & He & Hemit & [= ->]).
    destruct (scan_entry_Emit _ _ _ _ Hemit) as (_ & Hreg & _). eauto.
  - intros os self e to He. by eapply scan_entry_not_regular.
  - intros os self e He. by eapply scan_entry_not_regular.
  - intros os self s p Hs Hin.
    destruct (walk_inv_reachable _ _ _ Hs) as (_ & _ & Hq).
    destruct (Hq _ Hin) as [?|(e & He & Hput & ->)]; [by left|right].
    destruct (scan_entry_Enqueue _ _ _ _ Hput) as [_ Hdir]. eauto.
Qed.

Lemma C9_witness :
  let os := Scenario.posix Scenario.tmp_a in
  ∃ e, listed os e ∧ "/tmp/a/x/report.TXT" = path e ∧ probe e = inr Regular.
Proof.
  intros os.
  apply (proj1 C9_no_symlink_followed os Scenario.report_txt
           (exec os Scenario.report_txt Scenario.natural_run
              (start os Scenario.report_txt)) 0%nat).
  - by exists Scenario.natural_run.
  - vm_compute. left.
Defined.

(** A symbolic link to a file whose name matches is passed over, and so
    is a symbolic link to a directory. *)
Example symlinks_passed_over ls :
  scan_entry (Scenario.posix ls) Scenario.report_txt
    (Scenario.link "/tmp/a" "report.txt" ToFile) = Next ∧
  scan_entry (Scenario.posix ls) Scenario.report_txt
    (Scenario.link "/tmp/a" "x" ToDirectory) = Next.
Proof. split; reflexivity. Qed.

(** ** What a step changes *)

Section Steps.
Context (os : OS) (self : FileSearchThread).

Lemma worker_step_runner i s : runner (worker_step os self i s) = runner s.
Proof. destruct (worker_step_move os self i s); by frame. Qed.

Lemma worker_step_stop i s :
  stop_event (worker_step os self i s) = stop_event s.
Proof. destruct (worker_step_move os self i s); by frame. Qed.

Lemma worker_step_length i s :
  length (workers (worker_step os self i s)) = length (workers s).
Proof.
  destruct (worker_step_move os self i s); frame;
    rewrite ?length_insert; congruence.
Qed.

(** A step of worker [j] leaves the other workers where they are. *)
Lemma worker_step_other i j s :
  i ≠ j → workers (worker_step os self j s) !! i = workers s !! i.
Proof.
  intros Hij.
  destruct (worker_step_move os self j s); frame;
    rewrite ?list_lookup_insert_ne by done; congruence.
Qed.

(** A step of a worker emits at most one signal, a [found_file]. *)
Lemma worker_step_signals i s :
  signals (worker_step os self i s) = signals s ∨
  ∃ d e es,
    workers s !! i = Some (Scanning d (e :: es)) ∧
    scan_entry os self e = Emit (path e) ∧
    signals (worker_step os self i s) =
      signals s ++ [(WorkerThread i, FoundFile (path e))].
Proof.
  destruct (worker_step_move os self i s) as
    [ | | | | | | | | | d e es p Hi He | | ]; frame; auto; try (left; congruence).
  right. destruct (scan_entry_Emit _ _ _ _ He) as [-> _]. by exists d, e, es.
Qed.

(** The steps of a worker, one by one. *)
Lemma worker_step_check i s :
  workers s !! i = Some AtCheck →
  worker_step os self i s =
    set_worker i (if stop_event s then Exited else AtGet) s.
Proof. unfold worker_step. by intros ->. Qed.

Lemma worker_step_timeout i s :
  workers s !! i = Some AtGet → dir_queue s = [] →
  worker_step os self i s = set_worker i AtCheck s.
Proof. unfold worker_step. by intros -> ->. Qed.

Lemma worker_step_list i s d q es :
  workers s !! i = Some AtGet → dir_queue s = Some d :: q →
  scandir os d = Listing es →
  worker_step os self i s = set_worker i (Scanning d es) (set_queue q s).
Proof. unfold worker_step. by intros -> -> ->. Qed.

Lemma worker_step_raise i s d q x :
  workers s !! i = Some AtGet → dir_queue s = Some d :: q →
  scandir os d = ScanRaises x →
  worker_step os self i s =
    set_worker i AtCheck (leave_scan (Some x) (set_queue q s)).
Proof. unfold worker_step. by intros -> -> ->. Qed.

Lemma worker_step_end i s d :
  workers s !! i = Some (Scanning d []) →
  worker_step os self i s = set_worker i AtCheck (leave_scan None s).
Proof. unfold worker_step. by intros ->. Qed.

Lemma worker_step_entry i s d e es :
  workers s !! i = Some (Scanning d (e :: es)) →
  worker_step os self i s =
    match scan_entry os self e with
    | Enqueue p => set_worker i (Scanning d es) (put (Some p) s)
    | Emit p =>
        set_worker i (Scanning d es) (emit (WorkerThread i) (FoundFile p) s)
    | Next => set_worker i (Scanning d es) s
    | Propagate x => set_worker i AtCheck (leave_scan (Some x) s)
    end.
Proof. unfold worker_step. by intros ->. Qed.

(** A worker that has left its loop stays where it is. *)
Lemma worker_step_exited i s :
  workers s !! i = Some Exited → worker_step os self i s = s.
Proof. unfold worker_step. by intros ->. Qed.

Lemma run_step_workers s : workers (run_step os s) = workers s.
Proof. unfold run_step. by repeat case_match. Qed.

Lemma run_step_stop s : stop_event (run_step os s) = stop_event s.
Proof. unfold run_step. by repeat case_match. Qed.

(** A step of the thread of [run] emits at most one signal. *)
Lemma run_step_signals s :
  signals (run_step os s) = signals s ∨
  ∃ ev, signals (run_step os s) = signals s ++ [(RunThread, ev)].
Proof. unfold run_step. repeat case_match; simpl; eauto. Qed.

Lemma step_length a s :
  length (workers (step os self a s)) = length (workers s).
Proof.
  destruct a; simpl;
    [apply worker_step_length|by rewrite run_step_workers|done].
Qed.

Lemma emitted_by_snoc t t' ev s s' :
  signals s' = signals s ++ [(t', ev)] →
  emitted_by t s' =
    emitted_by t s ++ (if decide (t = t') then [ev] else []).
Proof.
  unfold emitted_by. intros ->. rewrite omap_app. f_equal. simpl.
  destruct t' as [|j], t as [|i]; simpl; try done.
  destruct (Nat.eqb_spec j i) as [->|Hne].
  - by rewrite decide_True.
  - rewrite decide_False; [done|]. by intros [= ->].
Qed.

Lemma emitted_by_same t s s' :
  signals s' = signals s → emitted_by t s' = emitted_by t s.
Proof. unfold emitted_by. by intros ->. Qed.

(** Once worker [i] has left its loop, no step moves it or adds to what it
    emitted. *)
Lemma exited_step i a s :
  workers s !! i = Some Exited →
  workers (step os self a s) !! i = Some Exited ∧
  emitted_by (WorkerThread i) (step os self a s) =
    emitted_by (WorkerThread i) s.
Proof.
  intros Hi. destruct a as [j| |]; simpl.
  - destruct (decide (i = j)) as [<-|Hij].
    + by rewrite worker_step_exited.
    + split; [by rewrite worker_step_other|].
      destruct (worker_step_signals j s) as [E|(d & e & es & _ & _ & E)].
      * by apply emitted_by_same.
      * rewrite (emitted_by_snoc _ _ _ _ _ E), decide_False.
        -- apply app_nil_r.
        -- by intros [= ->].
  - split; [by rewrite run_step_workers|].
    destruct (run_step_signals s) as [E|[ev E]].
    + by apply emitted_by_same.
    + rewrite (emitted_by_snoc _ _ _ _ _ E), decide_False; [|done].
      apply app_nil_r.
  - done.
Qed.

Lemma exited_exec i sched s :
  workers s !! i = Some Exited →
  workers (exec os self sched s) !! i = Some Exited ∧
  emitted_by (WorkerThread i) (exec os self sched s) =
    emitted_by (WorkerThread i) s.
Proof.
  intros Hi. induction sched as [|a sched [IH1 IH2]] using rev_ind; [done|].
  rewrite exec_snoc.
  destruct (exited_step i a _ IH1) as [H1 H2]. split; [done|congruence].
Qed.

End Steps.

(** ** Cancellation *)

(** C4. When a worker tests the stop event and finds it set, it leaves its
    loop, and whatever the threads do from then on, this worker stays out
    of the loop and the matches it has emitted stay what they were. *)
Theorem C4_no_match_after_stop_observed (os : OS) (self : FileSearchThread)
    (s : state) (i : nat) (sched : list action) :
  workers s !! i = Some AtCheck →
  stop_event s = true →
  let observed := step os self (Work i) s in
  workers observed !! i = Some Exited ∧
  emitted_by (WorkerThread i) observed = emitted_by (WorkerThread i) s ∧
  workers (exec os self sched observed) !! i = Some Exited ∧
  emitted_by (WorkerThread i) (exec os self sched observed) =
    emitted_by (WorkerThread i) s.
Proof.
  intros Hi Hstop observed.
  assert (workers observed !! i = Some Exited) as Hex.
  { subst observed. simpl. unfold worker_step. rewrite Hi, Hstop. simpl.
    apply list_lookup_insert_eq. by eapply lookup_lt_Some. }
  assert (emitted_by (WorkerThread i) observed = emitted_by (WorkerThread i) s)
    as Hsame.
  { subst observed. simpl. unfold worker_step. by rewrite Hi. }
  destruct (exited_exec os self i sched _ Hex) as [H1 H2].
  split_and!; [done..|congruence].
Qed.

Lemma C4_witness :
  let os := Scenario.posix Scenario.tmp_a in
  let self := Scenario.report_txt in
  let s := exec os self [Cancel] (start os self) in
  let observed := step os self (Work 0) s in
  workers s !! 0%nat = Some AtCheck ∧
  stop_event s = true ∧
  workers observed !! 0%nat = Some Exited ∧
  emitted_by (WorkerThread 0) observed = emitted_by (WorkerThread 0) s ∧
  workers (exec os self Scenario.natural_run observed) !! 0%nat = Some Exited ∧
  emitted_by (WorkerThread 0) (exec os self Scenario.natural_run observed) =
    emitted_by (WorkerThread 0) s.
Proof.
  intros os self s observed.
  split; [reflexivity|]. split; [reflexivity|].
  apply (C4_no_match_after_stop_observed os self s 0 Scenario.natural_run);
    reflexivity.
Defined.

(** ** Directories that cannot be listed *)

(** C6. When the directory a worker takes from the queue cannot be listed
    ([os.scandir] raises), the step emits no signal, the directory is gone
    from the queue and nothing is put on it, the worker is back at the top
    of its loop, and the other threads, the stop event and the thread of
    [run] are untouched; when the stop event is not set the worker's next
    two steps take the next directory from the queue and start on its
    listing. With [/locked] unreadable and [/open] holding [notes.txt], the
    match in [/open] is emitted and the search finishes. *)
Theorem C6_unlistable_directory_skipped :
  (∀ os self s i d q x,
     workers s !! i = Some AtGet →
     dir_queue s = Some d :: q →
     scandir os d = ScanRaises x →
     let s' := step os self (Work i) s in
     signals s' = signals s ∧
     dir_queue s' = q ∧ enqueued s' = enqueued s ∧
     workers s' = <[i:=AtCheck]> (workers s) ∧
     runner s' = runner s ∧ stop_event s' = stop_event s ∧
     (x ≠ OtherException →
      unfinished_tasks s' = Nat.pred (unfinished_tasks s))) ∧
  (∀ os self s i d q x d' q' es,
     workers s !! i = Some AtGet →
     dir_queue s = Some d :: q →
     scandir os d = ScanRaises x →
     stop_event s = false →
     q = Some d' :: q' →
     scandir os d' = Listing es →
     let s' := exec os self [Work i; Work i; Work i] s in
     workers s' !! i = Some (Scanning d' es) ∧ dir_queue s' = q' ∧
     signals s' = signals s) ∧
  (let os := Scenario.posix Scenario.two_roots in
   stream (exec os Scenario.notes_search Scenario.two_roots_run
             (start os Scenario.notes_search)) =
     [FoundFile "/open/notes.txt"; Finished]).
Proof.
  split_and!.
  - intros os self s i d q x Hi Hq Hd. simpl. unfold worker_step.
    rewrite Hi, Hq, Hd. frame. split_and!; try done.
    intros Hx. cbn [unfinished_tasks set_worker].
    rewrite leave_scan_unfinished; [done|congruence].
  - intros os self s i d q x d' q' es Hi Hq Hd Hstop -> Hd'.
    assert (i < length (workers s))%nat as Hlt by by eapply lookup_lt_Some.
    change (exec os self [Work i; Work i; Work i] s) with
      (worker_step os self i (worker_step os self i (worker_step os self i s))).
    rewrite (worker_step_raise _ _ _ _ _ _ _ Hi Hq Hd).
    set (s1 := set_worker i AtCheck _).
    assert (workers s1 !! i = Some AtCheck) as H1.
    { subst s1. frame. by rewrite list_lookup_insert_eq. }
    rewrite (worker_step_check _ _ _ _ H1).
    replace (stop_event s1) with false by (subst s1; by frame).
    set (s2 := set_worker i AtGet s1).
    assert (workers s2 !! i = Some AtGet) as H2.
    { subst s2 s1. frame.
      by rewrite list_lookup_insert_eq by (by rewrite length_insert). }
    assert (dir_queue s2 = Some d' :: q') as Hq2 by (subst s2 s1; by frame).
    rewrite (worker_step_list _ _ _ _ _ _ _ H2 Hq2 Hd').
    subst s2 s1. frame. split_and!; [|done..].
    by rewrite list_lookup_insert_eq by (by rewrite !length_insert).
  - by vm_compute.
Qed.

Lemma C6_witness :
  let os := Scenario.posix Scenario.two_roots in
  let self := Scenario.notes_search in
  let s := exec os self [Work 0; Work 0] (start os self) in
  signals s = [] ∧ dir_queue s = [Some "/open"] ∧
  workers s = [AtCheck; AtCheck] ∧ runner s = Polling ∧
  stop_event s = false.
Proof.
  intros os self s.
  destruct (proj1 C6_unlistable_directory_skipped os self
              (step os self (Work 0) (start os self)) 0%nat
              "/locked" [Some "/open"] PermissionError)
    as (H1 & H2 & _ & H4 & H5 & H6 & _); [reflexivity..|].
  split_and!; [apply H1|apply H2|apply H4|apply H5|apply H6].
Defined.

(** ** The thread of [run] *)

Section RunThread.
Context (os : OS) (self : FileSearchThread).

Lemma all_exited_spec s :
  all_exited s = true ↔ ∀ i w, workers s !! i = Some w → w = Exited.
Proof.
  unfold all_exited. split.
  - intros H i w Hw.
    assert (In w (workers s)) as Hin
      by (apply list_elem_of_In; by eapply list_elem_of_lookup_2).
    apply (proj1 (forallb_forall _ _) H) in Hin. by destruct w.
  - intros H. apply forallb_forall. intros w Hw%list_elem_of_In.
    apply list_elem_of_lookup in Hw as [i Hi]. by rewrite (H i w Hi).
Qed.

Lemma all_exited_worker_step i s :
  all_exited s = true → worker_step os self i s = s.
Proof.
  rewrite all_exited_spec. intros H. unfold worker_step.
  destruct (workers s !! i) as [w|] eqn:Hw; [|done].
  by rewrite (H i w Hw).
Qed.

Lemma started_workers_normal :
  after_submit os = Polling → started_workers os = max_workers os.
Proof.
  unfold after_submit, started_workers.
  destruct (thread_limit os) as [[k msg]|]; [|done].
  destruct (Nat.ltb_spec k (max_workers os)); [done|]. lia.
Qed.

Lemma sentinels_snoc_Some (l : list (option string)) p :
  length (filter (λ x, x = None) (l ++ [Some p])) =
  length (filter (λ x, x = None) l).
Proof. rewrite filter_app, length_app. simpl. lia. Qed.

Lemma sentinels_snoc_None (l : list (option string)) :
  length (filter (λ x, x = None) (l ++ [None])) =
  S (length (filter (λ x, x = None) l)).
Proof. rewrite filter_app, length_app. simpl. lia. Qed.

Lemma worker_step_sentinels i s :
  sentinels (worker_step os self i s) = sentinels s.
Proof.
  unfold sentinels.
  destruct (worker_step_move os self i s); frame;
    rewrite ?sentinels_snoc_Some; congruence.
Qed.

Lemma after_submit_cases :
  after_submit os = Polling ∨ ∃ msg, after_submit os = Failing msg.
Proof.
  unfold after_submit. destruct (thread_limit os) as [[k msg]|]; [|by left].
  destruct (k <? max_workers os)%nat; eauto.
Qed.

Lemma run_inv_start : run_inv os (start os self).
Proof.
  split_and!; simpl.
  - by rewrite length_replicate.
  - unfold sentinels. simpl.
    replace (filter _ _) with (@nil (option string)).
    + by destruct after_submit_cases as [->|[msg ->]].
    + induction (roots self) as [|r l IH]; [done|]. simpl.
      by rewrite filter_cons_False.
  - by destruct after_submit_cases as [->|[msg ->]].
  - exists []. split; [|done].
    by destruct after_submit_cases as [->|[msg ->]].
Qed.

Lemma run_inv_worker_step i s :
  run_inv os s → run_inv os (worker_step os self i s).
Proof.
  intros (Hlen & Hsent & Hrun & l & Hsig & Hl).
  destruct (decide (all_exited s = true)) as [Hall|Hall].
  { rewrite all_exited_worker_step by done. by split_and!; [..|exists l]. }
  split_and!.
  - by rewrite worker_step_length.
  - by rewrite worker_step_sentinels, worker_step_runner.
  - rewrite worker_step_runner. by destruct (runner s).
  - rewrite worker_step_runner.
    assert (run_signals os (runner s) = []) as Hnone
      by (by destruct (runner s)).
    rewrite Hnone in *. simpl in *. rewrite app_nil_r in Hsig.
    destruct (worker_step_signals os self i s) as [E|(d & e & es & _ & _ & E)];
      rewrite E, Hsig.
    + exists l. by rewrite app_nil_r.
    + eexists. rewrite app_nil_r. split; [done|].
      apply Forall_app. split; [done|]. by constructor.
Qed.

Lemma run_inv_run_step s : run_inv os s → run_inv os (run_step os s).
Proof.
  intros (Hlen & Hsent & Hrun & l & Hsig & Hl).
  unfold run_step, run_inv, sentinels in *.
  destruct (runner s) as [| | |[|k]| |msg| |] eqn:Hr; simpl in Hsent, Hsig, Hrun.
  - (* Polling *)
    destruct (stop_event s); split_and!; simpl; eauto; lia.
  - (* Looking *)
    destruct (queue_empty s); split_and!; simpl; eauto.
  - (* Grace *)
    destruct (queue_empty s); split_and!; simpl; eauto; lia.
  - (* Stopping 0 *)
    destruct Hrun as [_ Hrun]. split_and!; simpl; eauto; lia.
  - (* Stopping (S k) *)
    destruct Hrun as [Hk Hrun]. split_and!; simpl; eauto; try lia.
    + rewrite sentinels_snoc_None. lia.
    + split; [lia|done].
  - (* Joining *)
    destruct (all_exited s) eqn:Hall.
    + split_and!; simpl; eauto; [by rewrite Hrun|].
      unfold error_report. rewrite Hrun. eauto.
    + rewrite Hr. simpl. split_and!; eauto.
  - (* Failing *)
    destruct (all_exited s) eqn:Hall.
    + split_and!; simpl; eauto; [by rewrite Hrun|].
      unfold error_report. rewrite Hrun. exists l. by rewrite Hsig, app_nil_r.
    + rewrite Hr. simpl. split_and!; eauto.
  - (* Finishing *)
    split_and!; simpl; eauto.
    exists l. rewrite Hsig, fmap_app, app_assoc. done.
  - (* Done *)
    rewrite Hr. split_and!; eauto.
Qed.

Lemma run_inv_reachable s : reachable os self s → run_inv os s.
Proof.
  apply reachable_ind; [apply run_inv_start|].
  intros [i| |] s' _ Hinv; simpl.
  - by apply run_inv_worker_step.
  - by apply run_inv_run_step.
  - done.
Qed.

End RunThread.

(** ** Termination detection *)

Section Detection.
Context (os : OS) (self : FileSearchThread).

(** The thread of [run] begins to stop the pool only when it finds the
    stop event set at the top of its loop, or the queue empty after the
    grace interval. *)
Lemma stopping_entered a s k :
  (∀ k', runner s ≠ Stopping k') →
  runner (step os self a s) = Stopping k →
  a = Run ∧ k = max_workers os ∧
  ((runner s = Polling ∧ stop_event s = true) ∨
   (runner s = Grace ∧ dir_queue s = [])).
Proof.
  intros Hnot. destruct a as [i| |]; simpl.
  - rewrite worker_step_runner. by intros ?%Hnot.
  - unfold run_step, queue_empty.
    destruct (runner s) as [| | |[|k']| |msg| |] eqn:Hr;
      try (by destruct (Hnot _ eq_refl));
      repeat case_match; simpl; try done; intros [= ?]; auto; congruence.
  - by intros ?%Hnot.
Qed.

(** The grace interval begins only when the queue was found empty. *)
Lemma grace_entered a s :
  runner s ≠ Grace →
  runner (step os self a s) = Grace →
  a = Run ∧ runner s = Looking ∧ dir_queue s = [].
Proof.
  intros Hnot. destruct a as [i| |]; simpl.
  - by rewrite worker_step_runner.
  - unfold run_step, queue_empty.
    destruct (runner s) as [| | |[|k']| |msg| |] eqn:Hr;
      repeat case_match; simpl; try done; intros; auto; congruence.
  - done.
Qed.

(** [finished] has been emitted only when the thread of [run] is done. *)
Lemma finished_Done s :
  reachable os self s → (RunThread, Finished) ∈ signals s → runner s = Done.
Proof.
  intros Hs Hin.
  destruct (run_inv_reachable _ _ _ Hs) as (_ & _ & _ & l & Hsig & Hl).
  rewrite Hsig in Hin. apply elem_of_app in Hin as [Hin|Hin].
  - rewrite Forall_forall in Hl. by apply Hl in Hin.
  - apply list_elem_of_fmap in Hin as (ev & [= <-] & Hev).
    destruct (runner s); simpl in Hev; try done;
      try (by apply elem_of_nil in Hev).
    unfold error_report in Hev.
    destruct (after_submit os); simpl in Hev;
      try (by apply elem_of_nil in Hev);
      by apply list_elem_of_singleton in Hev.
Qed.

End Detection.


(** ** The stream of events *)

Section Stream.
Context (os : OS) (self : FileSearchThread).

Lemma found_texts_app evs1 evs2 :
  found_texts (evs1 ++ evs2) = found_texts evs1 ++ found_texts evs2.
Proof. apply omap_app. Qed.

Lemma found_texts_fmap texts : found_texts (FoundFile <$> texts) = texts.
Proof.
  induction texts as [|t l IH]; [done|].
  change (t :: found_texts (FoundFile <$> l) = t :: l). by rewrite IH.
Qed.

(** A list of [found_file] events is the list of its texts. *)
Lemma all_found evs :
  Forall (λ ev, ∃ text, ev = FoundFile text) evs →
  evs = FoundFile <$> found_texts evs.
Proof.
  induction 1 as [|ev evs [text ->] _ IH]; [done|].
  change (FoundFile text :: evs =
          FoundFile text :: (FoundFile <$> found_texts evs)).
  by rewrite <-IH.
Qed.

Lemma error_report_found :
  Forall (λ ev, ∃ text, ev = FoundFile text) (error_report os).
Proof.
  unfold error_report. destruct (after_submit os); repeat constructor.
  by eexists.
Qed.

(** The stream of a search: [found_file] events, then [finished] once the
    thread of [run] is done. *)
Lemma stream_shape s :
  reachable os self s →
  stream s =
    (FoundFile <$> found_texts (stream s)) ++
    (match runner s with Done => [Finished] | _ => [] end).
Proof.
  intros Hs.
  destruct (run_inv_reachable _ _ _ Hs) as (_ & _ & _ & l & Hsig & Hl).
  destruct (walk_inv_reachable _ _ _ Hs) as (_ & Hw & _).
  assert (Forall (λ ev, ∃ text, ev = FoundFile text) (snd <$> l)) as Hfound.
  { apply Forall_fmap, Forall_forall. intros [t ev] Hin. simpl.
    rewrite Forall_forall in Hl. specialize (Hl _ Hin). simpl in Hl.
    destruct t as [|i]; [done|].
    destruct (Hw i ev) as (e & _ & _ & ->); [|by eexists].
    rewrite Hsig. apply elem_of_app. by left. }
  unfold stream. rewrite Hsig, fmap_app, <-list_fmap_compose.
  replace (snd ∘ (RunThread,.)) with (@id event) by done.
  rewrite list_fmap_id.
  pose proof error_report_found as Herr.
  set (W := snd <$> l) in *.
  assert (found_texts [Finished] = []) as Hfin by done.
  destruct (runner s); cbn [run_signals];
    rewrite ?app_nil_r; try (by apply all_found).
  - apply all_found. by apply Forall_app.
  - rewrite (assoc_L (++)), found_texts_app, Hfin, app_nil_r.
    f_equal. apply all_found. by apply Forall_app.
Qed.

(** Once the thread of [run] is done, no step changes anything but the
    stop event. *)
Lemma done_step a s :
  runner s = Done → all_exited s = true →
  runner (step os self a s) = Done ∧
  all_exited (step os self a s) = true ∧
  signals (step os self a s) = signals s.
Proof.
  intros Hr Hall. destruct a as [i| |]; simpl.
  - by rewrite all_exited_worker_step.
  - unfold run_step. by rewrite Hr.
  - done.
Qed.

Lemma done_exec sched s :
  runner s = Done → all_exited s = true →
  runner (exec os self sched s) = Done ∧
  all_exited (exec os self sched s) = true ∧
  signals (exec os self sched s) = signals s.
Proof.
  intros Hr Hall.
  induction sched as [|a sched (IH1 & IH2 & IH3)] using rev_ind; [done|].
  rewrite exec_snoc. destruct (done_step a _ IH1 IH2) as (? & ? & ?).
  split_and!; congruence.
Qed.

(** The receiver counts the [found_file] events. *)
Lemma receive_count evs :
  _result_count (receive evs) = length (found_texts evs).
Proof.
  unfold receive.
  induction evs as [|ev evs IH] using rev_ind; [done|].
  rewrite foldl_snoc, found_texts_app, length_app. destruct ev; simpl; lia.
Qed.

Lemma receive_finished evs :
  finished_with (receive (evs ++ [Finished])) = Some (length (found_texts evs)).
Proof.
  unfold receive. rewrite foldl_snoc. simpl. f_equal. apply receive_count.
Qed.

End Stream.

(** ** After a cancellation *)

Section WindDown.
Context (os : OS) (self : FileSearchThread).

Lemma exec_cons a sched s :
  exec os self (a :: sched) s = exec os self sched (step os self a s).
Proof. reflexivity. Qed.

Lemma workers_only_frame sched s :
  workers_only sched →
  stop_event (exec os self sched s) = stop_event s ∧
  runner (exec os self sched s) = runner s ∧
  length (workers (exec os self sched s)) = length (workers s).
Proof.
  unfold workers_only.
  induction sched as [|a sched IH] using rev_ind; [done|].
  intros [Hw [[i ->] _]%Forall_cons]%Forall_app.
  rewrite exec_snoc. simpl.
  rewrite worker_step_stop, worker_step_runner, worker_step_length. auto.
Qed.

(** The next state of a worker that moves. *)
Lemma worker_step_self i s w :
  workers s !! i = Some w →
  ∃ w', workers (worker_step os self i s) !! i = Some w'.
Proof.
  intros Hi. apply lookup_lt_is_Some. rewrite worker_step_length.
  by eapply lookup_lt_Some.
Qed.

(** With the stop event set, a worker that is not about to take an item
    from the queue comes closer to leaving its loop with every step, and
    does not take an item again. *)
Lemma worker_step_rank i s w :
  stop_event s = true →
  workers s !! i = Some w → w ≠ AtGet →
  ∃ w', workers (worker_step os self i s) !! i = Some w' ∧ w' ≠ AtGet ∧
        (worker_rank w' < worker_rank w ∨ w = Exited ∧ w' = Exited)%nat.
Proof.
  intros Hstop Hi Hw.
  assert (i < length (workers s))%nat as Hlt by by eapply lookup_lt_Some.
  destruct w as [| |d [|e es]|]; try done.
  - rewrite worker_step_check, Hstop by done. exists Exited. frame.
    rewrite list_lookup_insert_eq by done. split_and!; [done..|]. left.
    simpl. lia.
  - rewrite (worker_step_end _ _ _ _ d) by done. exists AtCheck. frame.
    rewrite list_lookup_insert_eq by done. split_and!; [done..|]. left.
    simpl. lia.
  - rewrite (worker_step_entry _ _ _ _ d e es) by done.
    destruct (scan_entry os self e); frame;
      rewrite list_lookup_insert_eq by done; eexists;
      (split_and!; [done..|left; simpl; lia]).
  - rewrite worker_step_exited by done. exists Exited. auto.
Qed.

(** A worker that takes an item from the queue, or finds none, is not
    about to take one after that step. *)
Lemma worker_step_get i s :
  workers s !! i = Some AtGet →
  ∃ w', workers (worker_step os self i s) !! i = Some w' ∧ w' ≠ AtGet.
Proof.
  intros Hi.
  assert (i < length (workers s))%nat as Hlt by by eapply lookup_lt_Some.
  unfold worker_step. rewrite Hi.
  destruct (dir_queue s) as [|[d|] q]; [| destruct (scandir os d) |
    destruct (task_done (set_queue q s)) eqn:Ht ]; frame;
    rewrite list_lookup_insert_eq by congruence; by eexists.
Qed.

Lemma worker_leaves n i s w :
  stop_event s = true →
  workers s !! i = Some w → w ≠ AtGet → (worker_rank w ≤ n)%nat →
  workers (exec os self (replicate n (Work i)) s) !! i = Some Exited.
Proof.
  revert s w. induction n as [|n IH]; intros s w Hstop Hi Hw Hn.
  - change (workers s !! i = Some Exited).
    destruct w as [| |d rest|]; simpl in Hn; try done; lia.
  - simpl replicate. rewrite exec_cons. simpl.
    destruct (worker_step_rank i s w Hstop Hi Hw) as (w' & Hi' & Hw' & Hlt).
    apply (IH _ w'); [by rewrite worker_step_stop|done..|].
    destruct Hlt as [?|[-> ->]]; simpl in *; lia.
Qed.

(** With the stop event set, every worker leaves its loop when it is
    given enough steps. *)
Lemma worker_leaves_eventually i s :
  stop_event s = true → (i < length (workers s))%nat →
  ∃ sched, workers_only sched ∧
           workers (exec os self sched s) !! i = Some Exited.
Proof.
  intros Hstop [w Hi]%lookup_lt_is_Some.
  assert (w = AtGet ∨ w ≠ AtGet) as [->|Hw] by (destruct w; auto).
  - destruct (worker_step_get i s Hi) as (w' & Hi' & Hw').
    exists (Work i :: replicate (worker_rank w') (Work i)). split.
    + constructor; [by eexists|]. apply Forall_replicate. by eexists.
    + rewrite exec_cons.
      apply (worker_leaves _ _ _ w'); [by simpl; rewrite worker_step_stop|done..].
  - exists (replicate (worker_rank w) (Work i)). split.
    + apply Forall_replicate. by eexists.
    + by apply (worker_leaves _ _ _ w).
Qed.

Lemma workers_leave k s :
  stop_event s = true → (k ≤ length (workers s))%nat →
  ∃ sched, workers_only sched ∧
           ∀ i, (i < k)%nat →
                workers (exec os self sched s) !! i = Some Exited.
Proof.
  intros Hstop. induction k as [|k IH]; intros Hk.
  - exists []. split; [constructor|]. lia.
  - destruct IH as (sched & Hsched & Hex); [lia|].
    destruct (workers_only_frame sched s Hsched) as (Hstop' & _ & Hlen).
    destruct (worker_leaves_eventually k (exec os self sched s))
      as (sched' & Hsched' & Hk'); [congruence|lia|].
    exists (sched ++ sched'). split; [by apply Forall_app|].
    intros i Hi. rewrite exec_app.
    destruct (decide (i = k)) as [->|Hne]; [done|].
    apply exited_exec, Hex. lia.
Qed.

(** With the stop event set and the workers out of their loops, every
    step of the thread of [run] brings it closer to [Done]. *)
Lemma run_step_rank s :
  stop_event s = true → all_exited s = true → runner s ≠ Done →
  (run_rank os (runner (run_step os s)) < run_rank os (runner s))%nat.
Proof.
  intros Hstop Hall Hr. unfold run_step. rewrite Hstop, Hall.
  destruct (runner s) as [| | |[|k]| |msg| |]; try done;
    try destruct (queue_empty s); simpl; lia.
Qed.

Lemma run_step_all_exited s : all_exited (run_step os s) = all_exited s.
Proof. unfold all_exited. by rewrite run_step_workers. Qed.

Lemma run_finishes n s :
  stop_event s = true → all_exited s = true →
  (run_rank os (runner s) ≤ n)%nat →
  runner (exec os self (replicate n Run) s) = Done.
Proof.
  revert s. induction n as [|n IH]; intros s Hstop Hall Hn.
  - change (runner s = Done). destruct (runner s); simpl in Hn; try done; lia.
  - simpl replicate. rewrite exec_cons. simpl.
    assert (runner s = Done ∨ runner s ≠ Done) as [Hr|Hr]
      by (destruct (runner s); auto).
    + apply IH; rewrite ?run_step_stop, ?run_step_all_exited; try done.
      unfold run_step. rewrite Hr. simpl. rewrite Hr. simpl. lia.
    + apply IH; rewrite ?run_step_stop, ?run_step_all_exited; try done.
      pose proof (run_step_rank s Hstop Hall Hr). lia.
Qed.

(** After a cancellation the search can always be run to its end: the
    workers leave their loops and the thread of [run] gets done. *)
Lemma cancelled_finishes s :
  ∃ sched, runner (exec os self (Cancel :: sched) s) = Done.
Proof.
  destruct (workers_leave (length (workers s)) (set_stop s))
    as (sched & Hsched & Hex); [done..|].
  destruct (workers_only_frame sched (set_stop s) Hsched)
    as (Hstop & _ & Hlen).
  set (s' := exec os self sched (set_stop s)) in *.
  exists (sched ++ replicate (run_rank os (runner s')) Run).
  rewrite exec_cons, exec_app. apply run_finishes; [done| |done].
  apply all_exited_spec. intros i w Hi.
  assert (i < length (workers s'))%nat as Hlt by by eapply lookup_lt_Some.
  rewrite Hex in Hi by (simpl in *; lia). congruence.
Qed.

End WindDown.

(** ** After a cancellation, under every fair schedule *)

Section Fairness.
Context (os : OS) (self : FileSearchThread).

Lemma sum_list_insert (f : wstate → nat) ws i w w' :
  ws !! i = Some w →
  (sum_list (f <$> <[i:=w']> ws) + f w = sum_list (f <$> ws) + f w')%nat.
Proof.
  revert i. induction ws as [|v ws IH]; intros [|i] Hi; simplify_eq/=.
  - lia.
  - specialize (IH i Hi). lia.
Qed.

(** A step of a worker changes its own place in the pool only. *)
Lemma worker_step_insert i s w' :
  workers (worker_step os self i s) !! i = Some w' →
  workers (worker_step os self i s) = <[i:=w']> (workers s).
Proof.
  intros Hi.
  assert (i < length (workers s))%nat as Hlt.
  { rewrite <-(worker_step_length os self i s). by eapply lookup_lt_Some. }
  apply list_eq. intros j. destruct (decide (i = j)) as [<-|Hne].
  - by rewrite list_lookup_insert_eq.
  - by rewrite list_lookup_insert_ne, worker_step_other.
Qed.

Lemma set_stop_id s : stop_event s = true → set_stop s = s.
Proof. destruct s. simpl. by intros ->. Qed.

Lemma step_stop a s :
  stop_event s = true → stop_event (step os self a s) = true.
Proof.
  destruct a; simpl;
    [by rewrite worker_step_stop|by rewrite run_step_stop|done].
Qed.

(** With the stop event set, a worker that has not left its loop comes
    closer to the end with every step. *)
Lemma work_closer i s w :
  stop_event s = true →
  workers s !! i = Some w → w ≠ Exited →
  closer os (worker_step os self i s) s.
Proof.
  intros Hstop Hi Hw. unfold closer, waiting, distance.
  rewrite worker_step_runner.
  assert (w = AtGet ∨ w ≠ AtGet) as [->|Hget] by (destruct w; auto).
  - destruct (worker_step_get os self i s Hi) as (w' & Hi' & Hw').
    rewrite (worker_step_insert _ _ _ Hi').
    pose proof (sum_list_insert waits _ _ _ w' Hi) as H1.
    left. destruct w'; simpl in *; try done; lia.
  - destruct (worker_step_rank os self i s w Hstop Hi Hget)
      as (w' & Hi' & Hw' & [Hlt|[? _]]); [|done].
    rewrite (worker_step_insert _ _ _ Hi').
    pose proof (sum_list_insert waits _ _ _ w' Hi) as H1.
    pose proof (sum_list_insert worker_rank _ _ _ w' Hi) as H2.
    right. destruct w, w'; simpl in *; try done; lia.
Qed.

(** With the stop event set, a step of the thread of [run] changes
    nothing or brings the end closer. *)
Lemma run_closer s :
  stop_event s = true → run_step os s = s ∨ closer os (run_step os s) s.
Proof.
  intros Hstop. unfold run_step, closer, waiting, distance.
  rewrite Hstop.
  destruct (runner s) as [| | |[|k]| |msg| |];
    repeat case_match; simpl;
    first [by left | right; right; split; [done|lia]].
Qed.

(** With the stop event set, every step changes nothing or brings the end
    closer. *)
Lemma step_closer a s :
  stop_event s = true →
  step os self a s = s ∨ closer os (step os self a s) s.
Proof.
  intros Hstop. destruct a as [i| |]; simpl.
  - destruct (workers s !! i) as [w|] eqn:Hi.
    + assert (w = Exited ∨ w ≠ Exited) as [->|Hw] by (destruct w; auto).
      * left. by apply worker_step_exited.
      * right. by eapply work_closer.
    + left. unfold worker_step. by rewrite Hi.
  - by apply run_closer.
  - left. by apply set_stop_id.
Qed.

Lemma not_all_exited s :
  all_exited s = false →
  ∃ i w, workers s !! i = Some w ∧ w ≠ Exited.
Proof.
  unfold all_exited. induction (workers s) as [|v ws IH]; [done|]. simpl.
  destruct v; simpl; try (by exists 0%nat; eexists).
  intros (i & w & Hi & Hw)%IH. by exists (S i), w.
Qed.

(** With the stop event set, some thread brings the end closer as long
    as the thread of [run] is not done. *)
Lemma some_step_closer s :
  stop_event s = true → runner s ≠ Done →
  ∃ a, (a = Run ∨ ∃ i, (i < length (workers s))%nat ∧ a = Work i) ∧
       closer os (step os self a s) s.
Proof.
  intros Hstop Hr. destruct (all_exited s) eqn:Hall.
  - exists Run. split; [by left|]. simpl. right.
    unfold waiting, distance. rewrite run_step_workers. split; [done|].
    pose proof (run_step_rank os s Hstop Hall Hr). lia.
  - destruct (not_all_exited s Hall) as (i & w & Hi & Hw).
    exists (Work i). split.
    + right. exists i. split; [by eapply lookup_lt_Some|done].
    + simpl. by eapply work_closer.
Qed.

Lemma run_to_S sched n s :
  run_to os self sched (S n) s =
  step os self (sched n) (run_to os self sched n s).
Proof.
  revert sched s. induction n as [|n IH]; intros sched s; [done|].
  change (run_to os self sched (S (S n)) s) with
    (run_to os self (sched ∘ S) (S n) (step os self (sched O) s)).
  by rewrite IH.
Qed.

Lemma run_to_add sched n m s :
  run_to os self sched (n + m) s =
  run_to os self (λ k, sched (n + k)%nat) m (run_to os self sched n s).
Proof.
  revert sched s. induction n as [|n IH]; intros sched s; [done|].
  simpl. by rewrite IH.
Qed.

(** The state after [n] steps of an endless schedule is the state after
    the schedule of its first [n] actions. *)
Lemma run_to_exec sched n s :
  run_to os self sched n s = exec os self (sched <$> seq 0 n) s.
Proof.
  revert sched s. induction n as [|n IH]; intros sched s; [done|].
  cbn [run_to]. rewrite IH, list_fmap_compose, fmap_S_seq. reflexivity.
Qed.

Lemma fair_shift pool sched n :
  fair pool sched → fair pool (λ k, sched (n + k)%nat).
Proof.
  intros Hfair a k Ha. destruct (Hfair a (n + k)%nat Ha) as (m & Hm & <-).
  exists (m - n)%nat. split; [lia|]. f_equal. lia.
Qed.

(** The first step of a schedule that brings the end closer, when its
    step [m] would. *)
Lemma first_closer m sched s :
  stop_event s = true →
  closer os (step os self (sched m) s) s →
  ∃ j, run_to os self sched j s = s ∧
       closer os (step os self (sched j) s) s.
Proof.
  intros Hstop. revert sched. induction m as [|m IH]; intros sched Hm.
  - by exists 0%nat.
  - destruct (step_closer (sched 0%nat) s Hstop) as [Hsame|Hcloser].
    + destruct (IH (sched ∘ S) Hm) as (j & Hj & Hc).
      exists (S j). simpl. by rewrite Hsame.
    + by exists 0%nat.
Qed.

(** Once the stop event is set, every fair schedule brings the thread of
    [run] to [Done]. *)
Lemma fair_cancelled_finishes sched s :
  stop_event s = true → fair (length (workers s)) sched →
  ∃ n, runner (run_to os self sched n s) = Done.
Proof.
  remember (waiting s) as w eqn:Hw. revert s sched Hw.
  induction w as [w IHw] using (well_founded_induction lt_wf).
  intros s sched Hw. remember (distance os s) as d eqn:Hd.
  revert s sched Hw Hd.
  induction d as [d IHd] using (well_founded_induction lt_wf).
  intros s sched -> -> Hstop Hfair.
  assert (runner s = Done ∨ runner s ≠ Done) as [Hr|Hr]
    by (destruct (runner s); auto).
  { by exists 0%nat. }
  destruct (some_step_closer s Hstop Hr) as (a & Ha & Hcloser).
  destruct (Hfair a 0%nat Ha) as (m & _ & <-).
  destruct (first_closer m sched s Hstop Hcloser) as (j & Hj & Hc).
  set (s1 := step os self (sched j) s) in *.
  assert (run_to os self sched (S j) s = s1) as Hs1
    by (by rewrite run_to_S, Hj).
  assert (stop_event s1 = true) as Hstop1 by by apply step_stop.
  assert (fair (length (workers s1)) (λ k, sched (S j + k)%nat)) as Hfair1.
  { subst s1. rewrite step_length. by apply fair_shift. }
  assert (∃ n, runner (run_to os self (λ k, sched (S j + k)%nat) n s1) = Done)
    as [n Hn].
  { destruct Hc as [Hlt|[Heq Hlt]].
    - by eapply (IHw _ Hlt).
    - by eapply (IHd _ Hlt). }
  exists (S j + n)%nat. by rewrite run_to_add, Hs1.
Qed.

Lemma round_robin_fair pool : fair pool (round_robin pool).
Proof.
  intros a n [->|(i & Hi & ->)]; unfold round_robin.
  - exists (pool + n * S pool)%nat. split; [lia|].
    rewrite Nat.Div0.mod_add, Nat.mod_small by lia.
    by rewrite Nat.eqb_refl.
  - exists (i + n * S pool)%nat. split; [lia|].
    rewrite Nat.Div0.mod_add, Nat.mod_small by lia.
    destruct (Nat.eqb_spec i pool); [lia|done].
Qed.

End Fairness.

(** C3, as the code has it. The events of a search are [found_file]
    events followed, once the thread of [run] is done, by one [finished]
    event, after which no step adds an event; [finished] carries no value:
    the receiver shows the number of [found_file] events it has counted
    itself; after a cancellation the threads can always be run until
    [finished] is emitted, and every schedule in which each thread moves
    again and again does so; and the uncancelled run of the search for
    "report" below [/tmp/a] ends with [finished] after its one match. *)
Theorem C3_event_stream :
  (∀ os self s,
     reachable os self s →
     stream s =
       (FoundFile <$> found_texts (stream s)) ++
       (match runner s with Done => [Finished] | _ => [] end)) ∧
  (∀ os self s sched,
     reachable os self s → runner s = Done →
     runner (exec os self sched s) = Done ∧
     stream (exec os self sched s) = stream s) ∧
  (∀ os self s,
     reachable os self s → runner s = Done →
     finished_with (receive (stream s)) =
       Some (length (found_texts (stream s)))) ∧
  (∀ os self s, ∃ sched, runner (exec os self (Cancel :: sched) s) = Done) ∧
  (∀ os self s sched,
     stop_event s = true → fair (length (workers s)) sched →
     ∃ n, runner (run_to os self sched n s) = Done) ∧
  (let os := Scenario.posix Scenario.tmp_a in
   stream (exec os Scenario.report_txt Scenario.natural_run
             (start os Scenario.report_txt)) =
     [FoundFile "/tmp/a/x/report.TXT"; Finished]).
Proof.
  split_and!.
  - apply stream_shape.
  - intros os self s sched Hs Hr.
    destruct (run_inv_reachable _ _ _ Hs) as (_ & _ & Hall & _).
    rewrite Hr in Hall.
    destruct (done_exec os self sched s Hr Hall) as (? & _ & Hsig).
    split; [done|]. unfold stream. by rewrite Hsig.
  - intros os self s Hs Hr. rewrite (stream_shape _ _ _ Hs) at 1.
    rewrite Hr, receive_finished. by rewrite found_texts_fmap.
  - apply cancelled_finishes.
  - intros os self s sched. apply fair_cancelled_finishes.
  - by vm_compute.
Qed.

Lemma C3_witness :
  let os := Scenario.posix Scenario.tmp_a in
  let self := Scenario.report_txt in
  let s := exec os self Scenario.natural_run (start os self) in
  runner s = Done ∧
  finished_with (receive (stream s)) = Some (length (found_texts (stream s))).
Proof.
  intros os self s. split; [reflexivity|].
  apply (proj1 (proj2 (proj2 C3_event_stream)) os self s).
  - by exists Scenario.natural_run.
  - reflexivity.
Defined.

(** C3, as the specification has it, fails: no value carried by the
    terminal event can be the number of matches, since a search with one
    match and a search with none end with the same event. *)
Lemma C3_finished_carries_no_count :
  ¬ ∃ carried : event → nat,
      ∀ os self s ev,
        reachable os self s → runner s = Done →
        last (stream s) = Some ev →
        carried ev = length (found_texts (stream s)).
Proof.
  intros [carried H].
  pose proof (H (Scenario.posix Scenario.tmp_a) Scenario.report_txt
                (exec _ _ Scenario.natural_run (start _ _)) Finished
                (ex_intro _ Scenario.natural_run eq_refl) eq_refl eq_refl) as H1.
  pose proof (H (Scenario.posix Scenario.nothing) Scenario.missing_search
                (exec _ _ Scenario.missing_run (start _ _)) Finished
                (ex_intro _ Scenario.missing_run eq_refl) eq_refl eq_refl) as H0.
  vm_compute in H1, H0. congruence.
Qed.

(** Without a cancellation a search may never finish: when a worker meets
    a faulty entry after the sentinels were put, [task_done] has been
    called once too often, the call for the sentinel raises, the worker
    stays in its loop, and the thread of [run] waits for it for ever. *)
Lemma stuck_step a s :
  a ≠ Cancel → Scenario.stuck s →
  Scenario.stuck
    (step (Scenario.posix Scenario.faulty) Scenario.faulty_search a s).
Proof.
  intros Ha (Hstop & Hq & Hr & Hw). unfold Scenario.stuck.
  destruct a as [[|[|i]]| |]; simpl; [| | | |done].
  - destruct Hw as [Hw|Hw]; unfold worker_step; rewrite Hw; simpl;
      rewrite ?Hstop, ?Hq; simpl; rewrite ?Hw; simpl; auto.
  - destruct Hw as [Hw|Hw]; unfold worker_step; rewrite Hw; simpl; auto.
  - destruct Hw as [Hw|Hw]; unfold worker_step; rewrite Hw; simpl; auto.
  - unfold run_step. rewrite Hr.
    destruct Hw as [Hw|Hw]; unfold all_exited; rewrite Hw; simpl; auto.
Qed.

Example hang_without_cancel :
  let os := Scenario.posix Scenario.faulty in
  let self := Scenario.faulty_search in
  let s := exec os self Scenario.faulty_run (start os self) in
  reachable os self s ∧
  ∀ sched, Scenario.uncancelled sched → runner (exec os self sched s) ≠ Done.
Proof.
  intros os self s. split; [by exists Scenario.faulty_run|].
  assert (Scenario.stuck s) as Hs.
  { split_and!; [reflexivity..|]. by left. }
  intros sched Hsched.
  assert (Scenario.stuck (exec os self sched s)) as (_ & _ & Hr & _).
  { induction sched as [|a sched IH] using rev_ind; [done|].
    apply Forall_app in Hsched as [Hsched [Ha _]%Forall_cons].
    rewrite exec_snoc. apply stuck_step; auto. }
  by rewrite Hr.
Qed.

(** A cancelled search under the round-robin schedule: the search for
    "report" below [/tmp/a], cancelled before any thread has moved. *)
Example cancelled_round_robin :
  let os := Scenario.posix Scenario.tmp_a in
  let self := Scenario.report_txt in
  ∃ n, runner (run_to os self (round_robin 2) n
                 (exec os self [Cancel] (start os self))) = Done.
Proof.
  intros os self. apply fair_cancelled_finishes; [done|].
  apply round_robin_fair.
Qed.

(** ** Failures *)

Section Barren.
Context (os : OS) (self : FileSearchThread).
Hypothesis Hroots : no_valid_root os self.

Lemma barren_inv_start : barren_inv self (start os self).
Proof.
  split_and!; simpl.
  - by intros i d rest [? _]%lookup_replicate.
  - intros x (r & -> & Hr)%list_elem_of_fmap. eauto.
  - constructor.
Qed.

Lemma barren_inv_set_worker i w s s' :
  barren_inv self s →
  (∀ d rest, w ≠ Scanning d rest) →
  workers s' = workers s → dir_queue s' ⊆ dir_queue s →
  signals s' = signals s →
  barren_inv self (set_worker i w s').
Proof.
  intros (Hw & Hq & Hs) Hnew Ew Eq Es. split_and!; simpl.
  - intros j d rest [(_ & ? & _)|[_ Hj]]%list_lookup_insert_Some.
    + by eapply Hnew.
    + rewrite Ew in Hj. by eapply Hw.
  - intros x Hx. by apply Hq, Eq.
  - by rewrite Es.
Qed.

Lemma barren_inv_worker_step i s :
  barren_inv self s → barren_inv self (worker_step os self i s).
Proof.
  intros Hinv. pose proof Hinv as (Hw & Hq & Hs).
  destruct (worker_step_move os self i s) as
    [ | | | q s' ? Hqs Ht | q ? Hqs | d q es ? Hqs Hd | d q x ? Hqs | d Hi
    | d e es p Hi | d e es p Hi | d e es Hi | d e es x Hi ];
    try (by destruct (Hw _ _ _ Hi)).
  - done.
  - apply (barren_inv_set_worker _ _ s); try done. by destruct (stop_event s).
  - by apply (barren_inv_set_worker _ _ s).
  - apply (barren_inv_set_worker _ _ s); frame; try done.
    replace (dir_queue s') with q by congruence. rewrite Hqs. set_solver.
  - apply (barren_inv_set_worker _ _ s); frame; try done.
    rewrite Hqs. set_solver.
  - destruct (Hq (Some d)) as [?|(r & [= <-] & Hr)];
      [rewrite Hqs; by left|done|].
    destruct (Hroots _ Hr) as [x Hx]. congruence.
  - apply (barren_inv_set_worker _ _ s); frame; try done.
    rewrite Hqs. set_solver.
Qed.

Lemma barren_inv_run_step s :
  barren_inv self s → barren_inv self (run_step os s).
Proof.
  intros (Hw & Hq & Hs). unfold run_step.
  destruct (runner s) as [| | |[|k]| | | |]; try done;
    repeat case_match; try done; split_and!; frame; try done.
  - intros x [?|[= ->]%list_elem_of_singleton]%elem_of_app; auto.
  - apply Forall_app. split; [done|]. by constructor.
  - apply Forall_app. split; [done|]. by constructor.
Qed.

Lemma barren_inv_reachable s : reachable os self s → barren_inv self s.
Proof.
  apply reachable_ind; [apply barren_inv_start|].
  intros [i| |] s' _ Hinv; simpl.
  - by apply barren_inv_worker_step.
  - by apply barren_inv_run_step.
  - done.
Qed.

End Barren.


(** ** The extensions field *)

Section Extensions.
Import Str StrFacts.

Lemma ext_parts_empty : ext_parts "" = [].
Proof. reflexivity. Qed.

(** The invalid tokens are the stripped, non-blank pieces of the field
    that are not alphanumeric once their leading dots are gone. *)
Lemma invalid_parts_spec text p :
  p ∈ invalid_parts (ext_parts text) ↔
  ∃ piece, piece ∈ split "," text ∧ truthy (strip piece) = true ∧
           p = lstrip_char "." (strip piece) ∧ fullmatch_alnum p = false.
Proof.
  unfold invalid_parts, ext_parts.
  rewrite list_elem_of_filter, list_elem_of_fmap. split.
  - intros [Hp (piece & -> & Hin)]. apply list_elem_of_filter in Hin as [Ht Hin].
    exists piece. split_and!; [done| |done|].
    + by apply Is_true_true.
    + apply Is_true_true in Hp. by apply negb_true_iff in Hp.
  - intros (piece & Hin & Ht & -> & Hp). split.
    + apply Is_true_true. by apply negb_true_iff.
    + exists piece. split; [done|]. apply list_elem_of_filter. split; [|done].
      by apply Is_true_true.
Qed.

Lemma parse_extensions_invalid text :
  invalid_parts (ext_parts text) ≠ [] →
  parse_extensions text =
    Raises (invalid_message (invalid_parts (ext_parts text))).
Proof.
  intros Hinv. unfold parse_extensions.
  destruct text as [|c text]; [done|]. simpl negb. cbv iota.
  destruct (ext_parts (String c text)) as [|p parts] eqn:Hparts; [done|].
  by destruct (invalid_parts (p :: parts)).
Qed.

Lemma parse_extensions_valid text :
  invalid_parts (ext_parts text) = [] →
  parse_extensions text =
    Returns (if truthy text
             then match ext_parts text with [] => None | l => Some l end
             else None).
Proof.
  intros Hinv. unfold parse_extensions.
  destruct text as [|c text]; [done|]. simpl negb. cbv iota. simpl truthy.
  cbv iota.
  destruct (ext_parts (String c text)) as [|p parts] eqn:Hparts; [done|].
  by rewrite Hinv.
Qed.

(** The message names every invalid token. *)
Lemma invalid_message_names invalid p :
  p ∈ invalid → contains p (invalid_message invalid) = true.
Proof.
  intros Hp. unfold invalid_message.
  apply contains_app_r, contains_app_l. by apply contains_join.
Qed.

End Extensions.




(** ** The extension of a file name *)

Section Splitext.
Import Str StrFacts OsPath.

Lemma rfind_lower_bound c s : -1 <= rfind c s.
Proof.
  induction s as [|a s IH]; simpl; [lia|].
  destruct (Z.leb_spec 0 (rfind c s)); [lia|]. destruct (Ascii.eqb a c); lia.
Qed.

Lemma rfind_absent c s : ¬ has_char c s → rfind c s = -1.
Proof.
  induction s as [|a s IH]; [done|]. rewrite has_char_cons. intros H.
  simpl. rewrite IH by tauto. simpl.
  destruct (Ascii.eqb_spec a c) as [->|]; [|done]. by destruct H; left.
Qed.

(** The highest index of [c] is that of an occurrence followed by none. *)
Lemma rfind_last c stem suf :
  ¬ has_char c suf →
  rfind c (stem +:+ String c suf) = Z.of_nat (String.length stem).
Proof.
  intros Hsuf. induction stem as [|a stem IH].
  - rewrite app_nil_l. simpl. rewrite rfind_absent by done. simpl.
    by rewrite Ascii.eqb_refl.
  - rewrite app_cons. cbn [rfind String.length]. rewrite IH.
    destruct (Z.leb_spec 0 (Z.of_nat (String.length stem))); lia.
Qed.

Lemma str_take_app_length s t : take (String.length s) (s +:+ t) = s.
Proof.
  induction s as [|a s IH]; [by destruct t|].
  rewrite app_cons. simpl. by rewrite IH.
Qed.

Lemma str_drop_app_length s t : drop (String.length s) (s +:+ t) = t.
Proof. induction s as [|a s IH]; [done|]. by rewrite app_cons. Qed.

Lemma at_index_app pre a rest :
  at_index (String.length pre) (pre +:+ String a rest) = String a "".
Proof. unfold at_index. rewrite str_drop_app_length. by destruct rest. Qed.

(** The loop of [_splitext] over the characters [rest] that follow [pre]
    and precede the last dot: it splits as soon as one of them is not a
    dot. *)
Lemma skip_leading_dots_spec pre rest tail :
  let p := pre +:+ rest +:+ String "." tail in
  let dotIndex := Z.of_nat (String.length pre + String.length rest) in
  skip_leading_dots p dotIndex (String.length rest)
    (Z.of_nat (String.length pre)) =
  if all_dots rest then None
  else Some (take (Z.to_nat dotIndex) p, drop (Z.to_nat dotIndex) p).
Proof.
  revert pre. induction rest as [|a rest IH]; intros pre p dotIndex; [done|].
  cbn [String.length skip_leading_dots all_dots].
  destruct (Z.ltb_spec (Z.of_nat (String.length pre)) dotIndex) as [_|Hge];
    [|subst dotIndex; simpl in Hge; lia].
  rewrite Nat2Z.id. subst p. rewrite app_cons, at_index_app.
  simpl String.eqb. unfold extsep.
  destruct (Ascii.eqb_spec a ".") as [->|Hne].
  - simpl negb. cbv iota. simpl andb.
    specialize (IH (pre +:+ String "." "")).
    rewrite !app_assoc, !length_app in IH. simpl in IH.
    replace (Z.of_nat (String.length pre + 1)) with
      (Z.of_nat (String.length pre) + 1) in IH by lia.
    subst dotIndex. simpl String.length.
    replace (String.length pre + S (String.length rest))%nat with
      (String.length pre + 1 + String.length rest)%nat by lia.
    apply IH.
  - simpl andb. cbv iota.
    destruct (Ascii.eqb_spec a ".") as [?|_]; [done|]. reflexivity.
Qed.

(** [splitext] on a name without separators that ends with a dot and a
    suffix without dot. *)
Lemma splitext_last_suffix f stem suf :
  let p := stem +:+ String "." suf in
  ¬ has_char "." suf →
  ¬ has_char (sep f) p →
  (∀ a, altsep f = Some a → ¬ has_char a p) →
  splitext f p = if all_dots stem then (p, "") else (stem, String "." suf).
Proof.
  intros p Hsuf Hsep Halt. unfold splitext, _splitext, extsep.
  rewrite (rfind_absent (sep f)) by done.
  replace (match altsep f with
           | Some a => Z.max (-1) (rfind a p)
           | None => -1
           end) with (-1).
  2:{ destruct (altsep f) as [a|] eqn:Ha; [|done].
      rewrite (rfind_absent a); [done|by apply Halt]. }
  subst p. rewrite rfind_last by done.
  destruct (Z.ltb_spec (-1) (Z.of_nat (String.length stem))); [|lia].
  replace (Z.to_nat (Z.of_nat (String.length stem) - (-1 + 1))) with
    (String.length stem) by lia.
  pose proof (skip_leading_dots_spec "" stem suf) as H1.
  cbv zeta in H1. cbn [String.length Nat.add] in H1.
  rewrite !app_nil_l in H1. change (Z.of_nat 0) with 0 in H1.
  change (-1 + 1) with 0. rewrite H1.
  destruct (all_dots stem); [done|].
  by rewrite Nat2Z.id, str_take_app_length, str_drop_app_length.
Qed.

Lemma splitext_no_dot f p : ¬ has_char "." p → splitext f p = (p, "").
Proof.
  intros Hp. unfold splitext, _splitext, extsep.
  rewrite (rfind_absent "." p) by done.
  pose proof (rfind_lower_bound (sep f) p).
  destruct (altsep f) as [a|]; [pose proof (rfind_lower_bound a p)|];
    match goal with
    | |- context [?x <? -1] => destruct (Z.ltb_spec x (-1)); [lia|done]
    end.
Qed.

End Splitext.

Section Extension.
Import Str StrFacts OsPath.

Lemma ext_of_last_suffix os e stem suf :
  name e = stem +:+ String "." suf →
  ¬ has_char "." suf →
  ¬ has_char (sep (path_mod os)) (name e) →
  (∀ a, altsep (path_mod os) = Some a → ¬ has_char a (name e)) →
  ext_of os e = if all_dots stem then "" else lower suf.
Proof.
  intros Hname Hsuf Hsep Halt. unfold ext_of. rewrite Hname in *.
  rewrite splitext_last_suffix by done.
  destruct (all_dots stem); [done|]. cbn [snd lower].
  change (lower_char ".") with "."%char. cbn [lstrip_char].
  rewrite Ascii.eqb_refl. apply lstrip_char_id.
  by rewrite has_char_lower_dot.
Qed.

Lemma ext_of_no_dot os e : ¬ has_char "." (name e) → ext_of os e = "".
Proof. intros He. unfold ext_of. by rewrite splitext_no_dot. Qed.

Lemma alnum_not_space_nor_dot c :
  is_alnum c = true → is_space c = false ∧ Ascii.eqb c "." = false.
Proof. by destruct c as [[] [] [] [] [] [] [] []]. Qed.

(** An alphanumeric token is kept by [__init__] and its normal form is
    not empty. *)
Lemma alnum_normalize p :
  fullmatch_alnum p = true →
  truthy p && truthy (strip p) = true ∧ normalize_ext p ≠ "".
Proof.
  unfold fullmatch_alnum, all_alnum, normalize_ext, strip.
  destruct p as [|c p]; [done|].
  cbn [truthy list_ascii_of_string forallb andb].
  intros [Hc _]%andb_true_iff.
  destruct (alnum_not_space_nor_dot c Hc) as [Hs Hd].
  cbn [lstrip]. rewrite Hs. cbn [rstrip]. rewrite Hs.
  cbn [andb truthy lstrip_char]. by rewrite Hd.
Qed.

Lemma invalid_parts_nil parts :
  invalid_parts parts = [] → Forall (λ p, fullmatch_alnum p = true) parts.
Proof.
  unfold invalid_parts. induction parts as [|p parts IH]; [done|].
  destruct (fullmatch_alnum p) eqn:Hp.
  - rewrite filter_cons_False by (rewrite Hp; simpl; auto). auto.
  - by rewrite filter_cons_True by (by rewrite Hp).
Qed.

(** A filter that [parse_extensions] lets through is stored non-empty and
    without the empty extension. *)
Lemma validated_filter text parts sp fn cs X :
  parse_extensions text = Returns (Some parts) →
  allowed_exts (init sp fn cs (Some parts)) = Some X →
  X ≠ ∅ ∧ "" ∉ X.
Proof.
  unfold parse_extensions.
  destruct (truthy text); simpl; [|done].
  destruct (ext_parts text) as [|p0 l] eqn:Hparts; [done|].
  destruct (invalid_parts (p0 :: l)) eqn:Hinv; [|done].
  intros [= <-]. apply invalid_parts_nil in Hinv.
  simpl. intros [= <-]. split.
  - apply (non_empty_inhabited_L (normalize_ext p0)).
    apply elem_of_list_to_set, list_elem_of_fmap. exists p0. split; [done|].
    apply list_elem_of_filter. split; [|by left].
    apply Forall_cons in Hinv as [Hp0 _].
    apply Is_true_true. by apply alnum_normalize.
  - intros (p & Hp & Hin)%elem_of_list_to_set%list_elem_of_fmap.
    apply list_elem_of_filter in Hin as [_ Hin].
    rewrite Forall_forall in Hinv.
    by destruct (alnum_normalize p (Hinv p Hin)) as [_ ?].
Qed.

End Extension.

(** C10, as the code has it. For a name without path separator that ends
    with a dot and a suffix without dot, the extension compared with the
    filter is that suffix in lower case, unless nothing but dots precedes
    the last dot, in which case it is empty; a name without dot has the
    empty extension and is not emitted under a filter that is not empty
    and does not hold the empty extension, as is every filter that
    [parse_extensions] lets through. [archive.tar.gz] has extension "gz"
    and is passed over under the filter {"tar"}. *)
Theorem C10_extension_of_name :
  (∀ os e stem suf,
     name e = stem +:+ String "." suf →
     ¬ Str.has_char "." suf →
     ¬ Str.has_char (OsPath.sep (path_mod os)) (name e) →
     (∀ a, OsPath.altsep (path_mod os) = Some a → ¬ Str.has_char a (name e)) →
     ext_of os e = if Str.all_dots stem then "" else Str.lower suf) ∧
  (∀ os e, ¬ Str.has_char "." (name e) → ext_of os e = "") ∧
  (∀ os self e X p,
     allowed_exts self = Some X → X ≠ ∅ → "" ∉ X →
     ¬ Str.has_char "." (name e) →
     scan_entry os self e ≠ Emit p) ∧
  (∀ text parts sp fn cs X,
     parse_extensions text = Returns (Some parts) →
     allowed_exts (init sp fn cs (Some parts)) = Some X →
     X ≠ ∅ ∧ "" ∉ X) ∧
  (∀ ls,
     let os := Scenario.posix ls in
     let e := Scenario.file "/a" "archive.tar.gz" in
     ext_of os e = "gz" ∧
     scan_entry os (init (OnePath "/a") "archive" false (Some ["tar"])) e
       = Next).
Proof.
  split_and!.
  - apply ext_of_last_suffix.
  - apply ext_of_no_dot.
  - intros os self e X p HX Hne Hempty Hdot Hemit.
    destruct (scan_entry_Emit _ _ _ _ Hemit) as (_ & _ & _ & _ & Hf).
    unfold filter_active, ext_allowed in Hf. rewrite HX in Hf.
    rewrite !bool_decide_eq_true in Hf. rewrite ext_of_no_dot in Hf by done.
    by apply Hempty, Hf.
  - apply validated_filter.
  - intros ls os e. split; by vm_compute.
Qed.

Lemma C10_witness :
  let os := Scenario.posix Scenario.tmp_a in
  let e := Scenario.file "/a" "archive.TAR.GZ" in
  ext_of os e = "gz".
Proof.
  intros os e.
  apply (proj1 C10_extension_of_name os e "archive.TAR" "GZ").
  - reflexivity.
  - unfold Str.has_char. intros H%list_elem_of_In. simpl in H.
    intuition discriminate.
  - unfold Str.has_char. intros H%list_elem_of_In. simpl in H.
    intuition discriminate.
  - intros a [=].
Defined.

(** C10, as the specification has it, fails on a name that begins with
    its only dot: the extension of [.txt] is empty, not "txt", and the file
    is passed over under the filter {"txt"}. *)
Lemma C10_dotfile_has_no_extension :
  (¬ ∀ os e stem suf,
       name e = stem +:+ String "." suf → ¬ Str.has_char "." suf →
       ext_of os e = Str.lower suf) ∧
  (∀ ls,
     let os := Scenario.posix ls in
     let e := Scenario.file "/a" ".txt" in
     ext_of os e = "" ∧
     scan_entry os (init (OnePath "/a") "txt" false (Some ["txt"])) e = Next).
Proof.
  split.
  - intros H.
    specialize (H (Scenario.posix Scenario.nothing)
                  (Scenario.file "/a" ".txt") "" "txt" eq_refl).
    assert (¬ Str.has_char "." "txt") as Hno
      by (unfold Str.has_char; intros H0%list_elem_of_In; simpl in H0;
          intuition discriminate).
    specialize (H Hno). by vm_compute in H.
  - intros ls os e. split; by vm_compute.
Qed.

(** * Further properties of the code *)

(** ** The extensions field, from the text to the stored filter *)

Section Tokens.
Import Str StrFacts.

Lemma has_char_lstrip a s : has_char a (lstrip s) → has_char a s.
Proof.
  induction s as [|c s IH]; [done|]. cbn [lstrip].
  destruct (is_space c); [|done].
  intros H%IH. apply has_char_cons. by right.
Qed.

Lemma has_char_rstrip a s : has_char a (rstrip s) → has_char a s.
Proof.
  induction s as [|c s IH]; [done|]. cbn [rstrip].
  destruct (is_space c && negb (truthy (rstrip s))).
  - by intros ?%has_char_nil.
  - intros [->|H]%has_char_cons; apply has_char_cons; auto.
Qed.

Lemma has_char_strip a s : has_char a (strip s) → has_char a s.
Proof. by intros ?%has_char_rstrip%has_char_lstrip. Qed.

Lemma has_char_lstrip_char a c s : has_char a (lstrip_char c s) → has_char a s.
Proof.
  induction s as [|b s IH]; [done|]. cbn [lstrip_char].
  destruct (Ascii.eqb b c); [|done].
  intros H%IH. apply has_char_cons. by right.
Qed.

(** The pieces of [s.split(c)] are made of characters of [s] other than
    [c]. *)
Lemma has_char_split a c s p :
  p ∈ split c s → has_char a p → has_char a s ∧ a ≠ c.
Proof.
  revert p. induction s as [|b s IH]; intros p.
  - cbn [split]. intros ->%list_elem_of_singleton. by intros ?%has_char_nil.
  - cbn [split]. destruct (Ascii.eqb_spec b c) as [->|Hbc].
    + intros [->|Hp]%elem_of_cons; [by intros ?%has_char_nil|].
      intros Ha. destruct (IH p Hp Ha). split; [|done].
      apply has_char_cons. by right.
    + destruct (split c s) as [|w ws] eqn:Hs.
      * intros ->%list_elem_of_singleton.
        intros [->|?%has_char_nil]%has_char_cons; [|done].
        split; [|done]. apply has_char_cons. by left.
      * intros [->|Hp]%elem_of_cons.
        -- intros [->|Ha]%has_char_cons.
           ++ split; [|done]. apply has_char_cons. by left.
           ++ destruct (IH w) as [? ?]; [by left|done|].
              split; [|done]. apply has_char_cons. by right.
        -- intros Ha. destruct (IH p) as [? ?]; [by right|done|].
           split; [|done]. apply has_char_cons. by right.
Qed.

Lemma lstrip_all_space s :
  (∀ a, has_char a s → is_space a = true) → lstrip s = "".
Proof.
  induction s as [|c s IH]; [done|]. intros H. cbn [lstrip].
  rewrite (H c) by (apply has_char_cons; by left).
  apply IH. intros a Ha. apply H, has_char_cons. by right.
Qed.

Lemma strip_all_space s :
  (∀ a, has_char a s → is_space a = true) → strip s = "".
Proof. intros H. unfold strip. by rewrite lstrip_all_space. Qed.

Lemma rstrip_no_space s :
  (∀ a, has_char a s → is_space a = false) → rstrip s = s.
Proof.
  induction s as [|c s IH]; [done|]. intros H. cbn [rstrip].
  rewrite (H c) by (apply has_char_cons; by left). cbn [andb].
  rewrite IH; [done|]. intros a Ha. apply H, has_char_cons. by right.
Qed.

Lemma strip_no_space s :
  (∀ a, has_char a s → is_space a = false) → strip s = s.
Proof.
  intros H. unfold strip.
  assert (lstrip s = s) as ->; [|by apply rstrip_no_space].
  destruct s as [|c s]; [done|]. cbn [lstrip].
  by rewrite (H c) by (apply has_char_cons; by left).
Qed.

Lemma all_alnum_spec s :
  all_alnum s = true ↔ ∀ a, has_char a s → is_alnum a = true.
Proof.
  unfold all_alnum, has_char. rewrite forallb_forall.
  split; intros H a Ha; apply H; by apply list_elem_of_In.
Qed.

(** An alphanumeric token is its own stripped form. *)
Lemma alnum_clean p :
  all_alnum p = true → strip p = p ∧ lstrip_char "." p = p.
Proof.
  intros H. split.
  - apply strip_no_space. intros a Ha.
    by destruct (alnum_not_space_nor_dot a (proj1 (all_alnum_spec p) H a Ha)).
  - apply lstrip_char_id. intros Hdot.
    by destruct (alnum_not_space_nor_dot _ (proj1 (all_alnum_spec p) H _ Hdot)).
Qed.

Lemma alnum_no_comma p : all_alnum p = true → ¬ has_char "," p.
Proof. intros H Hc. by pose proof (proj1 (all_alnum_spec p) H _ Hc). Qed.

Lemma split_no_sep c w : ¬ has_char c w → split c w = [w].
Proof.
  induction w as [|a w IH]; [done|]. intros H. cbn [split].
  destruct (Ascii.eqb_spec a c) as [->|Hac].
  - destruct H. apply has_char_cons. by left.
  - rewrite IH; [done|]. intros Hc. apply H, has_char_cons. by right.
Qed.

Lemma split_app_sep c w rest :
  ¬ has_char c w → split c (w +:+ String c rest) = w :: split c rest.
Proof.
  induction w as [|a w IH]; intros H.
  - rewrite app_nil_l. cbn [split]. by rewrite Ascii.eqb_refl.
  - rewrite app_cons. cbn [split].
    destruct (Ascii.eqb_spec a c) as [->|Hac].
    + destruct H. apply has_char_cons. by left.
    + rewrite IH; [done|]. intros Hc. apply H, has_char_cons. by right.
Qed.

(** Splitting undoes joining when no item holds the separator. *)
Lemma split_join c l :
  l ≠ [] → Forall (λ w, ¬ has_char c w) l →
  split c (join (String c "") l) = l.
Proof.
  induction l as [|w l IH]; [done|]. intros _ [Hw Hl]%Forall_cons.
  destruct l as [|w2 l]; [by apply split_no_sep|].
  change (join (String c "") (w :: w2 :: l))
    with (w +:+ String c "" +:+ join (String c "") (w2 :: l)).
  rewrite (app_cons c ""), app_nil_l.
  rewrite split_app_sep by done. by rewrite IH.
Qed.

Lemma join_nonempty sep w l : w ≠ "" → join sep (w :: l) ≠ "".
Proof.
  destruct w as [|a w]; [done|]. intros _. destruct l; [done|].
  change (join sep (String a w :: s :: l))
    with (String a w +:+ sep +:+ join sep (s :: l)).
  by rewrite app_cons.
Qed.

Lemma fullmatch_alnum_spec p :
  fullmatch_alnum p = true ↔ p ≠ "" ∧ all_alnum p = true.
Proof.
  unfold fullmatch_alnum. rewrite andb_true_iff, truthy_true. done.
Qed.

(** The tokens [parse_extensions] finds in a text that is joined from
    alphanumeric tokens are those tokens. *)
Lemma ext_parts_join parts :
  parts ≠ [] → Forall (λ p, fullmatch_alnum p = true) parts →
  ext_parts (join "," parts) = parts.
Proof.
  intros Hne Hall. unfold ext_parts.
  rewrite split_join; [|done|].
  2:{ eapply Forall_impl; [done|]. intros p [_ Hp]%fullmatch_alnum_spec.
      by apply alnum_no_comma. }
  clear Hne. induction Hall as [|p l Hp _ IH]; [done|].
  apply fullmatch_alnum_spec in Hp as [Hp1 Hp2].
  destruct (alnum_clean p Hp2) as [Hs Hd].
  rewrite filter_cons_True.
  2:{ rewrite Hs. apply Is_true_true. by apply truthy_true. }
  rewrite fmap_cons, Hs, Hd. by f_equal.
Qed.

Lemma invalid_parts_Forall parts :
  Forall (λ p, fullmatch_alnum p = true) parts → invalid_parts parts = [].
Proof.
  unfold invalid_parts. induction 1 as [|p l Hp _ IH]; [done|].
  rewrite filter_cons_False; [done|]. rewrite Hp. simpl. auto.
Qed.

(** What [parse_extensions] returns when it returns a list. *)
Lemma parse_extensions_Some text parts :
  parse_extensions text = Returns (Some parts) ↔
  text ≠ "" ∧ parts = ext_parts text ∧ parts ≠ [] ∧
  Forall (λ p, fullmatch_alnum p = true) parts.
Proof.
  unfold parse_extensions. split.
  - destruct (truthy text) eqn:Ht; simpl; [|done].
    apply truthy_true in Ht.
    destruct (ext_parts text) as [|p0 l] eqn:Hparts; [done|].
    destruct (invalid_parts (p0 :: l)) eqn:Hinv; [|done].
    intros [= <-]. by apply invalid_parts_nil in Hinv.
  - intros (Ht & -> & Hne & Hall).
    apply truthy_true in Ht. rewrite Ht. simpl.
    destruct (ext_parts text) as [|p0 l]; [done|].
    by rewrite invalid_parts_Forall.
Qed.

(** What [parse_extensions] returns when it returns [None]. *)
Lemma parse_extensions_None text :
  parse_extensions text = Returns None ↔ ext_parts text = [].
Proof.
  unfold parse_extensions. destruct (truthy text) eqn:Ht; simpl.
  - destruct (ext_parts text) as [|p0 l]; [done|].
    by destruct (invalid_parts (p0 :: l)).
  - apply truthy_false in Ht as ->. by rewrite ext_parts_empty.
Qed.

Lemma normalize_ext_alnum p :
  fullmatch_alnum p = true → normalize_ext p = lower p.
Proof.
  intros [_ Hp]%fullmatch_alnum_spec. unfold normalize_ext.
  destruct (alnum_clean p Hp) as [-> ->]. done.
Qed.

Lemma lower_nil s : lower s = "" ↔ s = "".
Proof. by destruct s. Qed.

Lemma lstrip_idemp s : lstrip (lstrip s) = lstrip s.
Proof.
  induction s as [|c s IH]; [done|]. cbn [lstrip].
  destruct (is_space c) eqn:Hc; [done|]. cbn [lstrip]. by rewrite Hc.
Qed.

Lemma rstrip_idemp s : rstrip (rstrip s) = rstrip s.
Proof.
  induction s as [|c s IH]; [done|]. cbn [rstrip].
  destruct (is_space c && negb (truthy (rstrip s))) eqn:Hc; [done|].
  cbn [rstrip]. by rewrite IH, Hc.
Qed.

(** Stripping on the right keeps a first character that is no white
    space. *)
Lemma lstrip_rstrip s : lstrip (rstrip (lstrip s)) = rstrip (lstrip s).
Proof.
  induction s as [|c s IH]; [done|]. cbn [lstrip].
  destruct (is_space c) eqn:Hc; [done|].
  cbn [rstrip]. rewrite Hc. cbn [andb lstrip]. by rewrite Hc.
Qed.

Lemma strip_idemp s : strip (strip s) = strip s.
Proof. unfold strip. by rewrite lstrip_rstrip, rstrip_idemp. Qed.

End Tokens.

Lemma filter_none {A} (P : A → Prop) `{!∀ x, Decision (P x)} (l : list A) :
  (∀ x, x ∈ l → ¬ P x) → filter P l = [].
Proof.
  induction l as [|x l IH]; [done|]. intros Hl.
  rewrite filter_cons_False by (apply Hl; by left).
  apply IH. intros y Hy. apply Hl. by right.
Qed.

Lemma filter_all {A} (P : A → Prop) `{!∀ x, Decision (P x)} (l : list A) :
  (∀ x, x ∈ l → P x) → filter P l = l.
Proof.
  induction l as [|x l IH]; [done|]. intros Hl.
  rewrite filter_cons_True by (apply Hl; by left).
  f_equal. apply IH. intros y Hy. apply Hl. by right.
Qed.

(** X1. A list that [parse_extensions] returns is not empty; each of its
    tokens is not empty, consists of letters and digits only, and is a
    piece of the text between commas, stripped of white space and of its
    leading dots. *)
Theorem parse_extensions_returns_tokens text parts :
  parse_extensions text = Returns (Some parts) →
  parts ≠ [] ∧
  ∀ p, p ∈ parts →
    p ≠ "" ∧
    (∀ c, Str.has_char c p → Str.is_alnum c = true) ∧
    ∃ piece, piece ∈ Str.split "," text ∧
             p = Str.lstrip_char "." (Str.strip piece).
Proof.
  intros (_ & -> & Hne & Hall)%parse_extensions_Some. split; [done|].
  intros p Hp. rewrite Forall_forall in Hall.
  destruct (proj1 (fullmatch_alnum_spec p) (Hall p Hp)) as [Hp1 Hp2].
  split_and!; [done|by apply all_alnum_spec|].
  unfold ext_parts in Hp. apply list_elem_of_fmap in Hp as (piece & -> & Hin).
  apply list_elem_of_filter in Hin as [_ Hin]. by exists piece.
Qed.

Lemma parse_extensions_returns_tokens_witness :
  ["py"; "TXT"] ≠ [] ∧
  ∀ p, p ∈ ["py"; "TXT"] →
    p ≠ "" ∧
    (∀ c, Str.has_char c p → Str.is_alnum c = true) ∧
    ∃ piece, piece ∈ Str.split "," " py, ..TXT ,," ∧
             p = Str.lstrip_char "." (Str.strip piece).
Proof.
  apply (parse_extensions_returns_tokens " py, ..TXT ,," ["py"; "TXT"]).
  reflexivity.
Defined.

(** X2. The tokens [parse_extensions] returns, joined with commas, are a text
    for which it returns the same tokens. *)
Theorem parse_extensions_join text parts :
  parse_extensions text = Returns (Some parts) →
  parse_extensions (Str.join "," parts) = Returns (Some parts).
Proof.
  intros (_ & Hparts & Hne & Hall)%parse_extensions_Some.
  apply parse_extensions_Some. split_and!; [|by rewrite ext_parts_join|done..].
  destruct parts as [|p0 l]; [done|]. apply join_nonempty.
  apply Forall_cons in Hall as [Hp0 _].
  by apply fullmatch_alnum_spec in Hp0 as [? _].
Qed.

Lemma parse_extensions_join_witness :
  parse_extensions (Str.join "," ["py"; "TXT"]) = Returns (Some ["py"; "TXT"]).
Proof.
  apply (parse_extensions_join " py, ..TXT ,," ["py"; "TXT"]). reflexivity.
Defined.

(** X3. A search whose extensions field holds nothing but white space and
    commas is started without an extension filter. *)
Theorem blank_extensions_no_filter os ui :
  Str.strip (search_input ui) ≠ "" →
  (∀ c, Str.has_char c (ext_input ui) → Str.is_space c = true ∨ c = ","%char) →
  ∃ t, start_search os ui = Started t ∧ allowed_exts t = None.
Proof.
  intros Hname Hblank. unfold start_search.
  apply StrFacts.truthy_true in Hname. rewrite Hname. cbn [negb].
  set (ext_text := Str.strip (ext_input ui)).
  assert ((if Str.truthy ext_text then parse_extensions ext_text
           else Returns None) = Returns None) as ->.
  { destruct (Str.truthy ext_text); [|done].
    apply parse_extensions_None. unfold ext_parts.
    rewrite filter_none; [done|]. intros piece Hpiece Htrue.
    apply Is_true_true, StrFacts.truthy_true in Htrue. apply Htrue.
    apply strip_all_space. intros a Ha.
    destruct (has_char_split a _ _ _ Hpiece Ha) as [Hin Hcomma].
    apply has_char_strip in Hin. by destruct (Hblank a Hin). }
  destruct (entire_pc_checkbox ui); by eexists.
Qed.

Lemma blank_extensions_no_filter_witness :
  ∃ t, start_search (Scenario.posix Scenario.tmp_a)
         {| search_input := "report"; ext_input := " , ,";
            entire_pc_checkbox := false; path_input := "/tmp/a";
            case_sensitive_checkbox := false |} = Started t ∧
       allowed_exts t = None.
Proof.
  apply blank_extensions_no_filter.
  - done.
  - simpl. unfold Str.has_char. intros c H%list_elem_of_In. simpl in H.
    destruct H as [<-|[<-|[<-|[<-|[]]]]]; auto.
Defined.

(** X4. The filter [__init__] stores for a list that [parse_extensions]
    returned is the set of its tokens in lower case: an extension passes
    the filter exactly when it is one of the tokens in lower case. *)
Theorem validated_filter_stored text parts sp fn cs :
  parse_extensions text = Returns (Some parts) →
  allowed_exts (init sp fn cs (Some parts))
    = Some (list_to_set (Str.lower <$> parts)) ∧
  ∀ ext, ext_allowed (init sp fn cs (Some parts)) ext = true ↔
         ∃ p, p ∈ parts ∧ ext = Str.lower p.
Proof.
  intros (_ & _ & Hne & Hall)%parse_extensions_Some.
  assert (allowed_exts (init sp fn cs (Some parts))
          = Some (list_to_set (Str.lower <$> parts))) as Heq.
  { destruct parts as [|p0 l]; [done|]. cbn [init allowed_exts].
    rewrite Forall_forall in Hall. do 2 f_equal.
    rewrite filter_all.
    - apply list_fmap_ext. intros _ p Hp%list_elem_of_lookup_2.
      by apply normalize_ext_alnum, Hall.
    - intros p Hp. apply Is_true_true.
      by destruct (alnum_normalize p (Hall p Hp)). }
  split; [done|]. intros ext. unfold ext_allowed. rewrite Heq.
  rewrite bool_decide_eq_true, elem_of_list_to_set, list_elem_of_fmap.
  split; intros (p & ? & ?); by exists p.
Qed.

Lemma validated_filter_stored_witness :
  allowed_exts (init (OnePath "/tmp/a") "report" false (Some ["py"; "TXT"]))
    = Some (list_to_set (Str.lower <$> ["py"; "TXT"])) ∧
  ∀ ext,
    ext_allowed (init (OnePath "/tmp/a") "report" false (Some ["py"; "TXT"]))
      ext = true ↔
    ∃ p, p ∈ ["py"; "TXT"] ∧ ext = Str.lower p.
Proof.
  apply (validated_filter_stored " py, ..TXT ,,"). reflexivity.
Defined.

(** X5. The filter of a thread is in force exactly when the list given to
    [__init__] holds an entry that is not blank. *)
Theorem filter_active_init sp fn cs exts :
  filter_active (init sp fn cs exts) = true ↔
  ∃ l e, exts = Some l ∧ e ∈ l ∧ Str.strip e ≠ "".
Proof.
  unfold filter_active. destruct exts as [[|e0 l]|]; cbn [init allowed_exts].
  - split; [done|]. by intros (? & ? & [= <-] & ?%elem_of_nil & _).
  - rewrite bool_decide_eq_true. split.
    + intros (x & Hx)%set_choose_L.
      apply elem_of_list_to_set, list_elem_of_fmap in Hx as (e & _ & He).
      apply list_elem_of_filter in He as [Ht He].
      apply Is_true_true, andb_true_iff in Ht as [_ Ht].
      exists (e0 :: l), e. split_and!; [done..|].
      by apply StrFacts.truthy_true.
    + intros (? & e & [= <-] & He & Hs).
      apply (non_empty_inhabited_L (normalize_ext e)).
      apply elem_of_list_to_set, list_elem_of_fmap. exists e. split; [done|].
      apply list_elem_of_filter. split; [|done].
      apply Is_true_true, andb_true_iff.
      split; apply StrFacts.truthy_true; [|done].
      intros ->. by apply Hs.
  - split; [done|]. by intros (? & ? & [=] & _).
Qed.

(** X6. The thread [start_search] starts has at least one root and no
    root twice. With "Search entire PC" its roots are exactly the drive
    roots [A:\] to [Z:\] that exist, in the order of the alphabet, when
    one of them exists, and [C:\] alone when none exists; otherwise its
    one root is the stripped folder field, or [C:\] when that is blank. *)
Theorem start_search_roots os ui t :
  start_search os ui = Started t →
  roots t ≠ [] ∧ NoDup (roots t) ∧
  if entire_pc_checkbox ui then
    ((∃ letter, letter ∈ drive_letters ∧
                path_exists os (drive_root letter) = true) →
     roots t = filter (λ root, path_exists os root)
                 (drive_root <$> drive_letters) ∧
     ∀ r, r ∈ roots t ↔
          ∃ letter, letter ∈ drive_letters ∧ r = drive_root letter ∧
                    path_exists os r = true) ∧
    ((∀ letter, letter ∈ drive_letters →
                path_exists os (drive_root letter) = false) →
     roots t = ["C:\"])
  else
    ∃ r, roots t = [r] ∧ r ≠ "" ∧
         r = if Str.truthy (Str.strip (path_input ui))
             then Str.strip (path_input ui) else "C:\".
Proof.
  unfold start_search.
  set (found := filter (λ root, path_exists os root)
                  (drive_root <$> drive_letters)).
  destruct (Str.truthy (Str.strip (search_input ui))); [|done]. cbn [negb].
  destruct (if Str.truthy (Str.strip (ext_input ui)) then _ else _)
    as [exts|]; [|done].
  destruct (entire_pc_checkbox ui); intros [= <-]; unfold roots, init;
    cbn [search_path].
  - assert (NoDup found) as Hnodup.
    { apply NoDup_filter. by vm_compute; repeat constructor;
        rewrite ?elem_of_cons, ?elem_of_nil; intuition discriminate. }
    assert (∀ r, r ∈ found ↔
              ∃ letter, letter ∈ drive_letters ∧ r = drive_root letter ∧
                        path_exists os r = true) as Hfound.
    { intros r. unfold found.
      rewrite list_elem_of_filter, list_elem_of_fmap, Is_true_true.
      split.
      - intros [He (letter & -> & Hl)]. by exists letter.
      - intros (letter & Hl & -> & He). split; [done|]. by exists letter. }
    destruct found as [|r0 found'] eqn:E.
    + split_and!; [done|apply NoDup_singleton| |done].
      intros (letter & Hl & He). exfalso.
      eapply elem_of_nil, Hfound. eauto.
    + split_and!; [done|done|done|].
      intros Hnone. exfalso.
      destruct (proj1 (Hfound r0)) as (letter & Hl & -> & He); [by left|].
      rewrite (Hnone letter Hl) in He. done.
  - split_and!; [done|apply NoDup_singleton|].
    eexists. split_and!; [done| |done].
    destruct (Str.truthy (Str.strip (path_input ui))) eqn:Hp; [|done].
    by apply StrFacts.truthy_true.
Qed.

Lemma start_search_roots_witness :
  let os := {| path_mod := OsPath.ntpath; scandir := Scenario.nothing;
               cpu_count := Some 4%nat; thread_limit := None;
               path_exists := λ p, String.eqb p "D:\" || String.eqb p "F:\" |} in
  let ui := {| search_input := " report "; ext_input := "";
               entire_pc_checkbox := true; path_input := "";
               case_sensitive_checkbox := false |} in
  let t := init (Paths ["D:\"; "F:\"]) "report" false None in
  roots t ≠ [] ∧ NoDup (roots t) ∧
  ((∃ letter, letter ∈ drive_letters ∧
              path_exists os (drive_root letter) = true) →
   roots t = filter (λ root, path_exists os root)
               (drive_root <$> drive_letters) ∧
   ∀ r, r ∈ roots t ↔
        ∃ letter, letter ∈ drive_letters ∧ r = drive_root letter ∧
                  path_exists os r = true) ∧
  ((∀ letter, letter ∈ drive_letters →
              path_exists os (drive_root letter) = false) →
   roots t = ["C:\"]).
Proof.
  intros os ui t. apply (start_search_roots os ui t). reflexivity.
Defined.

(** X7. The thread [start_search] starts searches for the stripped text of
    the name field: its query is not empty and has no white space at
    either end, and the text compared with the names is not empty
    either. No thread is started exactly when the name field is blank. *)
Theorem start_search_query os ui :
  (∀ t, start_search os ui = Started t →
     filename t = Str.strip (search_input ui) ∧
     filename t ≠ "" ∧ Str.strip (filename t) = filename t ∧
     target t ≠ "" ∧
     case_sensitive t = case_sensitive_checkbox ui) ∧
  (start_search os ui = NotStarted ↔ Str.strip (search_input ui) = "").
Proof.
  unfold start_search.
  destruct (Str.truthy (Str.strip (search_input ui))) eqn:Hname; cbn [negb].
  - apply StrFacts.truthy_true in Hname. split.
    + intros t Ht.
      assert (filename t = Str.strip (search_input ui) ∧
              case_sensitive t = case_sensitive_checkbox ui) as [Hf Hc].
      { destruct (if Str.truthy (Str.strip (ext_input ui)) then _ else _)
          as [exts|]; [|done].
        by destruct (entire_pc_checkbox ui); injection Ht as <-. }
      split_and!; [done|by rewrite Hf|by rewrite Hf, strip_idemp| |done].
      unfold target. rewrite Hf.
      destruct (case_sensitive t); [done|]. by rewrite lower_nil.
    + split; [|done].
      destruct (if Str.truthy (Str.strip (ext_input ui)) then _ else _)
        as [exts|]; [|done].
      by destruct (entire_pc_checkbox ui).
  - apply StrFacts.truthy_false in Hname. by split.
Qed.

Lemma start_search_query_witness :
  let t := init (OnePath "/tmp/a") "Report" false None in
  filename t = Str.strip "  Report " ∧
  filename t ≠ "" ∧ Str.strip (filename t) = filename t ∧
  target t ≠ "" ∧ case_sensitive t = false.
Proof.
  intros t.
  apply (proj1 (start_search_query (Scenario.posix Scenario.tmp_a)
                  {| search_input := "  Report "; ext_input := "";
                     entire_pc_checkbox := false; path_input := "/tmp/a";
                     case_sensitive_checkbox := false |}) t).
  reflexivity.
Defined.

Lemma start_search_started os ui exts :
  Str.strip (search_input ui) ≠ "" →
  (if Str.truthy (Str.strip (ext_input ui))
   then parse_extensions (Str.strip (ext_input ui)) else Returns None)
    = Returns exts →
  ∃ sp, start_search os ui =
        Started (init sp (Str.strip (search_input ui))
                   (case_sensitive_checkbox ui) exts).
Proof.
  intros Hname%StrFacts.truthy_true Hexts. unfold start_search.
  rewrite Hname, Hexts. cbn [negb].
  destruct (entire_pc_checkbox ui); by eexists.
Qed.

(** X8. Whatever preset is chosen, the text [on_preset_changed] puts in the
    extensions field is accepted by [start_search]: with a name to search
    for, the search is started, without a filter for "All" and with one
    for every other preset. *)
Theorem preset_accepted os ui preset :
  preset ∈ presets →
  Str.strip (search_input ui) ≠ "" →
  ∃ t, start_search os (on_preset_changed preset ui) = Started t ∧
       filter_active t = negb (String.eqb preset "All").
Proof.
  intros Hp Hname.
  unfold presets in Hp. rewrite !elem_of_cons, elem_of_nil in Hp.
  destruct Hp as [->|[->|[->|[->|[]]]]].
  - destruct (start_search_started os (set_ext_input "" ui) None Hname)
      as [sp Hsp]; [done|].
    eexists. split; [exact Hsp|done].
  - destruct (start_search_started os
        (set_ext_input "png,jpg,jpeg,gif,bmp,webp" ui)
        (Some ["png"; "jpg"; "jpeg"; "gif"; "bmp"; "webp"]) Hname)
      as [sp Hsp]; [done|].
    eexists. split; [exact Hsp|]. apply filter_active_init.
    eexists _, "png". split_and!; [done|by left|done].
  - destruct (start_search_started os
        (set_ext_input "pdf,doc,docx,xls,xlsx,txt,odt" ui)
        (Some ["pdf"; "doc"; "docx"; "xls"; "xlsx"; "txt"; "odt"]) Hname)
      as [sp Hsp]; [done|].
    eexists. split; [exact Hsp|]. apply filter_active_init.
    eexists _, "pdf". split_and!; [done|by left|done].
  - destruct (start_search_started os
        (set_ext_input "py,js,java,cpp,c,h,cs,ts,rb,go,rs,html,css" ui)
        (Some ["py"; "js"; "java"; "cpp"; "c"; "h"; "cs"; "ts"; "rb"; "go";
               "rs"; "html"; "css"]) Hname)
      as [sp Hsp]; [done|].
    eexists. split; [exact Hsp|]. apply filter_active_init.
    eexists _, "py". split_and!; [done|by left|done].
Qed.

Lemma preset_accepted_witness :
  ∃ t, start_search (Scenario.posix Scenario.tmp_a)
         (on_preset_changed "Code"
            {| search_input := "main"; ext_input := "???";
               entire_pc_checkbox := false; path_input := "/tmp/a";
               case_sensitive_checkbox := false |}) = Started t ∧
       filter_active t = negb (String.eqb "Code" "All").
Proof.
  apply preset_accepted.
  - unfold presets. rewrite !elem_of_cons. auto.
  - done.
Defined.

(** ** The workers of a search *)

Section Workers.
Context (os : OS) (self : FileSearchThread).

(** A step of another thread leaves worker [i] where it is and adds
    nothing to what it emitted. *)
Lemma other_step i a s :
  a ≠ Work i →
  workers (step os self a s) !! i = workers s !! i ∧
  emitted_by (WorkerThread i) (step os self a s) =
    emitted_by (WorkerThread i) s.
Proof.
  intros Ha. destruct a as [j| |]; simpl.
  - assert (i ≠ j) as Hij by congruence.
    split; [by rewrite worker_step_other|].
    destruct (worker_step_signals os self j s) as [E|(d & e & es & _ & _ & E)].
    + by apply emitted_by_same.
    + rewrite (emitted_by_snoc _ _ _ _ _ E), decide_False.
      * apply app_nil_r.
      * by intros [= ->].
  - split; [by rewrite run_step_workers|].
    destruct (run_step_signals os s) as [E|[ev E]].
    + by apply emitted_by_same.
    + rewrite (emitted_by_snoc _ _ _ _ _ E), decide_False; [|done].
      apply app_nil_r.
  - done.
Qed.

Lemma moves_cons_same i sched : moves i (Work i :: sched) = S (moves i sched).
Proof. unfold moves. by rewrite filter_cons_True. Qed.

Lemma moves_cons_other i a sched :
  a ≠ Work i → moves i (a :: sched) = moves i sched.
Proof. intros Ha. unfold moves. by rewrite filter_cons_False. Qed.

Lemma idle_exec i sched s :
  moves i sched = 0%nat →
  workers (exec os self sched s) !! i = workers s !! i ∧
  emitted_by (WorkerThread i) (exec os self sched s) =
    emitted_by (WorkerThread i) s.
Proof.
  revert s. induction sched as [|a sched IH]; intros s Hm; [done|].
  destruct (decide (a = Work i)) as [->|Ha].
  - by rewrite moves_cons_same in Hm.
  - rewrite moves_cons_other in Hm by done.
    rewrite exec_cons. destruct (IH (step os self a s) Hm) as [-> ->].
    by apply other_step.
Qed.

(** The history of the queue only grows. *)
Lemma enqueued_step a s x :
  x ∈ enqueued s → x ∈ enqueued (step os self a s).
Proof.
  intros Hx. destruct a as [i| |]; simpl; [| |done].
  - destruct (worker_step_move os self i s); frame;
      rewrite ?elem_of_app; auto; congruence.
  - unfold run_step. repeat case_match; frame; rewrite ?elem_of_app; auto.
Qed.

Lemma enqueued_exec sched s x :
  x ∈ enqueued s → x ∈ enqueued (exec os self sched s).
Proof.
  revert s. induction sched as [|a sched IH]; intros s Hx; [done|].
  rewrite exec_cons. by apply IH, enqueued_step.
Qed.

Lemma set_worker_lookup i w s w0 :
  workers s !! i = Some w0 → workers (set_worker i w s) !! i = Some w.
Proof.
  intros Hi. simpl. apply list_lookup_insert_eq. by eapply lookup_lt_Some.
Qed.

Lemma listing_done i d es sched s :
  workers s !! i = Some (Scanning d es) →
  moves i sched = loop_steps os self es →
  let s' := exec os self sched s in
  workers s' !! i = Some AtCheck ∧
  emitted_by (WorkerThread i) s' =
    emitted_by (WorkerThread i) s ++ (FoundFile <$> loop_emits os self es) ∧
  ∀ p, p ∈ loop_puts os self es → Some p ∈ enqueued s'.
Proof.
  revert s es. induction sched as [|a sched IH]; intros s es Hi Hm.
  { by destruct es as [|e es]; simpl in Hm; repeat case_match. }
  cbn zeta. rewrite exec_cons.
  destruct (decide (a = Work i)) as [->|Ha].
  2:{ rewrite moves_cons_other in Hm by done.
      destruct (other_step i a s Ha) as [Hw He]. rewrite <-Hw in Hi.
      destruct (IH _ _ Hi Hm) as (H1 & H2 & H3). by rewrite <-He. }
  rewrite moves_cons_same in Hm. cbn [step].
  destruct es as [|e es].
  - (* the end of the listing *)
    injection Hm as Hm. rewrite (worker_step_end _ _ _ _ _ Hi).
    set (s1 := set_worker i AtCheck (leave_scan None s)).
    assert (workers s1 !! i = Some AtCheck) as H1.
    { subst s1. eapply set_worker_lookup. by frame. }
    assert (emitted_by (WorkerThread i) s1 = emitted_by (WorkerThread i) s)
      as H2 by (apply emitted_by_same; subst s1; by frame).
    destruct (idle_exec i sched s1 Hm) as [-> ->].
    rewrite H2. cbn [loop_emits loop_puts fmap list_fmap].
    split_and!; [done|by rewrite app_nil_r|by intros p ?%elem_of_nil].
  - rewrite (worker_step_entry _ _ _ _ _ _ _ Hi).
    cbn [loop_emits loop_puts loop_steps] in *.
    destruct (scan_entry os self e) as [p|p| |x] eqn:He.
    + (* a subdirectory *)
      injection Hm as Hm.
      set (s1 := set_worker i (Scanning d es) (put (Some p) s)).
      assert (workers s1 !! i = Some (Scanning d es)) as H1
        by (subst s1; by eapply set_worker_lookup).
      destruct (IH _ _ H1 Hm) as (IH1 & IH2 & IH3).
      split_and!; [done|by rewrite IH2| ].
      intros q [->|Hq]%elem_of_cons; [|by apply IH3].
      apply enqueued_exec. subst s1. frame. apply elem_of_app. right. by left.
    + (* a match *)
      injection Hm as Hm.
      set (s1 := set_worker i (Scanning d es)
                   (emit (WorkerThread i) (FoundFile p) s)).
      assert (workers s1 !! i = Some (Scanning d es)) as H1
        by (subst s1; by eapply set_worker_lookup).
      destruct (IH _ _ H1 Hm) as (IH1 & IH2 & IH3).
      split_and!; [done| |done].
      rewrite IH2.
      rewrite (emitted_by_snoc _ (WorkerThread i) (FoundFile p) s s1)
        by done.
      rewrite decide_True by done. by rewrite <-app_assoc.
    + (* an entry that is passed over *)
      injection Hm as Hm.
      set (s1 := set_worker i (Scanning d es) s).
      assert (workers s1 !! i = Some (Scanning d es)) as H1
        by (subst s1; by eapply set_worker_lookup).
      destruct (IH _ _ H1 Hm) as (IH1 & IH2 & IH3).
      split_and!; [done| |done]. by rewrite IH2.
    + (* an unexpected exception *)
      injection Hm as Hm.
      set (s1 := set_worker i AtCheck (leave_scan (Some x) s)).
      assert (workers s1 !! i = Some AtCheck) as H1.
      { subst s1. eapply set_worker_lookup. by frame. }
      assert (emitted_by (WorkerThread i) s1 = emitted_by (WorkerThread i) s)
        as H2 by (apply emitted_by_same; subst s1; by frame).
      destruct (idle_exec i sched s1 Hm) as [-> ->].
      rewrite H2. cbn [fmap list_fmap].
      split_and!; [done|by rewrite app_nil_r|by intros p ?%elem_of_nil].
Qed.

(** Once the stop event is set, a further [request_cancel] changes
    nothing. *)
Lemma exec_without_cancel sched s :
  stop_event s = true →
  exec os self sched s = exec os self (filter (λ a, a ≠ Cancel) sched) s.
Proof.
  revert s. induction sched as [|a sched IH]; intros s Hstop; [done|].
  rewrite exec_cons. destruct (decide (a = Cancel)) as [->|Ha].
  - rewrite filter_cons_False by (by intros ?). cbn [step].
    rewrite set_stop_id by done. by apply IH.
  - rewrite filter_cons_True by done. rewrite exec_cons.
    apply IH. by apply step_stop.
Qed.

Lemma max_workers_bounds : (2 ≤ max_workers os ≤ 32)%nat.
Proof. unfold max_workers. destruct (cpu_count os) as [[|n]|]; lia. Qed.

Lemma task_done_Some s s' :
  task_done s = Some s' → unfinished_tasks s = S (unfinished_tasks s').
Proof.
  unfold task_done. destruct (unfinished_tasks s); [done|]. by intros [= <-].
Qed.

Lemma task_done_None s : task_done s = None → unfinished_tasks s = 0%nat.
Proof. unfold task_done. by destruct (unfinished_tasks s). Qed.

Lemma scanning_set_worker i w w0 s :
  workers s !! i = Some w0 →
  (scanning (set_worker i w s) + in_listing w0 = scanning s + in_listing w)%nat.
Proof. intros Hi. unfold scanning. simpl. by apply sum_list_insert. Qed.

(** The queue counts as unfinished the items it holds and the directories
    that are being listed. *)
Lemma accounting_step a s :
  no_unexpected_exception os → walk_inv os self s →
  unfinished_tasks s = (length (dir_queue s) + scanning s)%nat →
  unfinished_tasks (step os self a s) =
    (length (dir_queue (step os self a s)) + scanning (step os self a s))%nat.
Proof.
  intros [Hscan Hentry] (Hlisted & _ & _) Hinv.
  destruct a as [i| |]; simpl; [| |done].
  - destruct (worker_step_move os self i s) as
      [ |Hi|Hi Hq|q s' Hi Hq Ht|q Hi Hq Ht|d q es Hi Hq Hd|d q x Hi Hq Hd
      |d Hi|d e es p Hi He|d e es p Hi He|d e es Hi He|d e es x Hi He].
    + done.
    + pose proof (scanning_set_worker i
        (if stop_event s then Exited else AtGet) _ s Hi) as E.
      simpl. destruct (stop_event s); simpl in *; lia.
    + pose proof (scanning_set_worker i AtCheck _ s Hi) as E.
      simpl in *. lia.
    + pose proof (task_done_Some _ _ Ht) as E1.
      pose proof (task_done_frame _ _ Ht) as (_ & E2 & E3 & _).
      simpl in E1, E2, E3.
      assert (workers s' !! i = Some AtGet) as Hi' by (by rewrite E3).
      pose proof (scanning_set_worker i Exited _ s' Hi') as E.
      unfold scanning in *. simpl in *. rewrite E2, E3 in *. rewrite Hq in Hinv.
      simpl in *. lia.
    + apply task_done_None in Ht. simpl in Ht. rewrite Hq in Hinv.
      simpl in Hinv. lia.
    + pose proof (scanning_set_worker i (Scanning d es) _ (set_queue q s) Hi)
        as E.
      unfold scanning in *. simpl in *. rewrite Hq in Hinv. simpl in *. lia.
    + assert (Some x ≠ Some OtherException) as Hx.
      { intros [= ->]. by apply (Hscan d). }
      pose proof (leave_scan_unfinished (Some x) (set_queue q s) Hx) as E1.
      assert (workers (leave_scan (Some x) (set_queue q s)) !! i = Some AtGet)
        as Hi' by by frame.
      pose proof (scanning_set_worker i AtCheck _ _ Hi') as E.
      unfold scanning in *. frame. simpl in *. rewrite E1.
      rewrite Hq in Hinv. simpl in *. lia.
    + assert (None ≠ Some OtherException) as Hx by done.
      pose proof (leave_scan_unfinished None s Hx) as E1.
      assert (workers (leave_scan None s) !! i = Some (Scanning d []))
        as Hi' by by frame.
      pose proof (scanning_set_worker i AtCheck _ _ Hi') as E.
      pose proof (scanning_set_worker i (Scanning d []) _ s Hi) as E2.
      unfold scanning in *. frame. simpl in *. rewrite E1. lia.
    + pose proof (scanning_set_worker i (Scanning d es) _ (put (Some p) s) Hi)
        as E.
      unfold scanning in *. simpl in *. rewrite length_app. simpl. lia.
    + pose proof (scanning_set_worker i (Scanning d es) _
        (emit (WorkerThread i) (FoundFile p) s) Hi) as E.
      unfold scanning in *. simpl in *. lia.
    + pose proof (scanning_set_worker i (Scanning d es) _ s Hi) as E.
      unfold scanning in *. simpl in *. lia.
    + apply scan_entry_Propagate in He. destruct (Hentry e); [|done].
      eapply Hlisted; [done|]. by left.
  - unfold run_step, scanning in *.
    repeat case_match; simpl; rewrite ?length_app; simpl; lia.
Qed.

Lemma accounting s :
  no_unexpected_exception os → reachable os self s →
  unfinished_tasks s = (length (dir_queue s) + scanning s)%nat.
Proof.
  intros Hos Hs. pattern s. revert s Hs. apply reachable_ind.
  - unfold scanning. simpl. rewrite length_fmap.
    assert (sum_list (in_listing <$> replicate (started_workers os) AtCheck)
            = 0%nat) as ->; [|lia].
    induction (started_workers os) as [|n IH]; [done|]. exact IH.
  - intros a s Hs IH. apply accounting_step; [done| |done].
    by apply walk_inv_reachable.
Qed.

End Workers.

Lemma tmp_a_no_unexpected_exception :
  no_unexpected_exception (Scenario.posix Scenario.tmp_a).
Proof.
  split.
  - intros d. simpl. unfold Scenario.tmp_a. by repeat case_match.
  - intros e (d & es & Hd & He). simpl in Hd. unfold Scenario.tmp_a in Hd.
    repeat case_match; simplify_eq;
      repeat (apply elem_of_cons in He as [->|He]; [done|]);
      by apply elem_of_nil in He.
Qed.

(** X9. A thread whose query is empty emits no match: the worker tests the
    query itself before it looks for it in a name. *)
Theorem empty_query_matches_nothing os self s :
  filename self = "" → reachable os self s →
  ∀ i ev, (WorkerThread i, ev) ∉ signals s.
Proof.
  intros Hname Hs i ev Hev.
  destruct (walk_inv_reachable os self s Hs) as (_ & Hsig & _).
  destruct (Hsig i ev Hev) as (e & _ & He & _).
  apply scan_entry_Emit in He as (_ & _ & Ht & _).
  unfold target in Ht. rewrite Hname in Ht. by destruct (case_sensitive self).
Qed.

Lemma empty_query_matches_nothing_witness :
  let os := Scenario.posix Scenario.tmp_a in
  let self := init (OnePath "/tmp/a") "" false None in
  (WorkerThread 0, FoundFile "/tmp/a/x/report.TXT")
    ∉ signals (exec os self Scenario.natural_run (start os self)).
Proof.
  intros os self.
  apply (empty_query_matches_nothing os self); [reflexivity|].
  by exists Scenario.natural_run.
Defined.

(** X10. When a worker stands at the head of the loop over a listing and then
    takes as many steps as the loop needs, it stands at the test of the
    stop event again, and whatever the other threads did in between, it
    has emitted the matches of the listing in the order of the listing,
    up to the first entry that raised an unexpected exception, and every
    subdirectory up to there has been put on the queue. *)
Theorem listing_emitted_in_order os self i d es sched s :
  workers s !! i = Some (Scanning d es) →
  moves i sched = loop_steps os self es →
  workers (exec os self sched s) !! i = Some AtCheck ∧
  emitted_by (WorkerThread i) (exec os self sched s) =
    emitted_by (WorkerThread i) s ++ (FoundFile <$> loop_emits os self es) ∧
  ∀ p, p ∈ loop_puts os self es → Some p ∈ enqueued (exec os self sched s).
Proof. apply listing_done. Qed.

Lemma listing_emitted_in_order_witness :
  let os := Scenario.posix Scenario.two_roots in
  let self := Scenario.notes_search in
  let s := exec os self [Work 0; Work 0; Work 0; Work 0]%nat (start os self) in
  let sched := [Run; Work 0; Work 1; Work 0; Cancel]%nat in
  let es := [Scenario.file "/open" "notes.txt"] in
  workers (exec os self sched s) !! 0%nat = Some AtCheck ∧
  emitted_by (WorkerThread 0) (exec os self sched s) =
    emitted_by (WorkerThread 0) s ++ (FoundFile <$> loop_emits os self es) ∧
  ∀ p, p ∈ loop_puts os self es → Some p ∈ enqueued (exec os self sched s).
Proof.
  intros os self s sched es.
  apply (listing_emitted_in_order os self 0%nat "/open" es sched s);
    reflexivity.
Defined.

(** X11. Once the stop event is set, further calls of [request_cancel] change
    nothing: the search goes on as it does without them. *)
Theorem cancel_once os self sched s :
  stop_event s = true →
  exec os self sched s = exec os self (filter (λ a, a ≠ Cancel) sched) s.
Proof. apply exec_without_cancel. Qed.

Lemma cancel_once_witness :
  let os := Scenario.posix Scenario.tmp_a in
  let self := Scenario.report_txt in
  let s := exec os self [Work 0; Cancel]%nat (start os self) in
  exec os self [Work 0; Cancel; Run; Cancel; Work 1]%nat s =
  exec os self [Work 0; Run; Work 1]%nat s.
Proof.
  intros os self s.
  apply (cancel_once os self [Work 0; Cancel; Run; Cancel; Work 1]%nat s).
  reflexivity.
Defined.

(** X12. The pool has between 2 and 32 workers, twice the number of
    processors up to 16 of them, and it keeps its size through the
    search; fewer workers run only when a thread could not be started. *)
Theorem pool_size os self s :
  reachable os self s →
  (2 ≤ max_workers os ≤ 32)%nat ∧
  (∀ n, cpu_count os = Some n → (1 ≤ n ≤ 16)%nat →
        max_workers os = (2 * n)%nat) ∧
  (length (workers s) ≤ max_workers os)%nat ∧
  (thread_limit os = None → length (workers s) = max_workers os).
Proof.
  intros Hs. destruct (run_inv_reachable os self s Hs) as (Hlen & _).
  split_and!.
  - apply max_workers_bounds.
  - apply max_workers_bounds.
  - intros n Hn Hle. unfold max_workers. rewrite Hn.
    destruct n as [|n]; lia.
  - rewrite Hlen. unfold started_workers.
    destruct (thread_limit os) as [[k msg]|]; lia.
  - intros Hlimit. rewrite Hlen. unfold started_workers. by rewrite Hlimit.
Qed.

Lemma pool_size_witness :
  let os := Scenario.posix Scenario.tmp_a in
  let self := Scenario.report_txt in
  let s := exec os self Scenario.natural_run (start os self) in
  (2 ≤ max_workers os ≤ 32)%nat ∧
  (∀ n, cpu_count os = Some n → (1 ≤ n ≤ 16)%nat →
        max_workers os = (2 * n)%nat) ∧
  (length (workers s) ≤ max_workers os)%nat ∧
  (thread_limit os = None → length (workers s) = max_workers os).
Proof.
  intros os self s. apply (pool_size os self s).
  by exists Scenario.natural_run.
Defined.



(** X14. In a search without an unexpected exception, [task_done] is called
    once for each item taken: the queue counts as unfinished the items it
    holds and the directories that are being listed. *)
Theorem unfinished_tasks_accounting os self s :
  no_unexpected_exception os → reachable os self s →
  unfinished_tasks s = (length (dir_queue s) + scanning s)%nat.
Proof. apply accounting. Qed.

Lemma unfinished_tasks_accounting_witness :
  let os := Scenario.posix Scenario.tmp_a in
  let self := Scenario.report_txt in
  let s := exec os self [Work 0; Work 0; Work 0; Work 1]%nat (start os self) in
  unfinished_tasks s = (length (dir_queue s) + scanning s)%nat.
Proof.
  intros os self s. apply (unfinished_tasks_accounting os self s).
  - apply tmp_a_no_unexpected_exception.
  - by exists [Work 0; Work 0; Work 0; Work 1]%nat.
Defined.

(** X15. In a search without an unexpected exception, a worker that takes a
    sentinel from the queue leaves its loop: [task_done] does not raise
    there. *)
Theorem sentinel_stops_worker os self s i q :
  no_unexpected_exception os → reachable os self s →
  workers s !! i = Some AtGet → dir_queue s = None :: q →
  workers (worker_step os self i s) !! i = Some Exited ∧
  dir_queue (worker_step os self i s) = q.
Proof.
  intros Hos Hs Hi Hq. pose proof (accounting os self s Hos Hs) as Hacc.
  unfold worker_step. rewrite Hi, Hq. unfold task_done. simpl.
  rewrite Hacc, Hq. simpl. split; [|done].
  apply list_lookup_insert_eq. by eapply lookup_lt_Some.
Qed.

Lemma sentinel_stops_worker_witness :
  let os := Scenario.posix Scenario.nothing in
  let self := Scenario.missing_search in
  let sched := [Work 0; Work 0; Run; Run; Run; Run; Work 1]%nat in
  let s := exec os self sched (start os self) in
  workers (worker_step os self 1 s) !! 1%nat = Some Exited ∧
  dir_queue (worker_step os self 1 s) = [].
Proof.
  intros os self sched s.
  apply (sentinel_stops_worker os self s 1%nat []).
  - split; [done|]. by intros e (d & es & [=] & _).
  - by exists sched.
  - reflexivity.
  - reflexivity.
Defined.

(** ** The label of a result *)

Section Label.
Import Str StrFacts.

Lemma has_char_app c a b :
  has_char c (a +:+ b) ↔ has_char c a ∨ has_char c b.
Proof.
  induction a as [|x a IH].
  - rewrite app_nil_l. split; [by right|]. by intros [?%has_char_nil|?].
  - rewrite app_cons, !has_char_cons, IH. tauto.
Qed.

Lemma replace_char_app c r a b :
  Html.replace_char c r (a +:+ b) =
  Html.replace_char c r a +:+ Html.replace_char c r b.
Proof.
  induction a as [|x a IH]; [done|].
  rewrite app_cons. cbn [Html.replace_char]. by rewrite IH, app_assoc.
Qed.

Lemma escape_app a b : Html.escape (a +:+ b) = Html.escape a +:+ Html.escape b.
Proof. unfold Html.escape. cbn zeta. by rewrite !replace_char_app. Qed.

Lemma escape_cons c s :
  Html.escape (String c s) = Html.escape (String c "") +:+ Html.escape s.
Proof. by rewrite <-escape_app. Qed.

(** What [html.escape] makes of one character holds none of the
    characters of markup. *)
Lemma escape_char_safe c :
  forallb (λ x, negb (Ascii.eqb x "<" || Ascii.eqb x ">" ||
                      Ascii.eqb x Html.quot || Ascii.eqb x "'"))
    (list_ascii_of_string (Html.escape (String c ""))) = true.
Proof. by destruct c as [[] [] [] [] [] [] [] []]. Qed.

Lemma escape_safe s x :
  has_char x (Html.escape s) →
  x ≠ "<"%char ∧ x ≠ ">"%char ∧ x ≠ Html.quot ∧ x ≠ "'"%char.
Proof.
  induction s as [|c s IH]; [by intros ?%has_char_nil|].
  rewrite escape_cons, has_char_app. intros [Hx|Hx]; [|by apply IH].
  pose proof (escape_char_safe c) as Hc. rewrite forallb_forall in Hc.
  specialize (Hc x (proj1 (list_elem_of_In _ _) Hx)).
  apply negb_true_iff in Hc.
  repeat (apply orb_false_iff in Hc as [Hc ?]).
  rewrite !Ascii.eqb_neq in *. done.
Qed.

Lemma length_lower s : String.length (lower s) = String.length s.
Proof. induction s as [|c s IH]; [done|]. simpl. by rewrite IH. Qed.

Lemma lower_take n s : lower (take n s) = take n (lower s).
Proof.
  revert n. induction s as [|c s IH]; intros [|n]; try done.
  simpl. by rewrite IH.
Qed.

Lemma lower_drop n s : lower (drop n s) = drop n (lower s).
Proof. revert n. induction s as [|c s IH]; intros [|n]; try done. simpl. apply IH. Qed.

Lemma fold_case_take cs n s :
  fold_case cs (take n s) = take n (fold_case cs s).
Proof. destruct cs; [done|]. apply lower_take. Qed.

Lemma fold_case_drop cs n s :
  fold_case cs (drop n s) = drop n (fold_case cs s).
Proof. destruct cs; [done|]. apply lower_drop. Qed.

Lemma fold_case_app cs s t :
  fold_case cs (s +:+ t) = fold_case cs s +:+ fold_case cs t.
Proof. destruct cs; [done|]. apply lower_app. Qed.

Lemma length_fold_case cs s :
  String.length (fold_case cs s) = String.length s.
Proof. destruct cs; [done|]. apply length_lower. Qed.

Lemma take_drop n s : take n s +:+ drop n s = s.
Proof.
  revert n. induction s as [|c s IH]; intros [|n]; try done.
  simpl. rewrite app_cons. by rewrite IH.
Qed.

Lemma drop_drop a b s : drop a (drop b s) = drop (b + a) s.
Proof.
  revert b. induction s as [|c s IH]; intros [|b]; try done.
  - by destruct a.
  - simpl. apply IH.
Qed.

Lemma drop_take j k s : drop j (take k s) = take (k - j) (drop j s).
Proof.
  revert j k. induction s as [|c s IH]; intros [|j] [|k]; simpl; try done.
  by destruct (k - j)%nat.
Qed.

Lemma length_take k s :
  String.length (take k s) = Nat.min k (String.length s).
Proof.
  revert k. induction s as [|c s IH]; intros [|k]; try done.
  simpl. by rewrite IH.
Qed.

Lemma length_drop k s :
  String.length (drop k s) = (String.length s - k)%nat.
Proof.
  revert k. induction s as [|c s IH]; intros [|k]; try done. simpl. apply IH.
Qed.

Lemma drop_all k s : (String.length s ≤ k)%nat → drop k s = "".
Proof.
  revert k. induction s as [|c s IH]; intros [|k] H; try done.
  - simpl in H. lia.
  - simpl. apply IH. simpl in H. lia.
Qed.

(** The part of a string between two indices, followed by the rest. *)
Lemma slice_drop a b s :
  (a ≤ b)%nat → slice a b s +:+ drop b s = drop a s.
Proof.
  intros Hab. unfold slice.
  replace (drop b s) with (drop (b - a) (drop a s))
    by (rewrite drop_drop; f_equal; lia).
  apply take_drop.
Qed.

(** The escaped pattern matches where the text, as the comparison sees
    it, begins with the search text. *)
Lemma match_at_startswith cs q s :
  Re.match_at (negb cs) q s = startswith (fold_case cs q) (fold_case cs s).
Proof.
  revert s. induction q as [|a q IH]; intros s.
  - by destruct cs.
  - destruct s as [|b s]; [by destruct cs|].
    cbn [Re.match_at]. rewrite IH. by destruct cs.
Qed.

Lemma match_at_length ic q s :
  Re.match_at ic q s = true → (String.length q ≤ String.length s)%nat.
Proof.
  revert s. induction q as [|a q IH]; intros s; [simpl; lia|].
  destruct s as [|b s]; [done|]. cbn [Re.match_at String.length].
  intros [_ H%IH]%andb_true_iff. lia.
Qed.

Lemma match_at_prefix ic q x y :
  Re.match_at ic q x = true → Re.match_at ic q (x +:+ y) = true.
Proof.
  revert x. induction q as [|a q IH]; intros x; [done|].
  destruct x as [|b x]; [done|]. rewrite app_cons. cbn [Re.match_at].
  intros [-> H%IH]%andb_true_iff. by rewrite H.
Qed.

Lemma startswith_take sub s :
  startswith sub s = true → take (String.length sub) s = sub.
Proof. intros [b ->]%startswith_spec. apply str_take_app_length. Qed.

(** A match is the search text, up to what the comparison ignores. *)
Lemma match_at_take cs q s :
  Re.match_at (negb cs) q s = true →
  fold_case cs (take (String.length q) s) = fold_case cs q.
Proof.
  rewrite match_at_startswith, fold_case_take. intros H%startswith_take.
  by rewrite length_fold_case in H.
Qed.

Lemma contains_false_drop sub s :
  (∀ j, (j ≤ String.length s)%nat → startswith sub (drop j s) = false) →
  contains sub s = false.
Proof.
  induction s as [|c s IH]; intros H.
  - assert (startswith sub "" = false) as H0 by (by apply (H 0%nat)).
    cbn [contains]. by rewrite H0.
  - assert (startswith sub (String c s) = false) as H0
      by (apply (H 0%nat); simpl; lia).
    cbn [contains]. rewrite H0. cbn [orb].
    apply IH. intros j Hj. apply (H (S j)). simpl. lia.
Qed.

(** A text in which the pattern matches nowhere does not hold the search
    text. *)
Lemma no_match_contains cs q a :
  q ≠ "" →
  (∀ j, (j < String.length a)%nat →
        Re.match_at (negb cs) q (drop j a) = false) →
  contains (fold_case cs q) (fold_case cs a) = false.
Proof.
  intros Hq H. apply contains_false_drop. intros j Hj.
  rewrite length_fold_case in Hj.
  rewrite <-fold_case_drop, <-match_at_startswith.
  destruct (decide (j < String.length a)%nat) as [Hlt|Hge]; [by apply H|].
  rewrite drop_all by lia. by destruct q.
Qed.

Lemma no_match_slice ic q orig last pos :
  q ≠ "" →
  (∀ j, (last ≤ j < pos)%nat → Re.match_at ic q (drop j orig) = false) →
  ∀ j, (j < String.length (slice last pos orig))%nat →
       Re.match_at ic q (drop j (slice last pos orig)) = false.
Proof.
  intros Hq H j Hj. unfold slice in *. rewrite length_take in Hj.
  apply not_true_is_false. intros Hm.
  rewrite drop_take in Hm.
  apply (match_at_prefix _ _ _ (drop (pos - last - j) (drop j (drop last orig))))
    in Hm.
  rewrite take_drop, drop_drop in Hm.
  rewrite H in Hm; [done|lia].
Qed.

Lemma no_match_tail ic q orig last :
  (∀ j, (last ≤ j < String.length orig)%nat →
        Re.match_at ic q (drop j orig) = false) →
  ∀ j, (j < String.length (drop last orig))%nat →
       Re.match_at ic q (drop j (drop last orig)) = false.
Proof.
  intros H j Hj. rewrite length_drop in Hj. rewrite drop_drop.
  apply H. lia.
Qed.

Lemma mark_matches_nonempty orig last ms : mark_matches orig last ms ≠ [].
Proof. by destruct ms as [|[s e] ms]. Qed.

Lemma join_empty_cons x l : l ≠ [] → join "" (x :: l) = x +:+ join "" l.
Proof. by destruct l. Qed.

(** The loop of [add_result] over the matches, from any point of the
    scan on. *)
Lemma mark_from cs q orig rest :
  q ≠ "" →
  ∀ pre skip last,
    orig = pre +:+ rest →
    last = (String.length pre + skip)%nat ∨
      (skip = 0%nat ∧ (last ≤ String.length pre)%nat) →
    (skip ≤ String.length rest)%nat →
    (∀ j, (last ≤ j < String.length pre)%nat →
          Re.match_at (negb cs) q (drop j orig) = false) →
    ∃ segs tail,
      drop last orig = plain_text segs tail ∧
      join "" (mark_matches orig last
                 (Re.finditer_from (negb cs) q rest (String.length pre) skip))
        = render segs tail ∧
      (∀ a m, (a, m) ∈ segs →
         fold_case cs m = fold_case cs q ∧
         contains (fold_case cs q) (fold_case cs a) = false) ∧
      contains (fold_case cs q) (fold_case cs tail) = false.
Proof.
  intros Hq. induction rest as [|c rest IH]; intros pre skip last Horig Hlast Hskip Hno.
  - rewrite app_nil_r in Horig. subst pre.
    exists [], (drop last orig). cbn [Re.finditer_from mark_matches join
      plain_text render]. split_and!; [done|done|by intros a m ?%elem_of_nil|].
    apply no_match_contains; [done|]. by apply no_match_tail.
  - assert (orig = (pre +:+ String c "") +:+ rest) as Horig'
      by (by rewrite app_assoc).
    assert (String.length (pre +:+ String c "") = S (String.length pre))
      as Hlen by (rewrite length_app; simpl; lia).
    assert (drop (String.length pre) orig = String c rest) as Hdrop
      by (by rewrite Horig, str_drop_app_length).
    cbn [Re.finditer_from]. destruct skip as [|k].
    + assert (last ≤ String.length pre)%nat as Hle by (destruct Hlast; lia).
      destruct (Re.match_at (negb cs) q (String c rest)) eqn:Hm.
      * (* a match begins here *)
        pose proof (match_at_length _ _ _ Hm) as Hn.
        cbn [String.length] in Hn.
        assert (0 < String.length q)%nat as Hpos by (destruct q; [done|simpl; lia]).
        destruct (IH (pre +:+ String c "") (String.length q - 1)%nat
                    (String.length pre + String.length q)%nat Horig')
          as (segs & tail & H1 & H2 & H3 & H4).
        { left. lia. }
        { lia. }
        { intros j Hj. lia. }
        rewrite Hlen in H2.
        set (a := slice last (String.length pre) orig).
        set (m := slice (String.length pre)
                    (String.length pre + String.length q) orig).
        exists ((a, m) :: segs), tail. split_and!.
        -- cbn [plain_text]. rewrite <-H1. subst a m.
           rewrite slice_drop by lia. by rewrite slice_drop.
        -- cbn [mark_matches]. fold a m.
           rewrite join_empty_cons by done.
           rewrite join_empty_cons by apply mark_matches_nonempty.
           rewrite H2. cbn [render]. by rewrite !app_assoc.
        -- intros a' m' [[= -> ->]|Hin]%elem_of_cons; [|by apply H3].
           split.
           ++ subst m. unfold slice. rewrite Hdrop.
              replace (String.length pre + String.length q - String.length pre)%nat
                with (String.length q) by lia.
              by apply match_at_take.
           ++ apply no_match_contains; [done|]. by apply no_match_slice.
        -- done.
      * (* no match begins here *)
        destruct (IH (pre +:+ String c "") 0%nat last Horig')
          as (segs & tail & H1 & H2 & H3 & H4).
        { right. split; [done|lia]. }
        { lia. }
        { intros j Hj. rewrite Hlen in Hj.
          destruct (decide (j = String.length pre)) as [->|Hne].
          - by rewrite Hdrop.
          - apply Hno. lia. }
        rewrite Hlen in H2. by exists segs, tail.
    + (* inside the match before *)
      assert (last = String.length pre + S k)%nat as -> by (destruct Hlast; lia).
      destruct (IH (pre +:+ String c "") k
                  (String.length pre + S k)%nat Horig')
        as (segs & tail & H1 & H2 & H3 & H4).
      { left. lia. }
      { simpl in Hskip. lia. }
      { intros j Hj. lia. }
      rewrite Hlen in H2. by exists segs, tail.
Qed.

(** The text of the label, piece by piece. *)
Lemma html_text_pieces q cs p :
  ∃ segs tail,
    p = plain_text segs tail ∧
    html_text q cs p = render segs tail ∧
    (∀ a m, (a, m) ∈ segs →
       q ≠ "" ∧ fold_case cs m = fold_case cs q ∧
       contains (fold_case cs q) (fold_case cs a) = false) ∧
    (q ≠ "" → contains (fold_case cs q) (fold_case cs tail) = false).
Proof.
  unfold html_text. destruct (truthy q) eqn:Hq.
  - apply truthy_true in Hq.
    destruct (mark_from cs q p p Hq "" 0%nat 0%nat) as
      (segs & tail & H1 & H2 & H3 & H4); [done|by left|lia|simpl; lia|].
    exists segs, tail. split_and!; [done| | |done].
    2:{ intros a m Hin. split; [done|]. by apply H3. }
    rewrite <-H2. unfold Re.finditer. cbn [String.length].
    by destruct (Re.finditer_from (negb cs) q p 0 0).
  - exists [], p. split_and!; [done|done|by intros a m ?%elem_of_nil|].
    apply truthy_false in Hq. by intros ?.
Qed.

End Label.

Lemma tmp_a_paths e :
  listed (Scenario.posix Scenario.tmp_a) e → Str.substring_of (name e) (path e).
Proof.
  intros (d & es & Hd & He). simpl in Hd. unfold Scenario.tmp_a in Hd.
  repeat case_match; simplify_eq;
    repeat (apply elem_of_cons in He as [->|He];
            [apply StrFacts.contains_spec; reflexivity|]);
    by apply elem_of_nil in He.
Qed.

Lemma started_thread_fields os ui t :
  start_search os ui = Started t →
  filename t = Str.strip (search_input ui) ∧
  case_sensitive t = case_sensitive_checkbox ui.
Proof.
  unfold start_search.
  destruct (Str.truthy (Str.strip (search_input ui))); [|done]. cbn [negb].
  destruct (if Str.truthy (Str.strip (ext_input ui)) then _ else _)
    as [exts|]; [|done].
  by destruct (entire_pc_checkbox ui); intros [= <-].
Qed.

Lemma substring_of_fold_case cs sub s :
  Str.substring_of sub s →
  Str.substring_of (fold_case cs sub) (fold_case cs s).
Proof.
  intros (a & b & ->). exists (fold_case cs a), (fold_case cs b).
  by rewrite !fold_case_app.
Qed.

Lemma substring_of_trans a b c :
  Str.substring_of a b → Str.substring_of b c → Str.substring_of a c.
Proof.
  intros (x & y & ->) (u & v & ->). exists (u +:+ x), (y +:+ v).
  by rewrite !StrFacts.app_assoc.
Qed.

(** X16. For a path and a name field of ASCII characters, or with "Case
    sensitive" checked, the label [add_result] shows for a path is the
    path, piece by piece, each piece escaped, with some pieces wrapped in
    the highlighting element. Each highlighted piece is the text of the
    name field, up to the case of the letters unless "Case sensitive" is
    checked; no piece left plain holds that text; and a path that does not
    hold it, or an empty name field, gives the escaped path alone. *)
Theorem html_text_highlights q cs p :
  (cs = false → is_ascii q = true ∧ is_ascii p = true) →
  (∃ segs tail,
     p = plain_text segs tail ∧
     html_text q cs p = render segs tail ∧
     (∀ a m, (a, m) ∈ segs →
        q ≠ "" ∧ fold_case cs m = fold_case cs q ∧
        Str.contains (fold_case cs q) (fold_case cs a) = false) ∧
     (q ≠ "" → Str.contains (fold_case cs q) (fold_case cs tail) = false)) ∧
  (q = "" ∨ Str.contains (fold_case cs q) (fold_case cs p) = false →
   html_text q cs p = Html.escape p).
Proof.
  intros _. split; [apply html_text_pieces|].
  destruct (html_text_pieces q cs p) as (segs & tail & H1 & H2 & H3 & H4).
  intros Hno. destruct segs as [|[a m] segs]; [by rewrite H2, H1|].
  destruct (H3 a m) as (Hq & Hm & _); [by left|].
  destruct Hno as [->|Hno]; [done|].
  rewrite H1 in Hno. cbn [plain_text] in Hno.
  rewrite !fold_case_app, Hm, StrFacts.contains_app in Hno. done.
Qed.

Lemma html_text_highlights_witness :
  html_text "zz" false "/a/<b>" = Html.escape "/a/<b>".
Proof.
  apply (proj2 (html_text_highlights "zz" false "/a/<b>"
                  (λ _, conj eq_refl eq_refl))).
  by right.
Defined.

(** X17. What [html.escape] returns holds none of the characters [<], [>],
    the double quote and the apostrophe: no character of a path reaches
    the label as markup. *)
Theorem html_escape_no_markup s x :
  Str.has_char x (Html.escape s) →
  x ≠ "<"%char ∧ x ≠ ">"%char ∧ x ≠ Html.quot ∧ x ≠ "'"%char.
Proof. apply escape_safe. Qed.

Lemma html_escape_no_markup_witness :
  let x := "&"%char in
  x ≠ "<"%char ∧ x ≠ ">"%char ∧ x ≠ Html.quot ∧ x ≠ "'"%char.
Proof.
  intros x. apply (html_escape_no_markup "<b>it's</b>" x).
  unfold Str.has_char. vm_compute. left.
Defined.

Lemma tmp_a_ascii e :
  listed (Scenario.posix Scenario.tmp_a) e → is_ascii (path e) = true.
Proof.
  intros (d & es & Hd & He). simpl in Hd. unfold Scenario.tmp_a in Hd.
  repeat case_match; simplify_eq;
    repeat (apply elem_of_cons in He as [->|He]; [reflexivity|]);
    by apply elem_of_nil in He.
Qed.

(** X18. When the name field holds the query as it was searched for,
    without white space around it, the path of every listed entry holds
    its name, and the query and the paths are of ASCII characters unless
    "Case sensitive" is checked, the label of every match a search
    reports has a highlighted piece. *)
Theorem every_result_highlighted os ui t s i p :
  start_search os ui = Started t →
  Str.strip (search_input ui) = search_input ui →
  (∀ e, listed os e → Str.substring_of (name e) (path e)) →
  (case_sensitive_checkbox ui = false →
   is_ascii (search_input ui) = true ∧
   ∀ e, listed os e → is_ascii (path e) = true) →
  reachable os t s →
  (WorkerThread i, FoundFile p) ∈ signals s →
  Str.substring_of span_open
    (html_text (search_input ui) (case_sensitive_checkbox ui) p).
Proof.
  intros Ht Hstrip Hpaths _ Hs Hev.
  destruct (started_thread_fields os ui t Ht) as [Hname Hcs].
  rewrite Hstrip in Hname.
  destruct (walk_inv_reachable os t s Hs) as (_ & Hsig & _).
  destruct (Hsig i _ Hev) as (e & He & Hemit & [= ->]).
  apply scan_entry_Emit in Hemit as (_ & _ & Htrue & Hin & _).
  set (q := search_input ui) in *. set (cs := case_sensitive_checkbox ui) in *.
  assert (target t = fold_case cs q) as Htarget
    by (unfold target, fold_case; by rewrite Hname, Hcs).
  assert (name_to_check t e = fold_case cs (name e)) as Hcheck
    by (unfold name_to_check, fold_case; by rewrite Hcs).
  rewrite Htarget, Hcheck in Hin. rewrite Htarget in Htrue.
  apply StrFacts.contains_spec in Hin.
  pose proof (substring_of_trans _ _ _ Hin
                (substring_of_fold_case cs _ _ (Hpaths e He))) as Hsub.
  apply StrFacts.contains_spec in Hsub.
  destruct (html_text_pieces q cs (path e)) as (segs & tail & H1 & H2 & _ & H4).
  destruct segs as [|[a m] segs].
  - cbn [plain_text] in H1. rewrite <-H1 in H4. rewrite H4 in Hsub; [done|].
    intros Hq. rewrite Hq in Htrue. by destruct cs.
  - rewrite H2. cbn [render]. by eexists _, _.
Qed.

Lemma every_result_highlighted_witness :
  Str.substring_of span_open (html_text "report" false "/tmp/a/x/report.TXT").
Proof.
  apply (every_result_highlighted (Scenario.posix Scenario.tmp_a)
           {| search_input := "report"; ext_input := "txt";
              entire_pc_checkbox := false; path_input := "/tmp/a";
              case_sensitive_checkbox := false |}
           Scenario.report_txt
           (exec (Scenario.posix Scenario.tmp_a) Scenario.report_txt
              Scenario.natural_run
              (start (Scenario.posix Scenario.tmp_a) Scenario.report_txt))
           0%nat).
  - reflexivity.
  - reflexivity.
  - apply tmp_a_paths.
  - intros _. split; [reflexivity|apply tmp_a_ascii].
  - by exists Scenario.natural_run.
  - vm_compute. left.
Defined.

(** ** The spinner *)

Lemma update_angle_iter n a :
  0 <= a < 360 →
  Nat.iter n update_angle a = (a + 6 * Z.of_nat n) mod 360.
Proof.
  intros Ha. induction n as [|n IH].
  - simpl. rewrite Z.add_0_r. by rewrite Z.mod_small.
  - rewrite Nat.iter_succ, IH. unfold update_angle.
    rewrite Zplus_mod_idemp_l. f_equal. lia.
Qed.

(** X19. The angle of the spinner stays in the range of a full turn, is six
    degrees times the number of ticks since it began at zero, and is back
    where it was after sixty ticks. *)
Theorem update_angle_turn :
  (∀ a, 0 <= update_angle a < 360) ∧
  (∀ n, Nat.iter n update_angle 0 = (6 * Z.of_nat n) mod 360) ∧
  (∀ a, 0 <= a < 360 → Nat.iter 60 update_angle a = a).
Proof.
  split_and!.
  - intros a. unfold update_angle. by apply Z.mod_pos_bound.
  - intros n. by rewrite update_angle_iter.
  - intros a Ha. rewrite update_angle_iter by done.
    change (6 * Z.of_nat 60) with (1 * 360).
    rewrite Z_mod_plus_full. by apply Z.mod_small.
Qed.

Lemma update_angle_turn_witness : Nat.iter 60 update_angle 354 = 354.
Proof. apply (proj2 (proj2 update_angle_turn) 354). lia. Defined.

(** ** A search that is not cancelled *)

Section Natural.
Context (os : OS) (self : FileSearchThread) (size : string → nat).
Hypothesis Hlimit : thread_limit os = None.
Hypothesis Hclean : no_unexpected_exception os.
Hypothesis Hsize : bounded_by os size.

Lemma living_set_worker i w w0 s :
  workers s !! i = Some w0 →
  (living (set_worker i w s) + live w0 = living s + live w)%nat.
Proof. intros Hi. unfold living. simpl. by apply sum_list_insert. Qed.

Lemma work_left_set_worker i w w0 s :
  workers s !! i = Some w0 →
  (work_left size (set_worker i w s) + worker_cost size w0
   = work_left size s + worker_cost size w)%nat.
Proof.
  intros Hi. unfold work_left. simpl.
  pose proof (sum_list_insert (worker_cost size) _ _ _ w Hi). lia.
Qed.

Lemma entry_cost_pos e : (1 ≤ entry_cost size e)%nat.
Proof. unfold entry_cost. repeat case_match; lia. Qed.

Lemma sum_list_snoc (l : list nat) x :
  sum_list (l ++ [x]) = (sum_list l + x)%nat.
Proof. induction l as [|y l IH]; simpl; lia. Qed.

Lemma sentinels_queued_snoc_None s :
  sentinels_queued (put None s) = S (sentinels_queued s).
Proof.
  unfold sentinels_queued. simpl. rewrite filter_app, length_app.
  rewrite filter_cons_True by done. simpl. lia.
Qed.

Lemma sentinels_queued_snoc_Some s p :
  sentinels_queued (put (Some p) s) = sentinels_queued s.
Proof.
  unfold sentinels_queued. simpl. rewrite filter_app, length_app.
  rewrite filter_cons_False by done. simpl. lia.
Qed.

Lemma living_le s : (living s ≤ length (workers s))%nat.
Proof.
  unfold living. induction (workers s) as [|w ws IH]; [done|].
  rewrite fmap_cons. cbn [sum_list_with length id].
  destruct w; cbn [live]; lia.
Qed.

Lemma living_pos s :
  (0 < living s)%nat → ∃ i w, workers s !! i = Some w ∧ w ≠ Exited.
Proof.
  unfold living. induction (workers s) as [|w ws IH]; [simpl; lia|].
  destruct w; try (by exists 0%nat; eexists).
  rewrite fmap_cons. cbn [sum_list_with live id Nat.add].
  intros (i & w & Hi & Hw)%IH. by exists (S i), w.
Qed.

Lemma living_zero s : living s = 0%nat → all_exited s = true.
Proof.
  unfold living, all_exited. induction (workers s) as [|w ws IH]; [done|].
  rewrite fmap_cons. cbn [sum_list_with id forallb].
  destruct w; cbn [live andb]; try lia. apply IH.
Qed.

Lemma pool_started s :
  reachable os self s →
  length (workers s) = max_workers os ∧ ∀ msg, runner s ≠ Failing msg.
Proof.
  intros (Hlen & _ & Hrun & _)%run_inv_reachable.
  unfold started_workers in Hlen. rewrite Hlimit in Hlen. split; [done|].
  intros msg Hr. rewrite Hr in Hrun. unfold after_submit in Hrun.
  by rewrite Hlimit in Hrun.
Qed.

Lemma calm_refl s : calm os size s s.
Proof. unfold calm. split_and!; auto. Qed.

Lemma nearer_calm s s1 s2 :
  calm os size s s1 → nearer os size s2 s1 → nearer os size s2 s.
Proof. intros (E1 & E2 & E3 & _). unfold nearer. rewrite E1, E2, E3. done. Qed.

(** What a step of a worker brings. *)
Lemma worker_step_progress i s :
  natural_inv os self s →
  let s' := worker_step os self i s in
  match workers s !! i with
  | Some (Scanning _ _) => (work_left size s' < work_left size s)%nat
  | Some AtGet =>
      match dir_queue s with
      | [] => calm os size s s' ∧ workers s' !! i = Some AtCheck
      | Some _ :: _ => (work_left size s' < work_left size s)%nat
      | None :: q =>
          work_left size s' = work_left size s ∧
          (living s' < living s)%nat ∧
          workers s' !! i = Some Exited ∧ dir_queue s' = q
      end
  | Some AtCheck => calm os size s s' ∧ workers s' !! i = Some AtGet
  | Some Exited | None => s' = s
  end.
Proof.
  intros (Hs & Hstop & Hsent). cbn zeta.
  pose proof (accounting os self s Hclean Hs) as Hacc.
  destruct (workers s !! i) as [[| |d [|e es]|]|] eqn:Hi.
  - (* the test of the stop event *)
    rewrite (worker_step_check _ _ _ _ Hi), Hstop.
    pose proof (work_left_set_worker i AtGet _ s Hi) as E1.
    pose proof (living_set_worker i AtGet _ s Hi) as E2.
    cbn [worker_cost live] in E1, E2.
    split; [|by eapply set_worker_lookup].
    unfold calm. split_and!; [lia|lia|done|done| |by left].
    intros j. cbn [workers set_worker].
    destruct (decide (j = i)) as [->|Hne].
    + right. left. split; [done|]. apply list_lookup_insert_eq.
      by eapply lookup_lt_Some.
    + left. by rewrite list_lookup_insert_ne.
  - (* the queue *)
    destruct (dir_queue s) as [|[d|] q] eqn:Hq.
    + rewrite (worker_step_timeout _ _ _ _ Hi Hq).
      pose proof (work_left_set_worker i AtCheck _ s Hi) as E1.
      pose proof (living_set_worker i AtCheck _ s Hi) as E2.
      cbn [worker_cost live] in E1, E2.
      split; [|by eapply set_worker_lookup].
      unfold calm. split_and!; [lia|lia|done|done| |by left].
      intros j. cbn [workers set_worker].
      destruct (decide (j = i)) as [->|Hne].
      * right. right. split_and!; [done| |done].
        apply list_lookup_insert_eq. by eapply lookup_lt_Some.
      * left. by rewrite list_lookup_insert_ne.
    + assert (work_left size (set_queue q s) + (2 + size d)
              = work_left size s)%nat as E0.
      { unfold work_left. cbn [dir_queue workers set_queue].
        rewrite Hq, fmap_cons. cbn [sum_list_with id item_cost]. lia. }
      destruct (scandir os d) as [es|x] eqn:Hd.
      * rewrite (worker_step_list _ _ _ _ _ _ _ Hi Hq Hd).
        pose proof (work_left_set_worker i (Scanning d es) _ (set_queue q s) Hi)
          as E1.
        pose proof (Hsize d es Hd) as E2.
        cbn [worker_cost] in E1. lia.
      * rewrite (worker_step_raise _ _ _ _ _ _ _ Hi Hq Hd).
        assert (workers (leave_scan (Some x) (set_queue q s)) !! i = Some AtGet)
          as Hi' by by frame.
        pose proof (work_left_set_worker i AtCheck _ _ Hi') as E1.
        assert (work_left size (leave_scan (Some x) (set_queue q s))
                = work_left size (set_queue q s)) as E3
          by (unfold work_left; by frame).
        cbn [worker_cost] in E1. lia.
    + unfold worker_step. rewrite Hi, Hq.
      destruct (task_done (set_queue q s)) as [s1|] eqn:Ht.
      * pose proof (task_done_frame _ _ Ht) as (_ & E2 & E3 & _).
        cbn [dir_queue workers set_queue] in E2, E3.
        assert (workers s1 !! i = Some AtGet) as Hi' by (by rewrite E3).
        pose proof (work_left_set_worker i Exited _ s1 Hi') as E4.
        pose proof (living_set_worker i Exited _ s1 Hi') as E5.
        assert (work_left size s1 = work_left size s) as E6.
        { unfold work_left. rewrite E2, E3, Hq, fmap_cons.
          cbn [sum_list_with id item_cost]. lia. }
        assert (living s1 = living s) as E7
          by (unfold living; by rewrite E3).
        cbn [worker_cost live] in E4, E5.
        split_and!; [lia|lia| |done].
        cbn [workers set_worker].
        apply list_lookup_insert_eq. rewrite E3. by eapply lookup_lt_Some.
      * apply task_done_None in Ht. cbn [unfinished_tasks set_queue] in Ht.
        cbn [length] in Hacc. lia.
  - (* the end of a listing *)
    rewrite (worker_step_end _ _ _ _ _ Hi).
    assert (workers (leave_scan None s) !! i = Some (Scanning d []))
      as Hi' by by frame.
    pose proof (work_left_set_worker i AtCheck _ _ Hi') as E1.
    assert (work_left size (leave_scan None s) = work_left size s) as E3
      by (unfold work_left; by frame).
    cbn [worker_cost] in E1. lia.
  - (* an entry of a listing *)
    rewrite (worker_step_entry _ _ _ _ _ _ _ Hi).
    pose proof (entry_cost_pos e) as Hpos.
    assert (worker_cost size (Scanning d (e :: es))
            = (entry_cost size e + worker_cost size (Scanning d es))%nat)
      as Ecost.
    { cbn [worker_cost]. rewrite fmap_cons. cbn [sum_list_with id]. lia. }
    destruct (scan_entry os self e) as [p|p| |x] eqn:He.
    + apply scan_entry_Enqueue in He as [-> Hdir].
      pose proof (work_left_set_worker i (Scanning d es) _
                    (put (Some (path e)) s) Hi) as E1.
      assert (work_left size (put (Some (path e)) s)
              = (work_left size s + (2 + size (path e)))%nat) as E3.
      { unfold work_left. cbn [dir_queue workers put].
        rewrite fmap_app, fmap_cons, fmap_nil, sum_list_snoc.
        cbn [item_cost]. lia. }
      assert (entry_cost size e = (3 + size (path e))%nat) as E4
        by (unfold entry_cost; by rewrite Hdir).
      lia.
    + pose proof (work_left_set_worker i (Scanning d es) _
                    (emit (WorkerThread i) (FoundFile p) s) Hi) as E1.
      assert (work_left size (emit (WorkerThread i) (FoundFile p) s)
              = work_left size s) as E3 by done.
      lia.
    + pose proof (work_left_set_worker i (Scanning d es) _ s Hi) as E1.
      lia.
    + assert (workers (leave_scan (Some x) s) !! i = Some (Scanning d (e :: es)))
        as Hi' by by frame.
      pose proof (work_left_set_worker i AtCheck _ _ Hi') as E1.
      assert (work_left size (leave_scan (Some x) s) = work_left size s) as E3
        by (unfold work_left; by frame).
      cbn [worker_cost] in E1. cbn [worker_cost] in Ecost. lia.
  - by apply worker_step_exited.
  - unfold worker_step. by rewrite Hi.
Qed.

(** What a step of the thread of [run] brings. *)
Lemma run_step_progress s :
  natural_inv os self s →
  let s' := run_step os s in
  match runner s with
  | Polling => calm os size s s' ∧ runner s' = Looking
  | Looking =>
      calm os size s s' ∧
      runner s' = if queue_empty s then Grace else Polling
  | Grace =>
      if queue_empty s then nearer os size s' s
      else calm os size s s' ∧ runner s' = Polling
  | Stopping _ | Finishing => nearer os size s' s
  | Joining | Failing _ => if all_exited s then nearer os size s' s else s' = s
  | Done => s' = s
  end.
Proof.
  intros (Hs & Hstop & Hsent). cbn zeta. unfold run_step, queue_empty.
  assert (∀ r, work_left size (set_runner r s) = work_left size s) as E1
    by done.
  assert (∀ r, living (set_runner r s) = living s) as E2 by done.
  assert (∀ r t ev, work_left size (set_runner r (emit t ev s))
                    = work_left size s) as E3 by done.
  assert (∀ r t ev, living (set_runner r (emit t ev s)) = living s) as E4
    by done.
  assert (∀ r, work_left size (set_runner r (put None s)) = work_left size s)
    as E5.
  { intros r. unfold work_left. cbn [dir_queue workers set_runner put].
    rewrite fmap_app, fmap_cons, fmap_nil, sum_list_snoc.
    cbn [item_cost]. lia. }
  assert (∀ r, living (set_runner r (put None s)) = living s) as E6 by done.
  destruct (runner s) as [| | |[|k]| |msg| |] eqn:Hr.
  - rewrite Hstop. split; [|done]. unfold calm.
    rewrite E1, E2. cbn [runner set_runner dir_queue workers].
    rewrite Hr. split_and!; auto.
  - destruct (dir_queue s) eqn:Hq; (split; [|done]); unfold calm;
      rewrite E1, E2; cbn [runner set_runner dir_queue workers];
      rewrite Hr; split_and!; auto.
    + right. right. left. by rewrite Hq.
    + right. right. right. by rewrite Hq.
  - destruct (dir_queue s) eqn:Hq.
    + unfold nearer. rewrite E1, E2. cbn [runner set_runner]. rewrite Hr.
      cbn [phase_rank]. right. split; [done|]. right. split; [done|lia].
    + split; [|done]. unfold calm.
      rewrite E1, E2. cbn [runner set_runner dir_queue workers].
      rewrite Hr. split_and!; auto.
      right. right. right. by rewrite Hq.
  - unfold nearer. rewrite E1, E2. cbn [runner set_runner]. rewrite Hr.
    cbn [phase_rank]. right. split; [done|]. right. split; [done|lia].
  - unfold nearer. rewrite E5, E6. cbn [runner set_runner]. rewrite Hr.
    cbn [phase_rank]. right. split; [done|]. right. split; [done|lia].
  - destruct (all_exited s); [|done].
    unfold nearer. rewrite E1, E2. cbn [runner set_runner]. rewrite Hr.
    cbn [phase_rank]. right. split; [done|]. right. split; [done|lia].
  - destruct (all_exited s); [|done].
    unfold nearer. rewrite E3, E4. cbn [runner set_runner]. rewrite Hr.
    cbn [phase_rank]. right. split; [done|]. right. split; [done|lia].
  - unfold nearer. rewrite E3, E4. cbn [runner set_runner]. rewrite Hr.
    cbn [phase_rank]. right. split; [done|]. right. split; [done|lia].
  - done.
Qed.

Lemma living_replicate n : sum_list (live <$> replicate n AtCheck) = n.
Proof.
  induction n as [|n IH]; [done|].
  cbn [replicate]. rewrite fmap_cons. cbn [sum_list_with id live]. lia.
Qed.

Lemma no_sentinel_roots (l : list string) :
  filter (λ x : option string, x = None) (Some <$> l) = [].
Proof.
  induction l as [|r l IH]; [done|].
  rewrite fmap_cons, filter_cons_False by done. exact IH.
Qed.

Lemma natural_inv_start : natural_inv os self (start os self).
Proof.
  split_and!; [apply reachable_start|done|].
  unfold sentinels_queued, living. cbn [start dir_queue workers runner].
  rewrite no_sentinel_roots, living_replicate.
  unfold after_submit, started_workers. by rewrite Hlimit.
Qed.

Lemma sentinels_queued_cons x q s :
  dir_queue s = x :: q →
  sentinels_queued s =
    ((match x with None => 1 | Some _ => 0 end) + length (filter (λ y, y = None) q))%nat.
Proof.
  intros Hq. unfold sentinels_queued. rewrite Hq. destruct x.
  - by rewrite filter_cons_False.
  - by rewrite filter_cons_True.
Qed.

(** A step of a worker keeps a sentinel for each worker in its loop. *)
Lemma worker_step_balance i s :
  natural_inv os self s →
  (sentinels_queued (worker_step os self i s) + living s
   = sentinels_queued s + living (worker_step os self i s))%nat.
Proof.
  intros (Hs & Hstop & Hsent).
  pose proof (accounting os self s Hclean Hs) as Hacc.
  destruct (worker_step_move os self i s) as
    [ |Hi|Hi Hq|q s' Hi Hq Ht|q Hi Hq Ht|d q es Hi Hq Hd|d q x Hi Hq Hd
    |d Hi|d e es p Hi He|d e es p Hi He|d e es Hi He|d e es x Hi He].
  - done.
  - rewrite Hstop. pose proof (living_set_worker i AtGet _ s Hi) as E.
    cbn [live] in E. unfold sentinels_queued. cbn [dir_queue set_worker]. lia.
  - pose proof (living_set_worker i AtCheck _ s Hi) as E.
    cbn [live] in E. unfold sentinels_queued. cbn [dir_queue set_worker]. lia.
  - pose proof (task_done_frame _ _ Ht) as (_ & E2 & E3 & _).
    cbn [dir_queue workers set_queue] in E2, E3.
    assert (workers s' !! i = Some AtGet) as Hi' by (by rewrite E3).
    pose proof (living_set_worker i Exited _ s' Hi') as E.
    assert (living s' = living s) as E4 by (unfold living; by rewrite E3).
    rewrite (sentinels_queued_cons _ _ _ Hq).
    unfold sentinels_queued at 1. cbn [dir_queue set_worker]. rewrite E2.
    cbn [live] in E. lia.
  - apply task_done_None in Ht. cbn [unfinished_tasks set_queue] in Ht.
    rewrite Hq in Hacc. cbn [length] in Hacc. lia.
  - pose proof (living_set_worker i (Scanning d es) _ (set_queue q s) Hi) as E.
    assert (living (set_queue q s) = living s) as E4 by done.
    rewrite (sentinels_queued_cons _ _ _ Hq).
    unfold sentinels_queued at 1. cbn [dir_queue set_worker set_queue].
    cbn [live] in E. lia.
  - assert (workers (leave_scan (Some x) (set_queue q s)) !! i = Some AtGet)
      as Hi' by by frame.
    pose proof (living_set_worker i AtCheck _ _ Hi') as E.
    assert (living (leave_scan (Some x) (set_queue q s)) = living s) as E4
      by (unfold living; by frame).
    rewrite (sentinels_queued_cons _ _ _ Hq).
    unfold sentinels_queued at 1. frame. cbn [live] in E. lia.
  - assert (workers (leave_scan None s) !! i = Some (Scanning d []))
      as Hi' by by frame.
    pose proof (living_set_worker i AtCheck _ _ Hi') as E.
    assert (living (leave_scan None s) = living s) as E4
      by (unfold living; by frame).
    unfold sentinels_queued. frame. cbn [live] in E. lia.
  - pose proof (living_set_worker i (Scanning d es) _ (put (Some p) s) Hi) as E.
    assert (living (put (Some p) s) = living s) as E4 by done.
    assert (sentinels_queued (set_worker i (Scanning d es) (put (Some p) s))
            = sentinels_queued (put (Some p) s)) as -> by done.
    rewrite sentinels_queued_snoc_Some. cbn [live] in E. lia.
  - pose proof (living_set_worker i (Scanning d es) _
                  (emit (WorkerThread i) (FoundFile p) s) Hi) as E.
    assert (living (emit (WorkerThread i) (FoundFile p) s) = living s) as E4
      by done.
    unfold sentinels_queued. cbn [dir_queue set_worker emit].
    cbn [live] in E. lia.
  - pose proof (living_set_worker i (Scanning d es) _ s Hi) as E.
    unfold sentinels_queued. cbn [dir_queue set_worker]. cbn [live] in E. lia.
  - assert (workers (leave_scan (Some x) s) !! i = Some (Scanning d (e :: es)))
      as Hi' by by frame.
    pose proof (living_set_worker i AtCheck _ _ Hi') as E.
    assert (living (leave_scan (Some x) s) = living s) as E4
      by (unfold living; by frame).
    unfold sentinels_queued. frame. cbn [live] in E. lia.
Qed.

Lemma natural_inv_step a s :
  a ≠ Cancel → natural_inv os self s → natural_inv os self (step os self a s).
Proof.
  intros Ha Hinv. pose proof Hinv as (Hs & Hstop & Hsent).
  split_and!; [by apply reachable_step| |].
  - destruct a; cbn [step];
      [by rewrite worker_step_stop|by rewrite run_step_stop|done].
  - destruct a as [i| |]; cbn [step]; [| |done].
    + pose proof (worker_step_balance i s Hinv) as E.
      rewrite worker_step_runner. lia.
    + unfold run_step. rewrite Hstop.
      assert (∀ r, sentinels_queued (set_runner r s) = sentinels_queued s) as E1
        by done.
      assert (∀ r, living (set_runner r s) = living s) as E2 by done.
      assert (∀ r t ev, sentinels_queued (set_runner r (emit t ev s))
                        = sentinels_queued s) as E3 by done.
      assert (∀ r t ev, living (set_runner r (emit t ev s)) = living s) as E4
        by done.
      assert (∀ r, sentinels_queued (set_runner r (put None s))
                   = S (sentinels_queued s)) as E5
        by (intros r; apply sentinels_queued_snoc_None).
      assert (∀ r, living (set_runner r (put None s)) = living s) as E6 by done.
      destruct (runner s) as [| | |[|k]| |msg| |] eqn:Hr;
        repeat case_match;
        rewrite ?E1, ?E2, ?E3, ?E4, ?E5, ?E6, ?Hr;
        cbn [runner set_runner pending] in *; lia.
Qed.

Lemma never_cancelled_tail sched :
  never_cancelled sched → never_cancelled (sched ∘ S).
Proof. intros H n. apply H. Qed.

Lemma never_cancelled_shift sched n :
  never_cancelled sched → never_cancelled (λ k, sched (n + k)%nat).
Proof. intros H k. apply H. Qed.

Lemma fair_tail pool sched : fair pool sched → fair pool (sched ∘ S).
Proof. intros H. exact (fair_shift pool sched 1 H). Qed.

Lemma natural_inv_run_to sched n s :
  never_cancelled sched → natural_inv os self s →
  natural_inv os self (run_to os self sched n s).
Proof.
  revert sched s. induction n as [|n IH]; intros sched s Hnc Hinv; [done|].
  cbn [run_to]. apply IH; [by apply never_cancelled_tail|].
  by apply natural_inv_step.
Qed.

(** A step that is not a cancellation brings the search nearer to its
    end or leaves it as near. *)
Lemma step_calm a s :
  natural_inv os self s → a ≠ Cancel →
  nearer os size (step os self a s) s ∨ calm os size s (step os self a s).
Proof.
  intros Hinv Ha. destruct a as [i| |]; cbn [step]; [| |done].
  - pose proof (worker_step_progress i s Hinv) as H. cbn zeta in H.
    destruct (workers s !! i) as [[| |d rest|]|].
    + right. by destruct H.
    + destruct (dir_queue s) as [|[d|] q].
      * right. by destruct H.
      * left. by left.
      * left. right. destruct H as (? & ? & _). split; [done|by left].
    + left. by left.
    + right. rewrite H. apply calm_refl.
    + right. rewrite H. apply calm_refl.
  - pose proof (run_step_progress s Hinv) as H. cbn zeta in H.
    destruct (runner s); try (by left);
      try (right; by destruct H);
      try (right; rewrite H; by apply calm_refl).
    + destruct (queue_empty s); [by left|right; by destruct H].
    + destruct (all_exited s); [by left|right; rewrite H; apply calm_refl].
    + destruct (all_exited s); [by left|right; rewrite H; apply calm_refl].
Qed.

(** When a thread keeps a way to bring the search nearer to its end
    through every step that leaves it as near, a fair schedule brings the
    search nearer. *)
Lemma eventually (P : state → Prop) (c : state → nat) (a : action) pool :
  (a = Run ∨ ∃ i, (i < pool)%nat ∧ a = Work i) →
  (∀ s s', P s → calm os size s s' → P s' ∧ (c s' ≤ c s)%nat) →
  (∀ s, natural_inv os self s → P s →
        nearer os size (step os self a s) s ∨
        (calm os size s (step os self a s) ∧ (c (step os self a s) < c s)%nat)) →
  ∀ s sched,
    natural_inv os self s → P s → fair pool sched → never_cancelled sched →
    ∃ n, nearer os size (run_to os self sched n s) s.
Proof.
  intros Ha H1 H2 s sched. remember (c s) as k eqn:Hk.
  assert (c s ≤ k)%nat as Hc by lia. clear Hk. revert s sched Hc.
  induction k as [k IHk] using lt_wf_ind.
  intros s sched Hc Hinv HP Hfair Hnc.
  destruct (Hfair a 0%nat Ha) as (m & _ & Hm).
  revert s sched Hc Hinv HP Hfair Hnc Hm.
  induction m as [|m IHm]; intros s sched Hc Hinv HP Hfair Hnc Hm.
  - destruct (H2 s Hinv HP) as [Hn|[Hcalm Hlt]].
    + exists 1%nat. cbn [run_to]. by rewrite Hm.
    + destruct (H1 _ _ HP Hcalm) as [HP' _].
      assert (a ≠ Cancel) as Hne by (by destruct Ha as [->|(i & _ & ->)]).
      destruct (IHk (c (step os self a s)) ltac:(lia) (step os self a s)
                  (sched ∘ S)) as [n Hn];
        [lia|by apply natural_inv_step|done|by apply fair_tail
        |by apply never_cancelled_tail|].
      exists (S n). cbn [run_to]. rewrite Hm. by eapply nearer_calm.
  - destruct (step_calm (sched 0%nat) s Hinv (Hnc 0%nat)) as [Hn|Hcalm].
    + by exists 1%nat.
    + destruct (H1 _ _ HP Hcalm) as [HP' Hc'].
      destruct (IHm (step os self (sched 0%nat) s) (sched ∘ S)) as [n Hn];
        [lia|by apply natural_inv_step|done|by apply fair_tail
        |by apply never_cancelled_tail|done|].
      exists (S n). cbn [run_to]. by eapply nearer_calm.
Qed.

(** The thread of [run] moves on from the places where it does not
    wait. *)
Lemma progress_run s sched :
  natural_inv os self s →
  match runner s with
  | Stopping _ | Finishing => True
  | Joining => living s = 0%nat
  | _ => False
  end →
  fair (max_workers os) sched → never_cancelled sched →
  ∃ n, nearer os size (run_to os self sched n s) s.
Proof.
  intros Hinv Hr.
  apply (eventually
           (λ s', runner s' = runner s ∧ living s' = living s)
           (λ _, 0%nat) Run); [by left| | |done|done].
  - intros s1 s2 [E1 E2] (_ & El & _ & _ & _ & Hrun). split; [|done].
    split; [|congruence].
    destruct Hrun as [->|[[E _]|[(E & _)|(E & _)]]]; [done|..];
      rewrite E1 in E; destruct (runner s); try done.
  - intros s1 Hinv1 [E1 E2]. left.
    pose proof (run_step_progress s1 Hinv1) as H. cbn zeta in H.
    rewrite E1 in H. cbn [step].
    destruct (runner s); try done.
    rewrite living_zero in H by congruence. done.
Qed.

(** A worker inside a listing brings the search nearer to its end. *)
Lemma progress_scanning i d rest s sched :
  natural_inv os self s →
  workers s !! i = Some (Scanning d rest) →
  fair (max_workers os) sched → never_cancelled sched →
  ∃ n, nearer os size (run_to os self sched n s) s.
Proof.
  intros Hinv Hi.
  assert (i < max_workers os)%nat as Hlt.
  { destruct Hinv as (Hs & _). destruct (pool_started s Hs) as [<- _].
    by eapply lookup_lt_Some. }
  apply (eventually
           (λ s', ∃ d rest, workers s' !! i = Some (Scanning d rest))
           (λ _, 0%nat) (Work i)); [right; by exists i| | |done|by eauto].
  - intros s1 s2 (d1 & rest1 & E) (_ & _ & _ & _ & Hw & _). split; [|done].
    destruct (Hw i) as [->|[[E' _]|[E' _]]]; [by eauto|congruence..].
  - intros s1 Hinv1 (d1 & rest1 & E). left. left.
    pose proof (worker_step_progress i s1 Hinv1) as H. cbn zeta in H.
    by rewrite E in H.
Qed.

(** A worker at the queue, or about to go there, brings the search
    nearer to its end when the queue holds an item. *)
Lemma progress_queue i x q s sched :
  natural_inv os self s →
  dir_queue s = x :: q →
  workers s !! i = Some AtCheck ∨ workers s !! i = Some AtGet →
  fair (max_workers os) sched → never_cancelled sched →
  ∃ n, nearer os size (run_to os self sched n s) s.
Proof.
  intros Hinv Hq Hi.
  assert (i < max_workers os)%nat as Hlt.
  { destruct Hinv as (Hs & _). destruct (pool_started s Hs) as [<- _].
    destruct Hi; by eapply lookup_lt_Some. }
  apply (eventually
           (λ s', dir_queue s' ≠ [] ∧
                  (workers s' !! i = Some AtCheck ∨
                   workers s' !! i = Some AtGet))
           (λ s', match workers s' !! i with Some AtCheck => 1 | _ => 0 end%nat)
           (Work i)); [right; by exists i| | |done|].
  - intros s1 s2 [E1 E2] (_ & _ & _ & Eq & Hw & _).
    rewrite Eq. destruct (Hw i) as [->|[[E E']|(_ & _ & E)]]; [done| |done].
    rewrite E, E'. split; [auto|lia].
  - intros s1 Hinv1 [E1 E2].
    pose proof (worker_step_progress i s1 Hinv1) as H. cbn zeta in H.
    cbn [step]. destruct E2 as [E2|E2]; rewrite E2 in *.
    + right. destruct H as [H ->]. split; [done|lia].
    + left. destruct (dir_queue s1) as [|[d|] q1]; [done|by left|].
      right. destruct H as (? & ? & _). split; [done|by left].
  - split; [by rewrite Hq|done].
Qed.

(** With the queue empty, the waiting loop of [run] goes on to the
    sentinels. *)
Lemma progress_idle s sched :
  natural_inv os self s →
  dir_queue s = [] → waiting_loop (runner s) = true →
  fair (max_workers os) sched → never_cancelled sched →
  ∃ n, nearer os size (run_to os self sched n s) s.
Proof.
  intros Hinv Hq Hr.
  apply (eventually
           (λ s', dir_queue s' = [] ∧ waiting_loop (runner s') = true)
           (λ s', match runner s' with
                  | Polling => 2 | Looking => 1 | _ => 0
                  end%nat)
           Run); [by left| | |done|done].
  - intros s1 s2 [E1 E2] (_ & _ & _ & Eq & _ & Hrun).
    rewrite Eq.
    destruct Hrun as [->|[[E E']|[(E & E' & _)|(_ & _ & E)]]];
      [done| | |done]; rewrite E, E'; split; auto; lia.
  - intros s1 Hinv1 [E1 E2].
    pose proof (run_step_progress s1 Hinv1) as H. cbn zeta in H.
    cbn [step]. unfold queue_empty in H. rewrite E1 in H.
    destruct (runner s1); try done.
    + right. destruct H as [H ->]. split; [done|lia].
    + right. destruct H as [H ->]. split; [done|lia].
    + by left.
Qed.

(** As long as the thread of [run] is not done, a fair schedule without
    cancellation brings the search nearer to its end. *)
Lemma progress s sched :
  natural_inv os self s → runner s ≠ Done →
  fair (max_workers os) sched → never_cancelled sched →
  ∃ n, nearer os size (run_to os self sched n s) s.
Proof.
  intros Hinv Hr Hfair Hnc. pose proof Hinv as (Hs & Hstop & Hsent).
  destruct (pool_started s Hs) as [Hlen Hfail].
  pose proof (max_workers_bounds os) as Hpool.
  assert ((0 < living s)%nat →
          ∃ n, nearer os size (run_to os self sched n s) s) as Hlive.
  { intros Hpos. destruct (living_pos s Hpos) as (i & w & Hi & Hw).
    destruct w as [| |d rest|]; [| |by eapply progress_scanning|done].
    - destruct (dir_queue s) as [|x q] eqn:Hq; [|by eapply progress_queue; eauto].
      destruct (waiting_loop (runner s)) eqn:Hloop; [by apply progress_idle|].
      unfold sentinels_queued in Hsent. rewrite Hq in Hsent.
      destruct (runner s) as [| | |k| |msg| |] eqn:Hr'; try done.
      + by apply progress_run; rewrite ?Hr'.
      + cbn [pending filter length] in Hsent. simpl in Hsent. lia.
      + by destruct (Hfail msg).
      + by apply progress_run; rewrite ?Hr'.
    - destruct (dir_queue s) as [|x q] eqn:Hq; [|by eapply progress_queue; eauto].
      destruct (waiting_loop (runner s)) eqn:Hloop; [by apply progress_idle|].
      unfold sentinels_queued in Hsent. rewrite Hq in Hsent.
      destruct (runner s) as [| | |k| |msg| |] eqn:Hr'; try done.
      + by apply progress_run; rewrite ?Hr'.
      + cbn [pending filter length] in Hsent. simpl in Hsent. lia.
      + by destruct (Hfail msg).
      + by apply progress_run; rewrite ?Hr'. }
  destruct (runner s) as [| | |k| |msg| |] eqn:Hr'.
  - apply Hlive. cbn [pending] in Hsent. lia.
  - apply Hlive. cbn [pending] in Hsent. lia.
  - apply Hlive. cbn [pending] in Hsent. lia.
  - by apply progress_run; rewrite ?Hr'.
  - destruct (decide (living s = 0%nat)) as [Hz|Hnz].
    + by apply progress_run; rewrite ?Hr'.
    + apply Hlive. lia.
  - by destruct (Hfail msg).
  - by apply progress_run; rewrite ?Hr'.
  - done.
Qed.

(** An uncancelled search over a finite tree comes to its end under
    every fair schedule. *)
Lemma natural_finishes s sched :
  natural_inv os self s →
  fair (max_workers os) sched → never_cancelled sched →
  ∃ n, runner (run_to os self sched n s) = Done.
Proof.
  remember (work_left size s) as w eqn:Hw. revert s sched Hw.
  induction w as [w IHw] using (well_founded_induction lt_wf).
  intros s sched Hw. remember (living s) as l eqn:Hl. revert s sched Hw Hl.
  induction l as [l IHl] using (well_founded_induction lt_wf).
  intros s sched Hw Hl.
  remember (phase_rank os (runner s)) as r eqn:Hrk. revert s sched Hw Hl Hrk.
  induction r as [r IHr] using (well_founded_induction lt_wf).
  intros s sched -> -> -> Hinv Hfair Hnc.
  assert (runner s = Done ∨ runner s ≠ Done) as [Hr|Hr]
    by (destruct (runner s); auto).
  { by exists 0%nat. }
  destruct (progress s sched Hinv Hr Hfair Hnc) as [n1 Hnear].
  set (s1 := run_to os self sched n1 s) in *.
  assert (natural_inv os self s1) as Hinv1 by by apply natural_inv_run_to.
  assert (fair (max_workers os) (λ k, sched (n1 + k)%nat)) as Hfair1
    by by apply fair_shift.
  assert (never_cancelled (λ k, sched (n1 + k)%nat)) as Hnc1
    by by apply never_cancelled_shift.
  assert (∃ n, runner (run_to os self (λ k, sched (n1 + k)%nat) n s1) = Done)
    as [n Hn].
  { destruct Hnear as [Hlt|[Heq [Hlt|[Heq' Hlt]]]].
    - by eapply (IHw _ Hlt).
    - eapply (IHl _ Hlt); done.
    - eapply (IHr _ Hlt); done. }
  exists (n1 + n)%nat. by rewrite run_to_add.
Qed.

End Natural.

Lemma tmp_a_bounded : bounded_by (Scenario.posix Scenario.tmp_a) tmp_a_size.
Proof.
  intros d es. cbn [scandir Scenario.posix]. unfold Scenario.tmp_a.
  destruct (String.eqb_spec d "/tmp/a") as [->|_];
    [intros [= <-]; vm_compute; lia|].
  destruct (String.eqb_spec d "/tmp/a/x") as [->|_];
    [intros [= <-]; vm_compute; lia|].
  destruct (String.eqb_spec d "/tmp/a/y") as [->|_];
    [intros [= <-]; vm_compute; lia|done].
Qed.

Lemma round_robin_never_cancelled pool : never_cancelled (round_robin pool).
Proof. intros n. unfold round_robin. by case_match. Qed.

(** X20. A search that is not cancelled comes to its end by itself: when
    every thread of the pool could be started, no listing and no entry
    raises an unexpected exception and the tree below the roots is
    finite, every schedule in which the thread of [run] and each worker
    move again and again reaches a state in which [run] is done, all
    workers have left their loops and [finished] is the last signal. *)
Theorem natural_search_finishes os self size sched :
  thread_limit os = None → no_unexpected_exception os →
  bounded_by os size →
  fair (max_workers os) sched → never_cancelled sched →
  ∃ n, let s := run_to os self sched n (start os self) in
       runner s = Done ∧ all_exited s = true ∧
       last (stream s) = Some Finished.
Proof.
  intros Hlimit Hclean Hsize Hfair Hnc.
  destruct (natural_finishes os self size Hlimit Hclean Hsize
              (start os self) sched) as [n Hn];
    [by apply natural_inv_start|done|done|].
  exists n. cbn zeta. set (s := run_to os self sched n (start os self)) in *.
  assert (reachable os self s) as Hs
    by (subst s; rewrite run_to_exec; by eexists).
  split_and!; [done| |].
  - destruct (run_inv_reachable _ _ _ Hs) as (_ & _ & Hall & _).
    by rewrite Hn in Hall.
  - rewrite (stream_shape _ _ _ Hs), Hn. apply last_snoc.
Qed.

Lemma natural_search_finishes_witness :
  let os := Scenario.posix Scenario.tmp_a in
  let self := Scenario.report_txt in
  ∃ n, let s := run_to os self (round_robin 2) n (start os self) in
       runner s = Done ∧ all_exited s = true ∧
       last (stream s) = Some Finished.
Proof.
  intros os self.
  apply (natural_search_finishes os self tmp_a_size (round_robin 2)).
  - reflexivity.
  - apply tmp_a_no_unexpected_exception.
  - apply tmp_a_bounded.
  - apply round_robin_fair.
  - apply round_robin_never_cancelled.
Defined.

(** ** Where a search looks *)

Section Tree.
Context (os : OS) (self : FileSearchThread).

Lemma tree_inv_start : tree_inv os self (start os self).
Proof.
  split_and!; cbn [start dir_queue workers signals].
  - intros p (r & [= ->] & Hr)%list_elem_of_fmap. by apply below_root.
  - by intros i d rest [? _]%lookup_replicate.
  - by intros i ev ?%elem_of_nil.
Qed.

(** A worker that moves on in its listing, or leaves it. *)
Lemma tree_inv_set_worker i w s s' :
  tree_inv os self s →
  dir_queue s' = dir_queue s → workers s' = workers s →
  signals s' = signals s →
  (∀ d rest, w = Scanning d rest →
     below os self d ∧
     ∃ es, scandir os d = Listing es ∧ ∀ e, e ∈ rest → e ∈ es) →
  tree_inv os self (set_worker i w s').
Proof.
  intros (Hq & Hw & Hs) Eq Ew Es Hnew. split_and!; cbn [set_worker
    dir_queue workers signals].
  - by rewrite Eq.
  - intros j d rest [(-> & Hj & _)|[_ Hj]]%list_lookup_insert_Some.
    + by apply Hnew.
    + rewrite Ew in Hj. by eapply Hw.
  - by rewrite Es.
Qed.

Lemma tree_inv_worker_step i s :
  tree_inv os self s → tree_inv os self (worker_step os self i s).
Proof.
  intros Hinv. pose proof Hinv as (Hq & Hw & Hs).
  destruct (worker_step_move os self i s) as
    [ |Hi|Hi Hqe|q s' Hi Hqe Ht|q Hi Hqe Ht|d q es Hi Hqe Hd|d q x Hi Hqe Hd
    |d Hi|d e es p Hi He|d e es p Hi He|d e es Hi He|d e es x Hi He].
  - done.
  - apply (tree_inv_set_worker _ _ s); try done. by destruct (stop_event s).
  - by apply (tree_inv_set_worker _ _ s).
  - pose proof (task_done_frame _ _ Ht) as (_ & E2 & E3 & _ & E5 & _).
    cbn [dir_queue workers signals set_queue] in E2, E3, E5.
    split_and!; cbn [set_worker dir_queue workers signals].
    + rewrite E2. intros p Hp. apply Hq. rewrite Hqe. by right.
    + rewrite E3.
      intros j d rest [(_ & [=] & _)|[_ Hj]]%list_lookup_insert_Some.
      by eapply Hw.
    + by rewrite E5.
  - split_and!; frame.
    + intros p Hp. apply Hq. rewrite Hqe. by right.
    + intros j d rest [(_ & [=] & _)|[_ Hj]]%list_lookup_insert_Some.
      by eapply Hw.
    + done.
  - split_and!; frame.
    + intros p Hp. apply Hq. rewrite Hqe. by right.
    + intros j d' rest [(_ & [= <- <-] & _)|[_ Hj]]%list_lookup_insert_Some.
      * split; [apply Hq; rewrite Hqe; by left|]. by exists es.
      * by eapply Hw.
    + done.
  - split_and!; frame.
    + intros p Hp. apply Hq. rewrite Hqe. by right.
    + intros j d' rest [(_ & [=] & _)|[_ Hj]]%list_lookup_insert_Some.
      by eapply Hw.
    + done.
  - apply (tree_inv_set_worker _ _ s); by frame.
  - (* a subdirectory is put on the queue *)
    apply scan_entry_Enqueue in He as [-> Hdir].
    destruct (Hw _ _ _ Hi) as (Hd & es0 & Hes0 & Hsub).
    split_and!; frame.
    + intros p [Hp|[= ->]%list_elem_of_singleton]%elem_of_app; [by apply Hq|].
      eapply below_entry; [done..|apply Hsub; by left|done].
    + intros j d' rest [(_ & [= <- <-] & _)|[_ Hj]]%list_lookup_insert_Some.
      * split; [done|]. exists es0. split; [done|].
        intros e' He'. apply Hsub. by right.
      * by eapply Hw.
    + done.
  - (* a match is emitted *)
    apply scan_entry_Emit in He as (-> & Hreg & _).
    destruct (Hw _ _ _ Hi) as (Hd & es0 & Hes0 & Hsub).
    split_and!; frame.
    + done.
    + intros j d' rest [(_ & [= <- <-] & _)|[_ Hj]]%list_lookup_insert_Some.
      * split; [done|]. exists es0. split; [done|].
        intros e' He'. apply Hsub. by right.
      * by eapply Hw.
    + intros j ev [?|[= -> ->]%list_elem_of_singleton]%elem_of_app;
        [by eauto|].
      exists d, es0, e. split_and!; [done..|apply Hsub; by left|done|done].
  - (* the entry is passed over *)
    destruct (Hw _ _ _ Hi) as (Hd & es0 & Hes0 & Hsub).
    apply (tree_inv_set_worker _ _ s); try done.
    intros ? ? [= <- <-]. split; [done|]. exists es0. split; [done|].
    intros e' He'. apply Hsub. by right.
  - apply (tree_inv_set_worker _ _ s); by frame.
Qed.

Lemma tree_inv_run_step s : tree_inv os self s → tree_inv os self (run_step os s).
Proof.
  intros (Hq & Hw & Hs). unfold run_step.
  destruct (runner s) as [| | |[|k]| | | |]; try done;
    repeat case_match; try done; split_and!; frame; try done.
  - intros p [?|[=]%list_elem_of_singleton]%elem_of_app. auto.
  - intros j ev [?|[=]%list_elem_of_singleton]%elem_of_app. eauto.
  - intros j ev [?|[=]%list_elem_of_singleton]%elem_of_app. eauto.
Qed.

Lemma tree_inv_reachable s : reachable os self s → tree_inv os self s.
Proof.
  apply reachable_ind; [apply tree_inv_start|].
  intros [i| |] s' _ Hinv; cbn [step].
  - by apply tree_inv_worker_step.
  - by apply tree_inv_run_step.
  - done.
Qed.

End Tree.

(** X21. A search looks below its roots only: every directory a worker
    lists is a root or a directory, not a symbolic link, listed in a
    directory below the roots, and every match it reports is the path of
    a regular file listed in such a directory. *)
Theorem results_below_roots os self s :
  reachable os self s →
  (∀ i d rest, workers s !! i = Some (Scanning d rest) → below os self d) ∧
  (∀ i ev,
     (WorkerThread i, ev) ∈ signals s →
     ∃ d es e, below os self d ∧ scandir os d = Listing es ∧ e ∈ es ∧
               probe e = inr Regular ∧ ev = FoundFile (path e)).
Proof.
  intros (_ & Hw & Hs)%tree_inv_reachable. split; [|done].
  intros i d rest Hi. by destruct (Hw i d rest Hi).
Qed.

Lemma results_below_roots_witness :
  let os := Scenario.posix Scenario.tmp_a in
  let self := Scenario.report_txt in
  let s := exec os self Scenario.natural_run (start os self) in
  ∃ d es e, below os self d ∧ scandir os d = Listing es ∧ e ∈ es ∧
            probe e = inr Regular ∧
            FoundFile "/tmp/a/x/report.TXT" = FoundFile (path e).
Proof.
  intros os self s.
  apply (proj2 (results_below_roots os self s
                  ltac:(by exists Scenario.natural_run)) 0%nat).
  vm_compute. left.
Defined.

(** ** Termination detection, both ways *)

Section Stopping.
Context (os : OS) (self : FileSearchThread).

(** What the thread of [run] does at each place of its waiting loop. *)
Lemma waiting_loop_step s :
  (runner s = Polling →
   runner (step os self Run s) =
     (if stop_event s then Stopping (max_workers os) else Looking) ∧
   dir_queue (step os self Run s) = dir_queue s) ∧
  (runner s = Looking →
   runner (step os self Run s) = (if queue_empty s then Grace else Polling) ∧
   dir_queue (step os self Run s) = dir_queue s) ∧
  (runner s = Grace →
   runner (step os self Run s) =
     (if queue_empty s then Stopping (max_workers os) else Polling) ∧
   dir_queue (step os self Run s) = dir_queue s).
Proof.
  cbn [step]. unfold run_step. split_and!; by intros ->.
Qed.

(** The thread of [run] puts one sentinel with each step until none is
    left to put, and then joins. *)
Lemma stopping_step s :
  (∀ k, runner s = Stopping (S k) →
        runner (step os self Run s) = Stopping k ∧
        dir_queue (step os self Run s) = dir_queue s ++ [None] ∧
        sentinels (step os self Run s) = S (sentinels s)) ∧
  (runner s = Stopping 0 →
   runner (step os self Run s) = Joining ∧
   dir_queue (step os self Run s) = dir_queue s ∧
   sentinels (step os self Run s) = sentinels s).
Proof.
  cbn [step]. unfold run_step. split.
  - intros k ->. split_and!; [done..|]. apply sentinels_snoc_None.
  - by intros ->.
Qed.

(** The state in which a search whose pool was started is done: one
    sentinel was put for each worker, every worker has left its loop, and
    [finished] was emitted. *)
Lemma done_state s :
  after_submit os = Polling → reachable os self s → runner s = Done →
  sentinels s = max_workers os ∧
  length (workers s) = max_workers os ∧
  Forall (λ w, w = Exited) (workers s) ∧
  (RunThread, Finished) ∈ signals s.
Proof.
  intros Hnormal Hs Hr.
  destruct (run_inv_reachable _ _ _ Hs) as (Hlen & Hsent & Hrun & l & Hsig & _).
  rewrite Hr in Hsent, Hrun, Hsig. cbn [sentinels_due run_signals] in *.
  rewrite Hnormal in Hsent. split_and!; [done| | |].
  - by rewrite Hlen, started_workers_normal.
  - apply Forall_lookup. by apply all_exited_spec.
  - rewrite Hsig. apply elem_of_app. right. apply list_elem_of_fmap.
    exists Finished. split; [done|]. apply elem_of_app. right. by left.
Qed.

Lemma reachable_run_to sched n s :
  reachable os self s → reachable os self (run_to os self sched n s).
Proof. intros Hs. rewrite run_to_exec. by apply reachable_exec. Qed.

End Stopping.

(** C7. The thread of [run] begins to stop the pool only on finding the
    stop event set, or on finding the queue empty a second time after the
    grace interval, which it enters only on finding the queue empty; it
    then puts one sentinel per worker, as many as the pool has workers,
    before it joins; and [finished] is emitted only when every worker has
    left its loop. Conversely, at the top of its loop it begins to stop the
    pool as soon as it finds the stop event set, it enters the grace
    interval when it finds the queue empty and begins to stop the pool when
    it finds it empty again, and from then on each of its steps puts one
    sentinel until it joins. So a cancelled search, under every schedule in
    which each thread moves again and again, and an uncancelled search
    over a finite tree without unexpected exception likewise, comes to the
    state in which one sentinel was put for each worker, every worker has
    left its loop and [finished] was emitted. *)
Theorem C7_termination_detection :
  (∀ os self a s k,
     (∀ k', runner s ≠ Stopping k') →
     runner (step os self a s) = Stopping k →
     a = Run ∧ k = max_workers os ∧
     ((runner s = Polling ∧ stop_event s = true) ∨
      (runner s = Grace ∧ dir_queue s = []))) ∧
  (∀ os self a s,
     runner s ≠ Grace →
     runner (step os self a s) = Grace →
     a = Run ∧ runner s = Looking ∧ dir_queue s = []) ∧
  (∀ os self s,
     reachable os self s →
     match runner s with
     | Polling | Looking | Grace => sentinels s = 0%nat
     | Stopping k => (sentinels s + k)%nat = max_workers os
     | Joining =>
         sentinels s = max_workers os ∧
         length (workers s) = max_workers os
     | _ => True
     end) ∧
  (∀ os self s,
     runner s = Joining →
     runner (step os self Run s) =
       if all_exited s then Finishing else Joining) ∧
  (∀ os self s,
     reachable os self s →
     (RunThread, Finished) ∈ signals s →
     Forall (λ w, w = Exited) (workers s)) ∧
  (∀ os self s,
     (runner s = Polling →
      runner (step os self Run s) =
        (if stop_event s then Stopping (max_workers os) else Looking) ∧
      dir_queue (step os self Run s) = dir_queue s) ∧
     (runner s = Looking →
      runner (step os self Run s) =
        (if queue_empty s then Grace else Polling) ∧
      dir_queue (step os self Run s) = dir_queue s) ∧
     (runner s = Grace →
      runner (step os self Run s) =
        (if queue_empty s then Stopping (max_workers os) else Polling) ∧
      dir_queue (step os self Run s) = dir_queue s)) ∧
  (∀ os self s,
     (∀ k, runner s = Stopping (S k) →
           runner (step os self Run s) = Stopping k ∧
           dir_queue (step os self Run s) = dir_queue s ++ [None] ∧
           sentinels (step os self Run s) = S (sentinels s)) ∧
     (runner s = Stopping 0 →
      runner (step os self Run s) = Joining ∧
      dir_queue (step os self Run s) = dir_queue s ∧
      sentinels (step os self Run s) = sentinels s)) ∧
  (∀ os self s sched,
     after_submit os = Polling → reachable os self s →
     stop_event s = true → fair (length (workers s)) sched →
     ∃ n, runner (run_to os self sched n s) = Done ∧
          sentinels (run_to os self sched n s) = max_workers os ∧
          length (workers (run_to os self sched n s)) = max_workers os ∧
          Forall (λ w, w = Exited) (workers (run_to os self sched n s)) ∧
          (RunThread, Finished) ∈ signals (run_to os self sched n s)) ∧
  (∀ os self size sched,
     thread_limit os = None → no_unexpected_exception os →
     bounded_by os size →
     fair (max_workers os) sched → never_cancelled sched →
     ∃ n, runner (run_to os self sched n (start os self)) = Done ∧
          sentinels (run_to os self sched n (start os self))
            = max_workers os ∧
          length (workers (run_to os self sched n (start os self)))
            = max_workers os ∧
          Forall (λ w, w = Exited)
            (workers (run_to os self sched n (start os self))) ∧
          (RunThread, Finished)
            ∈ signals (run_to os self sched n (start os self))).
Proof.
  split_and!.
  - apply stopping_entered.
  - apply grace_entered.
  - intros os self s Hs.
    destruct (run_inv_reachable _ _ _ Hs) as (Hlen & Hsent & Hrun & _).
    destruct (runner s); simpl in *; try done.
    + lia.
    + by rewrite Hlen, started_workers_normal.
  - intros os self s Hr. simpl. unfold run_step. rewrite Hr.
    by destruct (all_exited s).
  - intros os self s Hs Hin.
    pose proof (finished_Done _ _ _ Hs Hin) as Hr.
    destruct (run_inv_reachable _ _ _ Hs) as (_ & _ & Hrun & _).
    rewrite Hr in Hrun. apply Forall_lookup. by apply all_exited_spec.
  - apply waiting_loop_step.
  - apply stopping_step.
  - intros os self s sched Hnormal Hs Hstop Hfair.
    destruct (fair_cancelled_finishes os self sched s Hstop Hfair) as [n Hn].
    exists n. split; [done|].
    apply (done_state os self); [done| |done]. by apply reachable_run_to.
  - intros os self size sched Hlimit Hclean Hsize Hfair Hnc.
    destruct (natural_finishes os self size Hlimit Hclean Hsize
                (start os self) sched) as [n Hn];
      [by apply natural_inv_start|done|done|].
    exists n. split; [done|].
    apply (done_state os self); [|by apply reachable_run_to, reachable_start|done].
    unfold after_submit. by rewrite Hlimit.
Qed.

Lemma C7_witness :
  let os := Scenario.posix Scenario.tmp_a in
  let self := Scenario.report_txt in
  let s := exec os self [Work 0; Work 0; Work 1; Cancel]%nat (start os self) in
  ∃ n, runner (run_to os self (round_robin 2) n s) = Done ∧
       sentinels (run_to os self (round_robin 2) n s) = max_workers os ∧
       length (workers (run_to os self (round_robin 2) n s)) = max_workers os ∧
       Forall (λ w, w = Exited) (workers (run_to os self (round_robin 2) n s)) ∧
       (RunThread, Finished) ∈ signals (run_to os self (round_robin 2) n s).
Proof.
  intros os self s.
  apply (proj1 (proj2 (proj2 (proj2 (proj2 (proj2 (proj2 (proj2
           C7_termination_detection))))))) os self s (round_robin 2)).
  - reflexivity.
  - by exists [Work 0; Work 0; Work 1; Cancel]%nat.
  - reflexivity.
  - apply round_robin_fair.
Defined.

(** ** A pool that cannot be started, a search without a valid root *)

Section PoolFailure.
Context (os : OS) (self : FileSearchThread).

(** With the workers out of their loops, a step of the thread of [run]
    past its waiting loop brings it closer to [Done]. *)
Lemma run_step_exited_rank s :
  all_exited s = true → waiting_loop (runner s) = false →
  (∀ k, runner s ≠ Stopping k) → runner s ≠ Done →
  (run_rank os (runner (run_step os s)) < run_rank os (runner s))%nat ∧
  waiting_loop (runner (run_step os s)) = false ∧
  (∀ k, runner (run_step os s) ≠ Stopping k).
Proof.
  intros Hall Hloop Hstop Hr. unfold run_step. rewrite Hall.
  destruct (runner s) as [| | |k| |msg| |]; try done;
    try (by destruct (Hstop k)); simpl; split_and!; try done; lia.
Qed.

Lemma exited_pool_finishes pool s sched :
  all_exited s = true → waiting_loop (runner s) = false →
  (∀ k, runner s ≠ Stopping k) →
  fair pool sched →
  ∃ n, runner (run_to os self sched n s) = Done.
Proof.
  remember (run_rank os (runner s)) as r eqn:Hr. revert s sched Hr.
  induction r as [r IHr] using lt_wf_ind.
  intros s sched -> Hall Hloop Hstop Hfair.
  assert (runner s = Done ∨ runner s ≠ Done) as [Hd|Hd]
    by (destruct (runner s); auto).
  { by exists 0%nat. }
  destruct (Hfair Run 0%nat (or_introl eq_refl)) as (m & _ & Hm).
  revert s sched Hall Hloop Hstop Hfair Hd Hm IHr.
  induction m as [|m IHm]; intros s sched Hall Hloop Hstop Hfair Hd Hm IHr.
  - destruct (run_step_exited_rank s Hall Hloop Hstop Hd) as (Hlt & Hl & Hs).
    destruct (IHr _ Hlt (run_step os s) (sched ∘ S) eq_refl) as [n Hn];
      [by rewrite run_step_all_exited|done|done|by apply fair_tail|].
    exists (S n). cbn [run_to]. by rewrite Hm.
  - destruct (sched 0%nat) as [i| |] eqn:Ha.
    + destruct (IHm s (sched ∘ S)) as [n Hn];
        [done|done|done|by apply fair_tail|done|done|done|].
      exists (S n). cbn [run_to]. rewrite Ha. cbn [step].
      by rewrite all_exited_worker_step.
    + destruct (run_step_exited_rank s Hall Hloop Hstop Hd) as (Hlt & Hl & Hs).
      destruct (IHr _ Hlt (run_step os s) (sched ∘ S) eq_refl) as [n Hn];
        [by rewrite run_step_all_exited|done|done|by apply fair_tail|].
      exists (S n). cbn [run_to]. by rewrite Ha.
    + destruct (IHm (set_stop s) (sched ∘ S)) as [n Hn];
        [done|done|done|by apply fair_tail|done|done|done|].
      exists (S n). cbn [run_to]. by rewrite Ha.
Qed.

(** Without workers there are no signals of workers. *)
Lemma no_workers_signals s :
  reachable os self s → workers s = [] →
  Forall (λ x, is_worker x.1 = false) (signals s).
Proof.
  revert s. apply (reachable_ind os self (λ s, workers s = [] →
    Forall (λ x, is_worker x.1 = false) (signals s))).
  - by constructor.
  - intros a s _ IH Hnil.
    assert (workers s = []) as Hs.
    { apply length_zero_iff_nil. rewrite <-(step_length os self a s), Hnil.
      done. }
    specialize (IH Hs). destruct a as [i| |]; cbn [step] in *; [| |done].
    + unfold worker_step. by rewrite Hs.
    + destruct (run_step_signals os s) as [->|[ev ->]]; [done|].
      apply Forall_app. split; [done|]. by constructor.
Qed.

(** The signals of a search that is done after its pool could not be
    started. *)
Lemma pool_failure_signals s k msg :
  thread_limit os = Some (k, msg) → (k < max_workers os)%nat →
  reachable os self s → runner s = Done →
  ∃ l, signals s =
         l ++ [(RunThread, FoundFile ("Error: " +:+ msg));
               (RunThread, Finished)] ∧
       Forall (λ x, is_worker x.1 = true) l.
Proof.
  intros Hlim Hk Hs Hr.
  destruct (run_inv_reachable _ _ _ Hs) as (_ & _ & _ & l & Hsig & Hl).
  exists l. split; [|done]. rewrite Hsig, Hr. simpl.
  unfold error_report, after_submit. rewrite Hlim.
  destruct (Nat.ltb_spec k (max_workers os)); [|lia]. reflexivity.
Qed.

(** When no thread of the pool could be started, the search comes to its
    end under every schedule in which the thread of [run] moves again and
    again. *)
Lemma no_thread_finishes pool msg sched :
  thread_limit os = Some (0%nat, msg) → fair pool sched →
  ∃ n, runner (run_to os self sched n (start os self)) = Done ∧
       stream (run_to os self sched n (start os self)) =
         [FoundFile ("Error: " +:+ msg); Finished].
Proof.
  intros Hlim Hfair. pose proof (max_workers_bounds os) as Hpool.
  assert (after_submit os = Failing msg) as Hafter.
  { unfold after_submit. rewrite Hlim.
    destruct (Nat.ltb_spec 0 (max_workers os)); [done|lia]. }
  assert (started_workers os = 0%nat) as Hstarted
    by (unfold started_workers; by rewrite Hlim).
  destruct (exited_pool_finishes pool (start os self) sched) as [n Hn];
    [by unfold all_exited; cbn [start workers]; rewrite Hstarted
    |by cbn [start runner]; rewrite Hafter
    |by cbn [start runner]; rewrite Hafter|done|].
  exists n. split; [done|].
  set (s := run_to os self sched n (start os self)) in *.
  assert (reachable os self s) as Hs
    by (subst s; rewrite run_to_exec; by eexists).
  destruct (pool_failure_signals s 0%nat msg Hlim ltac:(lia) Hs Hn)
    as (l & Hsig & Hl).
  assert (workers s = []) as Hnil.
  { apply length_zero_iff_nil.
    destruct (run_inv_reachable _ _ _ Hs) as (-> & _). done. }
  pose proof (no_workers_signals s Hs Hnil) as Hnone.
  rewrite Hsig in Hnone. apply Forall_app in Hnone as [Hnone _].
  destruct l as [|[t ev] l]; [unfold stream; by rewrite Hsig|].
  apply Forall_cons in Hl as [Ht _]. apply Forall_cons in Hnone as [Hf _].
  simpl in *. congruence.
Qed.

(** A step of a worker adds nothing but directories to the queue. *)
Lemma worker_step_queue i s x :
  x ∈ dir_queue (worker_step os self i s) →
  x ∈ dir_queue s ∨ ∃ p, x = Some p.
Proof.
  destruct (worker_step_move os self i s) as
    [ |Hi|Hi Hq|q s' Hi Hq Ht|q Hi Hq Ht|d q es Hi Hq Hd|d q x' Hi Hq Hd
    |d Hi|d e es p Hi He|d e es p Hi He|d e es Hi He|d e es x' Hi He];
    frame; auto.
  - intros Hx. left. rewrite Hq. right. congruence.
  - intros Hx. left. rewrite Hq. by right.
  - intros Hx. left. rewrite Hq. by right.
  - intros Hx. left. rewrite Hq. by right.
  - intros [Hx|[= ->]%list_elem_of_singleton]%elem_of_app; eauto.
Qed.

(** When some thread of the pool was started and the search is not
    cancelled, the thread of [run] waits for the workers that were
    started, which stay in their loops: it reports nothing. *)
Lemma pool_failure_waits k msg sched :
  thread_limit os = Some (k, msg) → (1 ≤ k < max_workers os)%nat →
  Forall (λ a, a ≠ Cancel) sched →
  runner (exec os self sched (start os self)) = Failing msg ∧
  ∀ ev, (RunThread, ev) ∉ signals (exec os self sched (start os self)).
Proof.
  intros Hlim Hk Hsched.
  assert (after_submit os = Failing msg) as Hafter.
  { unfold after_submit. rewrite Hlim.
    destruct (Nat.ltb_spec k (max_workers os)); [done|lia]. }
  assert (started_workers os = k) as Hstarted
    by (unfold started_workers; rewrite Hlim; lia).
  set (Q := λ s : state,
         stop_event s = false ∧ runner s = Failing msg ∧
         (None ∉ dir_queue s) ∧
         (∃ w, workers s !! 0%nat = Some w ∧ w ≠ Exited) ∧
         Forall (λ x, is_worker x.1 = true) (signals s)).
  assert (Q (exec os self sched (start os self))) as (_ & Hr & _ & _ & Hsig).
  { induction sched as [|a sched IH] using rev_ind.
    - unfold Q. cbn [exec foldl start stop_event runner dir_queue workers
        signals]. rewrite Hafter, Hstarted. split_and!; [done|done| | |done].
      + by intros (r & [=] & _)%list_elem_of_fmap.
      + exists AtCheck. split; [|done]. apply lookup_replicate. split; [done|lia].
    - apply Forall_app in Hsched as [Hsched [Ha _]%Forall_cons].
      specialize (IH Hsched). rewrite exec_snoc.
      set (s := exec os self sched (start os self)) in *.
      destruct IH as (Hstop & Hr & Hq & (w & Hw & Hne) & Hsig).
      destruct a as [i| |]; cbn [step]; [| |done].
      + unfold Q. rewrite worker_step_stop, worker_step_runner.
        split_and!; [done|done| | |].
        * intros [Hin|(p & [=])]%worker_step_queue. by apply Hq.
        * destruct (decide (i = 0%nat)) as [->|Hi0].
          -- unfold worker_step. rewrite Hw.
             destruct w as [| |d [|e es]|]; [| | | |done].
             ++ rewrite Hstop. eexists. split; [by eapply set_worker_lookup|done].
             ++ destruct (dir_queue s) as [|[d|] q] eqn:Hqs.
                ** eexists. split; [by eapply set_worker_lookup|done].
                ** destruct (scandir os d); eexists;
                     (split; [eapply set_worker_lookup; by frame|done]).
                ** destruct Hq. by left.
             ++ eexists. split; [eapply set_worker_lookup; by frame|done].
             ++ destruct (scan_entry os self e); eexists;
                  (split; [eapply set_worker_lookup; by frame|done]).
          -- exists w. split; [|done]. by rewrite worker_step_other.
        * destruct (worker_step_signals os self i s)
            as [->|(d & e & es & _ & _ & ->)]; [done|].
          apply Forall_app. split; [done|]. by constructor.
      + assert (all_exited s = false) as Hall.
        { apply not_true_is_false. intros Hall.
          by apply (proj1 (all_exited_spec s) Hall) in Hw. }
        unfold run_step. rewrite Hr, Hall. unfold Q.
        split_and!; [done|done|done|by exists w|done]. }
  split; [done|]. intros ev Hev.
  rewrite Forall_forall in Hsig. by apply Hsig in Hev.
Qed.

End PoolFailure.

Section BarrenEnd.
Context (os : OS) (self : FileSearchThread).
Hypothesis Hroots :
  ∀ r, r ∈ roots self →
       scandir os r = ScanRaises PermissionError ∨
       scandir os r = ScanRaises FileNotFoundError.

Lemma skipped_roots_barren : no_valid_root os self.
Proof. intros r Hr. destruct (Hroots r Hr) as [->| ->]; by eexists. Qed.

(** A search without a valid root takes the same steps when nothing but
    its roots is there. *)
Lemma barren_step_eq a s :
  barren_inv self s →
  step os self a s = step (roots_only os self) self a s.
Proof.
  intros (Hw & Hq & _). destruct a as [i| |]; cbn [step]; [|done|done].
  unfold worker_step.
  destruct (workers s !! i) as [[| |d rest|]|] eqn:Hi; try done;
    try (by destruct (Hw i d rest)).
  destruct (dir_queue s) as [|[d|] q] eqn:Hqs; try done.
  destruct (Hq (Some d)) as [?|(r & [= <-] & Hr)]; [by left|done|].
  cbn [scandir roots_only]. by rewrite bool_decide_eq_true_2.
Qed.

Lemma barren_exec_eq sched :
  exec os self sched (start os self) =
  exec (roots_only os self) self sched (start (roots_only os self) self).
Proof.
  induction sched as [|a sched IH] using rev_ind; [done|].
  rewrite !exec_snoc, <-IH. apply barren_step_eq.
  apply (barren_inv_reachable os self skipped_roots_barren). by eexists.
Qed.

(** A search without a valid root comes to its end by itself, with
    [finished] and nothing else. *)
Lemma barren_finishes sched :
  thread_limit os = None →
  fair (max_workers os) sched → never_cancelled sched →
  ∃ n, runner (run_to os self sched n (start os self)) = Done ∧
       stream (run_to os self sched n (start os self)) = [Finished].
Proof.
  intros Hlimit Hfair Hnc.
  assert (∀ d es, scandir (roots_only os self) d ≠ Listing es) as Hnone.
  { intros d es. cbn [scandir roots_only]. case_bool_decide as Hd; [|done].
    by destruct (Hroots d Hd) as [->| ->]. }
  destruct (natural_finishes (roots_only os self) self (λ _, 0%nat))
    with (s := start (roots_only os self) self) (sched := sched) as [n Hn].
  - done.
  - split.
    + intros d. cbn [scandir roots_only]. case_bool_decide as Hd; [|done].
      by destruct (Hroots d Hd) as [->| ->].
    + intros e (d & es & Hd & _). by destruct (Hnone d es).
  - intros d es Hd. by destruct (Hnone d es).
  - by apply natural_inv_start.
  - done.
  - done.
  - rewrite run_to_exec, <-barren_exec_eq, <-run_to_exec in Hn.
    exists n. split; [done|].
    set (s := run_to os self sched n (start os self)) in *.
    assert (reachable os self s) as Hs
      by (subst s; rewrite run_to_exec; by eexists).
    destruct (run_inv_reachable _ _ _ Hs) as (_ & _ & _ & l & Hsig & Hl).
    destruct (barren_inv_reachable _ _ skipped_roots_barren _ Hs)
      as (_ & _ & Hw).
    rewrite Hsig, Hn in *. simpl in *.
    unfold error_report, after_submit in *. rewrite Hlimit in *. simpl in *.
    apply Forall_app in Hw as [Hw _].
    destruct l as [|[t ev] l]; [unfold stream; by rewrite Hsig|].
    apply Forall_cons in Hl as [Ht _]. apply Forall_cons in Hw as [Hf _].
    simpl in *. congruence.
Qed.

End BarrenEnd.



